(** * docs-module-extractor: crawler, analyzer and output generator

    A shallow embedding of the Python sources
    [utils.py], [analyzer.py], [output_generator.py], [crawler.py] and
    [app.py], together with the properties stated about them.

    Conventions.
    - A Python [str] is a [list ascii]; the text is taken to be ASCII, so
      [len] is [length], a slice [s[:n]] is [firstn n s] and [str.lower]
      only moves the letters [A-Z].
    - A Python exception that the code catches is an [option] (or a sum)
      whose failure branch is handled where the [except] clause stands.
    - Library calls whose result the code merely consumes (the HTML parser,
      [urljoin], the stop words of the TF-IDF vectoriser, the iteration
      order of a [set]) are
      variables of the enclosing section. *)

From Stdlib Require Import ZArith List Ascii String Bool Lia Floats.
From Stdlib Require Import DecimalString.
From stdpp Require Import gmap.
Import ListNotations.

Set Warnings "-inexact-float".

(* ===================================================================== *)
(** * Part I.  The program                                              *)
(* ===================================================================== *)

(** ** Python strings *)

Module PyStr.

Definition str := list ascii.

(** A string literal of the source. *)
Definition lit (s : string) : str := list_ascii_of_string s.

Definition is_empty (s : str) : bool :=
  match s with [] => true | _ => false end.

(** [c in s] for a single character [c]. *)
Definition mem (c : ascii) (s : str) : bool := existsb (Ascii.eqb c) s.

Fixpoint str_eqb (a b : str) : bool :=
  match a, b with
  | [], [] => true
  | x :: a', y :: b' => Ascii.eqb x y && str_eqb a' b'
  | _, _ => false
  end.

(** [s.find(c)]: the index of the first [c], [None] for Python's [-1]. *)
Fixpoint find (c : ascii) (s : str) : option nat :=
  match s with
  | [] => None
  | x :: t => if Ascii.eqb x c then Some 0 else option_map S (find c t)
  end.

(** [s.find(c, start)]. *)
Definition find_from (c : ascii) (start : nat) (s : str) : option nat :=
  option_map (Nat.add start) (find c (skipn start s)).

(** [s.rfind(c)]. *)
Fixpoint rfind (c : ascii) (s : str) : option nat :=
  match s with
  | [] => None
  | x :: t =>
      match rfind c t with
      | Some i => Some (S i)
      | None => if Ascii.eqb x c then Some 0 else None
      end
  end.

(** [s.lstrip(chars)] and [s.rstrip(chars)], the character set given as a
    predicate. *)
Fixpoint lstrip (p : ascii -> bool) (s : str) : str :=
  match s with
  | [] => []
  | x :: t => if p x then lstrip p t else s
  end.

Fixpoint rstrip (p : ascii -> bool) (s : str) : str :=
  match s with
  | [] => []
  | x :: t =>
      match rstrip p t with
      | [] => if p x then [] else [x]
      | r => x :: r
      end
  end.

(** [s.split(c, 1)] when [c in s]: the text before the first [c] and the
    text after it. *)
Definition split_once (c : ascii) (s : str) : str * str :=
  match find c s with
  | Some i => (firstn i s, skipn (S i) s)
  | None => (s, [])
  end.

Definition is_upper (c : ascii) : bool :=
  ((65 <=? N_of_ascii c) && (N_of_ascii c <=? 90))%N.

Definition is_lower (c : ascii) : bool :=
  ((97 <=? N_of_ascii c) && (N_of_ascii c <=? 122))%N.

Definition is_digit (c : ascii) : bool :=
  ((48 <=? N_of_ascii c) && (N_of_ascii c <=? 57))%N.

Definition isascii (c : ascii) : bool := (N_of_ascii c <? 128)%N.

Definition isalpha (c : ascii) : bool := is_upper c || is_lower c.

Definition lower_char (c : ascii) : ascii :=
  if is_upper c then ascii_of_N (N_of_ascii c + 32) else c.

Definition upper_char (c : ascii) : ascii :=
  if is_lower c then ascii_of_N (N_of_ascii c - 32) else c.

(** [s.lower()]. *)
Definition lower (s : str) : str := map lower_char s.

(** Python's [str.isspace] on one ASCII character: tab, newline, vertical
    tab, form feed, carriage return, the separators 28..31, and space. *)
Definition isspace (c : ascii) : bool :=
  let n := N_of_ascii c in
  ((9 <=? n) && (n <=? 13) || (28 <=? n) && (n <=? 32))%N.

(** [s.strip()]. *)
Definition strip (s : str) : str := rstrip isspace (lstrip isspace s).

(** [sep.join(l)]. *)
Fixpoint join (sep : str) (l : list str) : str :=
  match l with
  | [] => []
  | [x] => x
  | x :: t => x ++ sep ++ join sep t
  end.

(** [s.startswith(p)]. *)
Fixpoint startswith (p s : str) : bool :=
  match p, s with
  | [], _ => true
  | x :: p', y :: s' => Ascii.eqb x y && startswith p' s'
  | _ :: _, [] => false
  end.

(** [a in b] for strings: [a] occurs in [b] as a substring. *)
Fixpoint is_substring (a b : str) : bool :=
  startswith a b ||
  match b with
  | [] => false
  | _ :: b' => is_substring a b'
  end.

(** [s.split()]: the maximal runs of non-space characters.  [cur] holds
    the current run, reversed. *)
Fixpoint split_ws_aux (s cur : str) : list str :=
  match s with
  | [] => match cur with [] => [] | _ => [rev cur] end
  | c :: t =>
      if isspace c
      then match cur with
           | [] => split_ws_aux t []
           | _ => rev cur :: split_ws_aux t []
           end
      else split_ws_aux t (c :: cur)
  end.

Definition split_ws (s : str) : list str := split_ws_aux s [].

(** [s.title()] on ASCII text: a letter that follows a letter is
    lower-cased, any other letter is upper-cased.  On other text Python
    follows the Unicode case mappings, under which one character may
    become several and [title] need not be idempotent; the properties
    below use only that title case moves letters and nothing else. *)
Fixpoint title_aux (prev_cased : bool) (s : str) : str :=
  match s with
  | [] => []
  | c :: t =>
      if isalpha c
      then (if prev_cased then lower_char c else upper_char c)
             :: title_aux true t
      else c :: title_aux false t
  end.

Definition title (s : str) : str := title_aux false s.

(** [\w] of the [re] module on ASCII text. *)
Definition is_word_char (c : ascii) : bool :=
  isalpha c || is_digit c || Ascii.eqb c "_".

(** [list(dict.fromkeys(l))]: the first occurrence of every string, in
    order. *)
Fixpoint dedup_aux (seen : list str) (l : list str) : list str :=
  match l with
  | [] => []
  | x :: t =>
      if existsb (str_eqb x) seen then dedup_aux seen t
      else x :: dedup_aux (x :: seen) t
  end.

Definition dict_fromkeys (l : list str) : list str := dedup_aux [] l.

End PyStr.

(** ** utils.py *)

Module Utils.
Import PyStr.

(** ** [urllib.parse] as called by [normalize_url] *)

Record SplitResult := mkSplit {
  s_scheme : str; s_netloc : str; s_path : str;
  s_query : str; s_fragment : str }.

Record ParseResult := mkParse {
  scheme : str; netloc : str; path : str;
  params : str; query : str; fragment : str }.

Definition scheme_chars : str :=
  lit "abcdefghijklmnopqrstuvwxyzABCDEFGHIJKLMNOPQRSTUVWXYZ0123456789+-.".

Definition uses_params : list str :=
  map lit [""; "ftp"; "hdl"; "prospero"; "http"; "imap"; "https"; "shttp";
           "rtsp"; "rtspu"; "sip"; "sips"; "mms"; "sftp"; "tel"]%string.

(** [_WHATWG_C0_CONTROL_OR_SPACE]: the characters 0..32. *)
Definition C0_CONTROL_OR_SPACE (c : ascii) : bool := (N_of_ascii c <=? 32)%N.

(** [_UNSAFE_URL_BYTES_TO_REMOVE]: tab, carriage return, newline. *)
Definition UNSAFE_URL_BYTE (c : ascii) : bool :=
  mem c ["009"; "013"; "010"]%char.

(** The scheme step of [urlsplit]: [i = url.find(':')], and when [i > 0],
    [url[0]] is an ASCII letter and every character of [url[:i]] is a
    scheme character, the scheme is [url[:i].lower()] and the rest
    [url[i+1:]]. *)
Definition split_scheme (url : str) : str * str :=
  match find ":" url, url with
  | Some (S j), c0 :: _ =>
      let i := S j in
      if isascii c0 && isalpha c0
         && forallb (fun c => mem c scheme_chars) (firstn i url)
      then (lower (firstn i url), skipn (S i) url)
      else ([], url)
  | _, _ => ([], url)
  end.

(** [_splitnetloc(url, start)]. *)
Definition splitnetloc (url : str) (start : nat) : str * str :=
  let delim :=
    fold_left
      (fun delim c =>
         match find_from c start url with
         | Some wdelim => Nat.min delim wdelim
         | None => delim
         end)
      (lit "/?#") (length url) in
  (skipn start (firstn delim url), skipn delim url).

(** [_splitparams(url)]. *)
Definition splitparams (url : str) : str * str :=
  if mem "/" url then
    match rfind "/" url with
    | Some k =>
        match find_from ";" k url with
        | Some i => (firstn i url, skipn (S i) url)
        | None => (url, [])
        end
    | None => (url, [])
    end
  else
    match find ";" url with
    | Some i => (firstn i url, skipn (S i) url)
    | None => (removelast url, url)
    end.

Section UrlParse.

(** The two host validations of [urlsplit] that raise [ValueError]:
    [_check_bracketed_netloc] (a bracketed host must be an IP literal) and
    the NFKC test of [_checknetloc] on a non-ASCII host.  [true] means
    that the call returns. *)
Variable check_bracketed_netloc : str -> bool.
Variable checknetloc_nfkc : str -> bool.

(** [urljoin(base, url)]; [None] when it raises. *)
Variable urljoin : str -> str -> option str.

Definition checknetloc (netloc : str) : bool :=
  if is_empty netloc || forallb isascii netloc then true
  else checknetloc_nfkc netloc.

(** [urlsplit(url)]; [None] when it raises [ValueError]. *)
Definition urlsplit (url : str) : option SplitResult :=
  let url := lstrip C0_CONTROL_OR_SPACE url in
  let url := List.filter (fun c => negb (UNSAFE_URL_BYTE c)) url in
  let '(scheme, url) := split_scheme url in
  let located :=
    if str_eqb (firstn 2 url) (lit "//") then
      let '(netloc, url) := splitnetloc url 2 in
      if (mem "[" netloc && negb (mem "]" netloc))
         || (mem "]" netloc && negb (mem "[" netloc))
      then None
      else if mem "[" netloc && mem "]" netloc
              && negb (check_bracketed_netloc netloc)
      then None
      else Some (netloc, url)
    else Some ([], url) in
  match located with
  | None => None
  | Some (netloc, url) =>
      let '(url, fragment) :=
        if mem "#" url then split_once "#" url else (url, []) in
      let '(url, query) :=
        if mem "?" url then split_once "?" url else (url, []) in
      if checknetloc netloc
      then Some (mkSplit scheme netloc url query fragment)
      else None
  end.

(** [urlparse(url)]. *)
Definition urlparse (url : str) : option ParseResult :=
  match urlsplit url with
  | None => None
  | Some r =>
      let '(url, params) :=
        if existsb (str_eqb (s_scheme r)) uses_params && mem ";" (s_path r)
        then splitparams (s_path r)
        else (s_path r, []) in
      Some (mkParse (s_scheme r) (s_netloc r) url params
                    (s_query r) (s_fragment r))
  end.

(** ** [normalize_url] *)

Definition is_slash (c : ascii) : bool := Ascii.eqb c "/".

(** [normalize_url(url, base_url)]: any exception returns [url]. *)
Definition normalize_url (url : str) (base_url : option str) : str :=
  match urlparse url with
  | None => url
  | Some parsed =>
      let normalized :=
        scheme parsed ++ lit "://" ++ netloc parsed ++ path parsed in
      let normalized := rstrip is_slash normalized in
      match base_url with
      | Some b =>
          if negb (is_empty b) && is_empty (netloc parsed)
          then match urljoin b url with
               | Some joined => joined
               | None => url
               end
          else normalized
      | None => normalized
      end
  end.

(** [extract_domain(url)]: the bare [except] returns the empty string. *)
Definition extract_domain (url : str) : str :=
  match urlparse url with
  | Some parsed => netloc parsed
  | None => []
  end.

(** [is_valid_url(url)]: the bare [except] returns [False]. *)
Definition is_valid_url (url : str) : bool :=
  match urlparse url with
  | Some parsed =>
      negb (is_empty (scheme parsed)) && negb (is_empty (netloc parsed))
  | None => false
  end.

End UrlParse.

End Utils.

(** ** analyzer.py *)

Module Analyzer.
Import PyStr.

(** [config.MAX_SUBMODULES_PER_MODULE]. *)
Definition MAX_SUBMODULES_PER_MODULE : nat := 10.

(** A module candidate: the dictionary built by
    [extract_candidate_modules], with its four keys. *)
Record candidate := mkCandidate {
  name : str; source : str; content : str; url : str }.

(** ** Sentences *)

(** [re.split(r'(?<=[.!?])\s+', text)]: the text is cut at every run of
    white space that follows one of [.], [!], [?]; the run is dropped. *)
Definition is_sentence_end (c : ascii) : bool := mem c (lit ".!?").

Inductive split_mode := Normal | AfterEnd | InGap.

Definition mode_after (c : ascii) : split_mode :=
  if is_sentence_end c then AfterEnd else Normal.

Fixpoint split_sentences_aux (s cur : str) (m : split_mode) : list str :=
  match s with
  | [] => [rev cur]
  | c :: t =>
      match m with
      | InGap =>
          if isspace c then split_sentences_aux t cur InGap
          else split_sentences_aux t (c :: cur) (mode_after c)
      | AfterEnd =>
          if isspace c then rev cur :: split_sentences_aux t [] InGap
          else split_sentences_aux t (c :: cur) (mode_after c)
      | Normal => split_sentences_aux t (c :: cur) (mode_after c)
      end
  end.

Definition split_sentences (text : str) : list str :=
  split_sentences_aux text [] Normal.

(** [len(topic_words & s_words)] for the two word sets. *)
Definition common_words (a b : list str) : nat :=
  length (List.filter (fun w => existsb (str_eqb w) b) (dict_fromkeys a)).

(** [extract_relevant_sentences(topic, text)]. *)
Definition extract_relevant_sentences (topic text : str) : list str :=
  let sentences := split_sentences text in
  let topic_words := split_ws (lower topic) in
  let relevant :=
    List.filter
      (fun s =>
         let s_words := split_ws (lower s) in
         is_substring (lower topic) (lower s)
         || (2 <=? common_words topic_words s_words))
      sentences in
  firstn 5 relevant.

(** ** Descriptions *)

(** [generate_description_algorithmic(module, context)]. *)
Definition generate_description_algorithmic (module : candidate)
    (context : str) : str :=
  let sentences := extract_relevant_sentences (name module) (content module) in
  let sentences :=
    match sentences with
    | [] => extract_relevant_sentences (name module) context
    | _ => sentences
    end in
  match sentences with
  | _ :: _ =>
      (name module ++ lit ": ")
        ++ firstn 500 (join (lit " ") (firstn 3 sentences))
  | [] => lit "Module related to " ++ name module ++ lit " functionality."
  end.

(** [generate_submodule_description(submodule, content, context)]. *)
Definition generate_submodule_description (submodule content context : str)
    : str :=
  let sentences := extract_relevant_sentences submodule content in
  let sentences :=
    match sentences with
    | [] => extract_relevant_sentences submodule context
    | _ => sentences
    end in
  match sentences with
  | _ :: _ => firstn 200 (join (lit " ") (firstn 2 sentences))
  | [] => lit "Functionality related to " ++ submodule ++ lit "."
  end.

(** ** Submodules *)

(** [$] of the [re] module: the end of the text, or the place before a
    final newline. *)
Definition at_dollar (s : str) : bool :=
  match s with
  | [] => true
  | [c] => Ascii.eqb c "010"
  | _ => false
  end.

(** The tail [(.+?)(?:\.|$)] of the three patterns, tried on [s]: the
    shortest non-empty run without a newline that is followed by a full
    stop or by [$].  Gives the group and the text after the match; [acc]
    is the group so far, reversed. *)
Fixpoint lazy_group (s acc : str) : option (str * str) :=
  match s with
  | [] => None
  | c :: t =>
      if Ascii.eqb c "010" then None
      else
        match t with
        | "."%char :: t' => Some (rev (c :: acc), t')
        | _ =>
            if at_dollar t then Some (rev (c :: acc), t)
            else lazy_group t (c :: acc)
        end
  end.

(** [\s+(.+?)(?:\.|$)]: the white space is greedy and gives back one
    character at a time when the rest does not match. *)
Fixpoint spaces_then_group (s : str) : option (str * str) :=
  match s with
  | [] => None
  | c :: t =>
      if isspace c then
        match spaces_then_group t with
        | Some r => Some r
        | None => lazy_group t []
        end
      else None
  end.

(** The keyword of a pattern under [re.IGNORECASE]; gives the text after
    it. *)
Fixpoint keyword_ci (kw s : str) : option str :=
  match kw, s with
  | [], _ => Some s
  | k :: kw', c :: s' =>
      if Ascii.eqb (lower_char c) k then keyword_ci kw' s' else None
  | _ :: _, [] => None
  end.

Definition match_at (kw s : str) : option (str * str) :=
  match keyword_ci kw s with
  | Some rest => spaces_then_group rest
  | None => None
  end.

(** [re.findall(pattern, content, re.IGNORECASE)] for the pattern with
    keyword [kw]: the groups of the matches, leftmost first, none
    overlapping.  [skip] counts the characters still covered by the last
    match. *)
Fixpoint findall (kw s : str) (skip : nat) : list str :=
  match s with
  | [] => []
  | _ :: t =>
      match skip with
      | S k => findall kw t k
      | 0 =>
          match match_at kw s with
          | Some (g, rest) => g :: findall kw t (length s - length rest - 1)
          | None => findall kw t 0
          end
      end
  end.

(** [re.split(r',|\band\b|\bor\b', match)].  [prev_word] tells whether the
    character before [s] is a word character, [skip] how many characters
    of a separator are still to be dropped, [cur] is the item so far,
    reversed. *)
Definition word_at (w s : str) (prev_word : bool) : bool :=
  negb prev_word && startswith w s
  && match skipn (length w) s with
     | [] => true
     | c :: _ => negb (is_word_char c)
     end.

Fixpoint split_items_aux (s cur : str) (prev_word : bool) (skip : nat)
    : list str :=
  match s with
  | [] => [rev cur]
  | c :: t =>
      match skip with
      | S k => split_items_aux t cur (is_word_char c) k
      | 0 =>
          if Ascii.eqb c "," then
            rev cur :: split_items_aux t [] false 0
          else if word_at (lit "and") s prev_word then
            rev cur :: split_items_aux t [] true 2
          else if word_at (lit "or") s prev_word then
            rev cur :: split_items_aux t [] true 1
          else split_items_aux t (c :: cur) (is_word_char c) 0
      end
  end.

Definition split_items (s : str) : list str := split_items_aux s [] false 0.

Definition patterns : list str :=
  [lit "includes"; lit "such as"; lit "including"].

(** [extract_potential_submodules(content)]. *)
Definition extract_potential_submodules (content : str) : list str :=
  let found :=
    flat_map
      (fun kw =>
         flat_map
           (fun m =>
              map (fun i => title (strip i))
                  (List.filter (fun i => 3 <? length (strip i))
                               (split_items m)))
           (findall kw content 0))
      patterns in
  dict_fromkeys found.

(** [submodules[name] = desc] on an insertion-ordered dictionary. *)
Fixpoint dict_set (d : list (str * str)) (k v : str) : list (str * str) :=
  match d with
  | [] => [(k, v)]
  | (k', v') :: t =>
      if str_eqb k' k then (k', v) :: t else (k', v') :: dict_set t k v
  end.

(** [extract_submodules(module, context)]. *)
Definition extract_submodules (module : candidate) (context : str)
    : list (str * str) :=
  let candidates := extract_potential_submodules (content module) in
  fold_left
    (fun submodules name =>
       let desc :=
         generate_submodule_description name (content module) context in
       if is_empty desc then submodules else dict_set submodules name desc)
    (firstn MAX_SUBMODULES_PER_MODULE candidates) [].

(** ** Confidence *)

(** [min(score, 1.0)]: Python returns the second argument only when it is
    smaller than the first. *)
Definition float_min (a b : float) : float :=
  if PrimFloat.ltb b a then b else a.

(** [calculate_confidence(module, description)], on binary64 floats. *)
Definition calculate_confidence (module : candidate) (description : str)
    : float :=
  let score := 0.5%float in
  let score :=
    if 800 <? length (content module) then (score + 0.2)%float else score in
  let score :=
    if 100 <? length description then (score + 0.1)%float else score in
  let score :=
    if str_eqb (source module) (lit "title") then (score + 0.1)%float
    else score in
  float_min score 1.0%float.

(** ** The pipeline of [generate_descriptions] *)

(** One entry of the list that [generate_descriptions] returns. *)
Record described := mkDescribed {
  d_module : str;
  d_description : str;
  d_submodules : list (str * str);
  d_confidence : float }.

(** [generate_description_with_llm]: the chain either answers or raises,
    and the [except] clause falls back to the heuristic description. *)
Definition generate_description_with_llm
    (chain : candidate -> str -> option str) (module : candidate)
    (context : str) : str :=
  match chain module context with
  | Some response => strip response
  | None => generate_description_algorithmic module context
  end.

(** [generate_descriptions(modules, all_content)]; [llm] is [Some chain]
    when [self.use_llm and self.llm] holds. *)
Definition generate_descriptions
    (llm : option (candidate -> str -> option str))
    (modules : list candidate) (all_content : str) : list described :=
  map (fun module =>
         let description :=
           match llm with
           | Some chain => generate_description_with_llm chain module all_content
           | None => generate_description_algorithmic module all_content
           end in
         let submodules := extract_submodules module all_content in
         mkDescribed (name module) description submodules
                     (calculate_confidence module description))
      modules.

(** ** Clustering *)

(** [TfidfVectorizer(stop_words="english")]: a token is a run of two or
    more word characters of the lower-cased name that is not a stop word.
    [cur] is the current run, reversed. *)
Fixpoint word_runs_aux (s cur : str) : list str :=
  match s with
  | [] => [rev cur]
  | c :: t =>
      if is_word_char c then word_runs_aux t (c :: cur)
      else rev cur :: word_runs_aux t []
  end.

Definition tokenize (doc : str) : list str :=
  List.filter (fun w => 2 <=? length w) (word_runs_aux (lower doc) []).

Definition priority (source : str) : nat :=
  if str_eqb source (lit "title") then 0
  else if str_eqb source (lit "heading_h1") then 1
  else if str_eqb source (lit "heading_h2") then 2
  else if str_eqb source (lit "heading_h3") then 3
  else 99.

(** The order of the sort key [(priority, -len(content))]. *)
Definition key_lt (a b : candidate) : bool :=
  (priority (source a) <? priority (source b))
  || ((priority (source a) =? priority (source b))
      && (length (content b) <? length (content a))).

(** [choose_main_module]: the head of the list after the stable sort, that
    is the first candidate whose key is least; [None] stands for the
    [IndexError] on an empty list. *)
Definition choose_main_module (candidates : list candidate)
    : option candidate :=
  match candidates with
  | [] => None
  | c :: t =>
      Some (fold_left (fun best x => if key_lt x best then x else best) t c)
  end.

(** [clusters.setdefault(label, []).append(c)]. *)
Fixpoint setdefault_append (clusters : list (Z * list candidate))
    (label : Z) (c : candidate) : list (Z * list candidate) :=
  match clusters with
  | [] => [(label, [c])]
  | (l, cs) :: t =>
      if (l =? label)%Z then (l, cs ++ [c]) :: t
      else (l, cs) :: setdefault_append t label c
  end.

Fixpoint all_some {A} (l : list (option A)) : option (list A) :=
  match l with
  | [] => Some []
  | None :: _ => None
  | Some x :: t =>
      match all_some t with
      | Some r => Some (x :: r)
      | None => None
      end
  end.

(** The loop of the fallback: the first candidate of every lower-cased
    name, [seen] being the names met so far. *)
Fixpoint unique_loop (seen : list str) (candidates : list candidate)
    : list candidate :=
  match candidates with
  | [] => []
  | c :: t =>
      if existsb (str_eqb (lower (name c))) seen then unique_loop seen t
      else c :: unique_loop (lower (name c) :: seen) t
  end.

Section Cluster.

(** scikit-learn's English stop words. *)
Variable stop_words : list str.

(** [vectorizer.fit_transform(names)]: the vocabulary, or [None] for the
    [ValueError] that an empty vocabulary raises.  The similarity matrix
    computed from it is not used afterwards. *)
Definition tfidf_fit (names : list str) : option (list str) :=
  let vocabulary :=
    dict_fromkeys
      (List.filter (fun w => negb (existsb (str_eqb w) stop_words))
                   (flat_map tokenize names)) in
  match vocabulary with
  | [] => None
  | _ => Some vocabulary
  end.

(** [cluster_modules(candidates)].  [embedder] is [self.embedder] together
    with the DBSCAN fit: it gives the cluster label of every name, or
    raises.  The result is [None] when an exception leaves the method. *)
Definition cluster_modules
    (embedder : option (list str -> option (list Z)))
    (candidates : list candidate) : option (list candidate) :=
  match candidates with
  | [] => Some []
  | _ =>
      let names := map name candidates in
      match embedder with
      | Some encode_and_fit =>
          match encode_and_fit names with
          | None => None
          | Some labels =>
              let clusters :=
                fold_left
                  (fun clusters lc =>
                     if (fst lc =? -1)%Z then clusters
                     else setdefault_append clusters (fst lc) (snd lc))
                  (combine labels candidates) [] in
              all_some (map (fun v => choose_main_module (snd v)) clusters)
          end
      | None =>
          match tfidf_fit names with
          | Some _ => Some (unique_loop [] candidates)
          | None => Some candidates
          end
      end
  end.

End Cluster.

End Analyzer.

(** ** utils.py: text helpers *)

Module UtilsText.
Import PyStr Analyzer.

(** [re.sub(r'\s+', ' ', text)]: every run of white space becomes one
    space.  [in_run] tells whether the character before [s] is white
    space. *)
Fixpoint collapse_spaces (s : str) (in_run : bool) : str :=
  match s with
  | [] => []
  | c :: t =>
      if isspace c then
        if in_run then collapse_spaces t true
        else " "%char :: collapse_spaces t true
      else c :: collapse_spaces t false
  end.

(** The characters outside the class [[^\w\s.,;:!?()-]]. *)
Definition is_kept (c : ascii) : bool :=
  is_word_char c || isspace c || mem c (lit ".,;:!?()-").

(** [re.sub(r'[^\w\s.,;:!?()-]', ' ', text)]. *)
Definition blank_special (s : str) : str :=
  map (fun c => if is_kept c then c else " "%char) s.

(** [clean_text(text)]. *)
Definition clean_text (text : str) : str :=
  if is_empty text then []
  else strip (blank_special (collapse_spaces text false)).

(** [split_into_sentences(text)]. *)
Definition split_into_sentences (text : str) : list str :=
  map strip
      (List.filter (fun s => negb (is_empty (strip s)))
                   (split_sentences text)).

(** The loop of [chunk_content] over the words. *)
Fixpoint chunk_loop (chunk_size : Z) (words current_chunk : list str)
    (current_size : Z) : list str :=
  match words with
  | [] =>
      match current_chunk with
      | [] => []
      | _ => [join (lit " ") current_chunk]
      end
  | word :: rest =>
      let current_chunk := current_chunk ++ [word] in
      let current_size := (current_size + Z.of_nat (length word) + 1)%Z in
      if (chunk_size <=? current_size)%Z
      then join (lit " ") current_chunk :: chunk_loop chunk_size rest [] 0
      else chunk_loop chunk_size rest current_chunk current_size
  end.

(** [chunk_content(content, chunk_size)]; [chunk_size] is 1000 by
    default. *)
Definition chunk_content (content : str) (chunk_size : Z) : list str :=
  chunk_loop chunk_size (split_ws content) [] 0.

End UtilsText.

(** ** utils.py: [merge_dicts] *)

Module MergeDicts.
Import PyStr.

(** The values that [merge_dicts] tells apart.  Lists, sets and
    dictionaries are objects in a store and are shared by reference: the
    copy [dict1.copy()] is shallow, and [extend] and [update] change an
    object in place.  Every other value is an atom, and so is a member of
    a set, which is hashable.  The keys are strings. *)
Inductive value :=
| Atom (a : Z)
| Ref (address : nat).

Inductive object :=
| ListObj (items : list value)
| SetObj (members : gset Z)
| DictObj (entries : list (str * value)).

Abbreviation store := (list object).

(** [d.get(key)] and [d[key] = v] on the entries of a dictionary, which
    keep the order of insertion. *)
Fixpoint dict_find (d : list (str * value)) (key : str) : option value :=
  match d with
  | [] => None
  | (k, v) :: t => if str_eqb k key then Some v else dict_find t key
  end.

Fixpoint dict_assign (d : list (str * value)) (key : str) (v : value)
    : list (str * value) :=
  match d with
  | [] => [(key, v)]
  | (k, v0) :: t =>
      if str_eqb k key then (k, v) :: t else (k, v0) :: dict_assign t key v
  end.

(** A new object, and its address. *)
Definition alloc (s : store) (o : object) : store * nat :=
  (s ++ [o], length s).

Section Loop.

(** The recursive call [merge_dicts(result[key], value)]. *)
Variable merge : store -> nat -> nat -> option (store * nat).

(** The loop over [dict2.items()]; [result] holds the entries of the
    dictionary [result]. *)
Fixpoint merge_loop (s : store) (result items : list (str * value))
    : option (store * list (str * value)) :=
  match items with
  | [] => Some (s, result)
  | (key, v) :: rest =>
      match dict_find result key with
      | Some current =>
          match current, v with
          | Ref a, Ref b =>
              match s !! a, s !! b with
              | Some (ListObj x), Some (ListObj y) =>
                  merge_loop (<[a := ListObj (x ++ y)]> s) result rest
              | Some (SetObj x), Some (SetObj y) =>
                  merge_loop (<[a := SetObj (x ∪ y)]> s) result rest
              | Some (DictObj _), Some (DictObj _) =>
                  match merge s a b with
                  | Some (s', r) =>
                      merge_loop s' (dict_assign result key (Ref r)) rest
                  | None => None
                  end
              | _, _ => merge_loop s (dict_assign result key v) rest
              end
          | _, _ => merge_loop s (dict_assign result key v) rest
          end
      | None => merge_loop s (result ++ [(key, v)]) rest
      end
  end.

End Loop.

(** [merge_dicts(dict1, dict2)] on the addresses of two dictionaries: the
    store after the call and the address of the new dictionary [result].
    [fuel] bounds the depth of the recursion.  [None] stands for a call
    that returns no dictionary: the recursion limit is reached, or an
    argument is no dictionary, which the signature excludes. *)
Fixpoint merge_dicts (fuel : nat) (s : store) (dict1 dict2 : nat)
    : option (store * nat) :=
  match fuel with
  | O => None
  | S fuel' =>
      match s !! dict1, s !! dict2 with
      | Some (DictObj entries1), Some (DictObj entries2) =>
          match merge_loop (merge_dicts fuel') s entries1 entries2 with
          | Some (s', result) => Some (alloc s' (DictObj result))
          | None => None
          end
      | _, _ => None
      end
  end.

End MergeDicts.

(** ** analyzer.py: from parsed pages to modules *)

Module Pipeline.
Import PyStr Analyzer.

(** The dictionaries of a parsed page, as far as the analyzer reads them;
    [None] stands for a key that is missing. *)
Record section := mkSection {
  sec_title : option str; sec_content : option str }.

Record metadata := mkMetadata {
  md_title : option str; md_breadcrumbs : option (list str) }.

Record structure := mkStructure {
  st_headings : option (list (str * list str));
  st_sections : option (list section) }.

Record parsed_page := mkParsed {
  pg_url : option str; pg_content : option str;
  pg_metadata : option metadata; pg_structure : option structure }.

(** [d.get(key, "")]. *)
Definition get_str (x : option str) : str :=
  match x with Some s => s | None => [] end.

(** [page.get("metadata", {}).get("title", "")]. *)
Definition page_title (page : parsed_page) : str :=
  match pg_metadata page with
  | Some m => get_str (md_title m)
  | None => []
  end.

(** [page.get("metadata", {}).get("breadcrumbs", [])]. *)
Definition page_breadcrumbs (page : parsed_page) : list str :=
  match pg_metadata page with
  | Some m => match md_breadcrumbs m with Some b => b | None => [] end
  | None => []
  end.

(** [page.get("structure", {}).get("headings", {}).get(level, [])]. *)
Fixpoint headings_get (headings : list (str * list str)) (level : str)
    : list str :=
  match headings with
  | [] => []
  | (k, v) :: t => if str_eqb k level then v else headings_get t level
  end.

Definition page_headings (page : parsed_page) (level : str) : list str :=
  match pg_structure page with
  | Some s =>
      match st_headings s with
      | Some h => headings_get h level
      | None => []
      end
  | None => []
  end.

(** [page.get("structure", {}).get("sections", [])]. *)
Definition page_sections (page : parsed_page) : list section :=
  match pg_structure page with
  | Some s => match st_sections s with Some l => l | None => [] end
  | None => []
  end.

(** [combine_content(parsed_pages)]. *)
Definition combine_content (parsed_pages : list parsed_page) : str :=
  join (lit " ")
       (flat_map (fun page => [page_title page; get_str (pg_content page)])
                 parsed_pages).

(** [get_section_content(heading, page)]. *)
Definition get_section_content (heading : str) (page : parsed_page) : str :=
  match List.find
          (fun section =>
             str_eqb (lower (get_str (sec_title section))) (lower heading))
          (page_sections page) with
  | Some section => get_str (sec_content section)
  | None => get_str (pg_content page)
  end.

(** The test [x and len(x) > 3]. *)
Definition long_enough (x : str) : bool :=
  negb (is_empty x) && (3 <? length x).

(** [str(i)] for an index. *)
Definition str_of_nat (i : nat) : str :=
  lit (NilZero.string_of_uint (Nat.to_uint i)).

(** [enumerate(l)], counting from [i]. *)
Fixpoint enumerate {A} (i : nat) (l : list A) : list (nat * A) :=
  match l with
  | [] => []
  | x :: t => (i, x) :: enumerate (S i) t
  end.

(** The candidates that [extract_candidate_modules] appends for one
    page. *)
Definition page_candidates (page : parsed_page) : list candidate :=
  let title := page_title page in
  (if long_enough title
   then [mkCandidate title (lit "title") (get_str (pg_content page))
                     (get_str (pg_url page))]
   else [])
  ++ flat_map
       (fun level =>
          flat_map
            (fun heading =>
               if long_enough heading
               then [mkCandidate heading (lit "heading_" ++ level)
                                 (get_section_content heading page)
                                 (get_str (pg_url page))]
               else [])
            (page_headings page level))
       [lit "h1"; lit "h2"; lit "h3"]
  ++ flat_map
       (fun ic =>
          if long_enough (snd ic)
          then [mkCandidate (snd ic) (lit "breadcrumb_" ++ str_of_nat (fst ic))
                            (get_str (pg_content page))
                            (get_str (pg_url page))]
          else [])
       (enumerate 0 (page_breadcrumbs page)).

(** [extract_candidate_modules(parsed_pages)]. *)
Definition extract_candidate_modules (parsed_pages : list parsed_page)
    : list candidate :=
  flat_map page_candidates parsed_pages.

(** A dictionary of the list that [format_output] returns. *)
Record module_record := mkModule {
  r_module : str;
  r_description : str;
  r_submodules : list (str * str);
  r_confidence_score : float }.

(** [format_output(modules)]. *)
Definition format_output (modules : list described) : list module_record :=
  map (fun m => mkModule (d_module m) (d_description m) (d_submodules m)
                         (d_confidence m))
      modules.

Section Analyze.

Variable stop_words : list str.

(** [self.llm] when [self.use_llm] holds, and [self.embedder]. *)
Variable llm : option (candidate -> str -> option str).
Variable embedder : option (list str -> option (list Z)).

(** [analyze_documentation(parsed_pages)]; [None] when an exception of the
    embedder leaves the method. *)
Definition analyze_documentation (parsed_pages : list parsed_page)
    : option (list module_record) :=
  let all_content := combine_content parsed_pages in
  let candidate_modules := extract_candidate_modules parsed_pages in
  match cluster_modules stop_words embedder candidate_modules with
  | None => None
  | Some clustered_modules =>
      Some (format_output
              (generate_descriptions llm clustered_modules all_content))
  end.

End Analyze.

End Pipeline.

(** ** The json library

    [json.dumps] and [json.loads] of the Python standard library, as
    [generate_json] and a reader of its output call them.  A number is
    kept as the literal that [repr] writes for it, so that a float is read
    back exactly when its literal is; the text is ASCII, and [json.dumps]
    runs with [indent=2] and [ensure_ascii=False].

    The reader departs from the library in three places, none of which is
    met on text that [dumps] writes: a number is the longest run of number
    characters rather than a checked literal, [NaN] and [Infinity] are not
    read, and a [\uXXXX] escape above the 8-bit range is refused. *)

Module Json.
Import PyStr.

Unset Elimination Schemes.
Inductive json :=
| JNull
| JBool (b : bool)
| JNum (literal : str)
| JStr (s : str)
| JArr (items : list json)
| JObj (members : list (str * json)).
Set Elimination Schemes.

(** The double quote and the backslash. *)
Definition dquote : ascii := "034"%char.
Definition backslash : ascii := "092"%char.

(** *** Writing *)

Definition hex_digit (n : N) : ascii :=
  if (n <? 10)%N then ascii_of_N (48 + n) else ascii_of_N (87 + n).

(** The escape of one character ([ESCAPE_DCT]): the quote, the backslash
    and the control characters are escaped, every other character is
    written as it is. *)
Definition escape_char (c : ascii) : str :=
  let n := N_of_ascii c in
  if Ascii.eqb c dquote then [backslash; dquote]
  else if Ascii.eqb c backslash then [backslash; backslash]
  else if (n =? 8)%N then [backslash; "b"%char]
  else if (n =? 9)%N then [backslash; "t"%char]
  else if (n =? 10)%N then [backslash; "n"%char]
  else if (n =? 12)%N then [backslash; "f"%char]
  else if (n =? 13)%N then [backslash; "r"%char]
  else if (n <? 32)%N then
    [backslash; "u"%char; "0"%char; "0"%char;
     hex_digit (n / 16); hex_digit (n mod 16)]
  else [c].

Definition quote (s : str) : str :=
  dquote :: flat_map escape_char s ++ [dquote].

(** A newline and the indentation of a nesting level. *)
Definition newline_indent (level : nat) : str :=
  "010"%char :: repeat " "%char (2 * level).

Fixpoint dumps_at (level : nat) (v : json) : str :=
  match v with
  | JNull => lit "null"
  | JBool true => lit "true"
  | JBool false => lit "false"
  | JNum literal => literal
  | JStr s => quote s
  | JArr [] => lit "[]"
  | JArr (x :: rest) =>
      lit "[" ++ newline_indent (S level) ++ dumps_at (S level) x
      ++ flat_map
           (fun y => lit "," ++ newline_indent (S level)
                     ++ dumps_at (S level) y)
           rest
      ++ newline_indent level ++ lit "]"
  | JObj [] => lit "{}"
  | JObj (kx :: rest) =>
      lit "{" ++ newline_indent (S level) ++ quote (fst kx) ++ lit ": "
      ++ dumps_at (S level) (snd kx)
      ++ flat_map
           (fun ky => lit "," ++ newline_indent (S level) ++ quote (fst ky)
                      ++ lit ": " ++ dumps_at (S level) (snd ky))
           rest
      ++ newline_indent level ++ lit "}"
  end.

(** [json.dumps(v, indent=2, ensure_ascii=False)]. *)
Definition dumps (v : json) : str := dumps_at 0 v.

(** *** Reading *)

Definition is_json_space (c : ascii) : bool :=
  mem c [" "; "009"; "010"; "013"]%char.

Fixpoint skip_ws (s : str) : str :=
  match s with
  | c :: t => if is_json_space c then skip_ws t else s
  | [] => []
  end.

Definition hex_value (c : ascii) : option N :=
  let n := N_of_ascii c in
  if is_digit c then Some (n - 48)%N
  else if ((97 <=? n) && (n <=? 102))%N then Some (n - 87)%N
  else if ((65 <=? n) && (n <=? 70))%N then Some (n - 55)%N
  else None.

(** [\uXXXX]: the character, when it lies in the 8-bit range of this
    model. *)
Definition decode_u (h1 h2 h3 h4 : ascii) : option ascii :=
  match hex_value h1, hex_value h2, hex_value h3, hex_value h4 with
  | Some a, Some b, Some c, Some d =>
      let n := (((a * 16 + b) * 16 + c) * 16 + d)%N in
      if (n <? 256)%N then Some (ascii_of_N n) else None
  | _, _, _, _ => None
  end.

(** The character that a one-letter escape stands for ([BACKSLASH]). *)
Definition unescape (c : ascii) : option ascii :=
  if Ascii.eqb c dquote then Some dquote
  else if Ascii.eqb c backslash then Some backslash
  else if Ascii.eqb c "/" then Some "/"%char
  else if Ascii.eqb c "b" then Some "008"%char
  else if Ascii.eqb c "f" then Some "012"%char
  else if Ascii.eqb c "n" then Some "010"%char
  else if Ascii.eqb c "r" then Some "013"%char
  else if Ascii.eqb c "t" then Some "009"%char
  else None.

(** The text of a string after its opening quote, up to the closing one;
    a raw control character is refused. *)
Fixpoint scan_string (s : str) : option (str * str) :=
  match s with
  | [] => None
  | c :: t =>
      if Ascii.eqb c dquote then Some ([], t)
      else if Ascii.eqb c backslash then
        match t with
        | e :: t1 =>
            if Ascii.eqb e "u" then
              match t1 with
              | h1 :: h2 :: h3 :: h4 :: t2 =>
                  match decode_u h1 h2 h3 h4, scan_string t2 with
                  | Some d, Some (r, rest) => Some (d :: r, rest)
                  | _, _ => None
                  end
              | _ => None
              end
            else
              match unescape e, scan_string t1 with
              | Some d, Some (r, rest) => Some (d :: r, rest)
              | _, _ => None
              end
        | [] => None
        end
      else if (N_of_ascii c <? 32)%N then None
      else
        match scan_string t with
        | Some (r, rest) => Some (c :: r, rest)
        | None => None
        end
  end.

Definition is_number_char (c : ascii) : bool :=
  is_digit c || mem c (lit "+-.eE").

(** The longest run of number characters. *)
Fixpoint scan_number (s : str) : str * str :=
  match s with
  | c :: t =>
      if is_number_char c
      then let '(n, rest) := scan_number t in (c :: n, rest)
      else ([], s)
  | [] => ([], [])
  end.

(** [d[k] = v] on the members of an object: a repeated key keeps its
    place and takes the later value. *)
Fixpoint obj_set (d : list (str * json)) (k : str) (v : json)
    : list (str * json) :=
  match d with
  | [] => [(k, v)]
  | (k', v') :: t =>
      if str_eqb k' k then (k', v) :: t else (k', v') :: obj_set t k v
  end.

Definition expect (p s : str) : option str :=
  if startswith p s then Some (skipn (length p) s) else None.

(** What follows a value inside a container: a comma, the closing
    bracket, or something else. *)
Inductive after_value := Comma (s : str) | Close (s : str) | Other.

Definition next_token (close : ascii) (s : str) : after_value :=
  match skip_ws s with
  | c :: t =>
      if Ascii.eqb c "," then Comma (skip_ws t)
      else if Ascii.eqb c close then Close t
      else Other
  | [] => Other
  end.

(** A key and its colon: the key and the text where the value begins. *)
Definition scan_key (s : str) : option (str * str) :=
  match s with
  | c :: s0 =>
      if Ascii.eqb c dquote then
        match scan_string s0 with
        | Some (k, s1) =>
            match skip_ws s1 with
            | c' :: s2 =>
                if Ascii.eqb c' ":" then Some (k, skip_ws s2) else None
            | [] => None
            end
        | None => None
        end
      else None
  | [] => None
  end.

(** The entries of an array after its opening bracket, at most [n] of
    them, each read by [scan]; [acc] holds the entries read so far, the
    latest first. *)
Fixpoint scan_items (scan : str -> option (json * str)) (n : nat) (s : str)
    (acc : list json) : option (json * str) :=
  match n with
  | O => None
  | S n' =>
      match scan s with
      | None => None
      | Some (v, s1) =>
          match next_token "]" s1 with
          | Comma s2 => scan_items scan n' s2 (v :: acc)
          | Close rest => Some (JArr (rev (v :: acc)), rest)
          | Other => None
          end
      end
  end.

(** The members of an object after its opening brace. *)
Fixpoint scan_members (scan : str -> option (json * str)) (n : nat) (s : str)
    (acc : list (str * json)) : option (json * str) :=
  match n with
  | O => None
  | S n' =>
      match scan_key s with
      | None => None
      | Some (k, s1) =>
          match scan s1 with
          | None => None
          | Some (v, s2) =>
              match next_token "}" s2 with
              | Comma s3 => scan_members scan n' s3 (obj_set acc k v)
              | Close rest => Some (JObj (obj_set acc k v), rest)
              | Other => None
              end
          end
      end
  end.

(** Whether [s] begins with the character [c]; the text after it. *)
Definition begins_with (c : ascii) (s : str) : option str :=
  match s with
  | c' :: t => if Ascii.eqb c' c then Some t else None
  | [] => None
  end.

(** One value at the head of [s], and the text after it.  [fuel] bounds
    the nesting and the number of entries of a container. *)
Fixpoint scan_value (fuel : nat) (s : str) : option (json * str) :=
  match fuel with
  | O => None
  | S fuel' =>
      match s with
      | [] => None
      | c :: t =>
          if Ascii.eqb c dquote then
            match scan_string t with
            | Some (r, rest) => Some (JStr r, rest)
            | None => None
            end
          else if Ascii.eqb c "[" then
            match begins_with "]" (skip_ws t) with
            | Some rest => Some (JArr [], rest)
            | None => scan_items (scan_value fuel') fuel' (skip_ws t) []
            end
          else if Ascii.eqb c "{" then
            match begins_with "}" (skip_ws t) with
            | Some rest => Some (JObj [], rest)
            | None => scan_members (scan_value fuel') fuel' (skip_ws t) []
            end
          else if is_digit c || Ascii.eqb c "-" then
            let '(n, rest) := scan_number s in Some (JNum n, rest)
          else
            match expect (lit "null") s, expect (lit "true") s,
                  expect (lit "false") s with
            | Some rest, _, _ => Some (JNull, rest)
            | _, Some rest, _ => Some (JBool true, rest)
            | _, _, Some rest => Some (JBool false, rest)
            | _, _, _ => None
            end
      end
  end.

(** [json.loads(s)]: one value between optional white space; [None] for
    a [JSONDecodeError]. *)
Definition loads (s : str) : option json :=
  match scan_value (length s) (skip_ws s) with
  | Some (v, rest) =>
      match skip_ws rest with
      | [] => Some v
      | _ => None
      end
  | None => None
  end.

End Json.

(** ** output_generator.py *)

Module OutputGenerator.
Import PyStr Json.

(** [d.get(key)] on a dictionary with string keys, and
    [module.get(key, default)]. *)
Fixpoint dict_lookup (d : list (str * json)) (key : str) : option json :=
  match d with
  | [] => None
  | (k, v) :: t => if str_eqb k key then Some v else dict_lookup t key
  end.

Definition dict_get (d : list (str * json)) (key : str) (default : json)
    : json :=
  match dict_lookup d key with
  | Some v => v
  | None => default
  end.

(** The list [output] that [generate_json] hands to [json.dumps];
    [timestamp] is [self.timestamp]. *)
Definition generate_json_output (timestamp : str)
    (modules : list (list (str * json))) (include_metadata : bool) : json :=
  JArr
    (map
       (fun module =>
          let module_output :=
            [ (lit "module", dict_get module (lit "module") (JStr []));
              (lit "Description",
               dict_get module (lit "Description") (JStr []));
              (lit "Submodules",
               dict_get module (lit "Submodules") (JObj [])) ] in
          let module_output :=
            if include_metadata then
              obj_set module_output (lit "metadata")
                (JObj
                   [ (lit "confidence_score",
                      dict_get module (lit "confidence_score")
                               (JNum (lit "0.5")));
                     (lit "source_urls",
                      dict_get module (lit "source_urls") (JArr []));
                     (lit "extraction_timestamp", JStr timestamp) ])
            else module_output in
          JObj module_output)
       modules).

(** [generate_json(modules, include_metadata)]. *)
Definition generate_json (timestamp : str)
    (modules : list (list (str * json))) (include_metadata : bool) : str :=
  dumps (generate_json_output timestamp modules include_metadata).

End OutputGenerator.

(** ** crawler.py *)

Module Crawler.
Import PyStr Utils.

(** The dictionary stored in [results[url]]. *)
Record PageRecord := mkPage {
  p_url : str; p_content : str; p_html : str; p_depth : Z; p_title : str }.

(** A cache entry, read with [cached.get("content")] and
    [cached.get("html")]. *)
Record cached_entry := mkCached {
  c_content : option str; c_html : option str }.

(** What [self.session.get(url)] brings: an exception (connection or
    timeout error), or a response with its status and its text ([None]
    when reading the text raises). *)
Inductive http_response :=
| ConnectionError
| Response (status : Z) (text : option str).

(** A call [crawl_recursive(url, depth, domain)]. *)
Record task := mkTask { t_url : str; t_depth : Z }.

(** The crawler while [crawl_documentation] runs.  [created] holds the
    coroutines handed to the event loop that have not run yet, [waiting]
    those blocked on the semaphore (first come, first served),
    [in_flight] those inside [fetch_page] with a permit.  [raised] is set
    when an exception leaves [crawl_recursive].  [fetched] is the log of
    the URLs passed to [fetch_page], the latest first. *)
Record state := mkState {
  visited_urls : gset str;
  results : gmap str PageRecord;
  created : list task;
  waiting : list task;
  in_flight : list task;
  permits : nat;
  raised : bool;
  fetched : list str }.

(** The coroutines that passed the guard and have not finished. *)
Definition pending (s : state) : list task := waiting s ++ in_flight s.

(** The two suspension points of [crawl_recursive]: a coroutine runs from
    its first line up to the [await] of the fetch, and from the answer of
    the fetch to its end. *)
Inductive event :=
| Start (i : nat)
| Finish (i : nat).

(** [bool(x)] for an optional string. *)
Definition truthy (x : option str) : bool :=
  match x with
  | Some (_ :: _) => true
  | _ => false
  end.

Section Crawl.

(** The host validations of [urlsplit] and [urljoin] (see [Utils]). *)
Variable check_bracketed_netloc : str -> bool.
Variable checknetloc_nfkc : str -> bool.
Variable urljoin : str -> str -> option str.

(** [config.CACHE_ENABLED], and [self.cache.get(cache_key)] for the key
    of a URL ([None] when there is no entry or the cache fails).  Every
    URL is fetched once in a run, so the entries written by
    [self.cache.set] are never read back and the cache is read-only
    here. *)
Variable CACHE_ENABLED : bool.
Variable cache_get : str -> option cached_entry.

(** The network. *)
Variable http_get : str -> http_response.

(** [BeautifulSoup(html, "lxml")] followed by
    [extract_meaningful_content], by [find_all("a", href=True)] (the
    [href] values in document order) and by [extract_title]; [None] when
    the parser raises. *)
Variable extract_meaningful_content : str -> option str.
Variable find_all_a_href : str -> option (list str).
Variable extract_title : str -> str.

(** [list(set(links))]: the distinct links in the iteration order of the
    set. *)
Variable set_order : list str -> list str.

Definition normalize (url : str) : str :=
  normalize_url check_bracketed_netloc checknetloc_nfkc urljoin url None.

(** [fetch_page(url)], the semaphore apart: every exception gives
    [(None, None)]. *)
Definition fetch_from_network (url : str) : option str * option str :=
  match http_get url with
  | ConnectionError => (None, None)
  | Response status text =>
      if negb (status =? 200)%Z then (None, None)
      else
        match text with
        | None => (None, None)
        | Some html =>
            match extract_meaningful_content html with
            | None => (None, None)
            | Some content => (Some content, Some html)
            end
        end
  end.

Definition fetch_page (url : str) : option str * option str :=
  match cache_get url with
  | Some cached =>
      if CACHE_ENABLED then (c_content cached, c_html cached)
      else fetch_from_network url
  | None => fetch_from_network url
  end.

(** The test [if content and html] on the answer of the fetch of [url]. *)
Definition fetch_ok (url : str) : bool :=
  truthy (fst (fetch_page url)) && truthy (snd (fetch_page url)).

(** [is_internal_link(url, base_domain)]. *)
Definition is_internal_link (url base_domain : str) : bool :=
  match urlparse check_bracketed_netloc checknetloc_nfkc url with
  | Some parsed =>
      str_eqb (netloc parsed) base_domain || is_empty (netloc parsed)
  | None => false
  end.

(** The loop of [extract_links] over the [href] values; [None] when
    [urljoin] raises. *)
Fixpoint collect_links (url base_domain : str) (hrefs : list str)
    : option (list str) :=
  match hrefs with
  | [] => Some []
  | href :: rest =>
      if startswith (lit "#") href || startswith (lit "javascript:") href
      then collect_links url base_domain rest
      else
        match urljoin url href with
        | None => None
        | Some absolute_url =>
            let normalized_url := normalize absolute_url in
            match collect_links url base_domain rest with
            | None => None
            | Some links =>
                if is_internal_link normalized_url base_domain
                then Some (normalized_url :: links)
                else Some links
            end
        end
  end.

(** [extract_links(url, html, base_domain)]; [None] when it raises. *)
Definition extract_links (url html base_domain : str) : option (list str) :=
  match find_all_a_href html with
  | None => None
  | Some hrefs =>
      match collect_links url base_domain hrefs with
      | None => None
      | Some links => Some (set_order links)
      end
  end.

(** ** [crawl_documentation] *)

Variable start_url : str.
Variable max_depth : Z.
Variable max_pages : Z.

Definition base_domain : str :=
  extract_domain check_bracketed_netloc checknetloc_nfkc start_url.

(** The guard at the head of [crawl_recursive]. *)
Definition stops (s : state) (t : task) : bool :=
  (max_depth <? t_depth t)%Z
  || (max_pages <=? Z.of_nat (size (results s)))%Z
  || bool_decide (t_url t ∈ visited_urls s).

(** The list comprehension that builds the child calls. *)
Definition child_tasks (s_visited : gset str) (links : list str) (depth : Z)
    : list task :=
  map (fun link => mkTask link (depth + 1))
      (List.filter (fun link => negb (bool_decide (link ∈ s_visited)))
                   (firstn 10 links)).

(** A coroutine runs its first part: the guard, [visited_urls.add(url)],
    and the entry into [fetch_page], where it takes a permit of the
    semaphore or queues for one.  A fetch counts as in flight from the
    moment a permit is assigned to it.  [asyncio.Semaphore] can make a
    coroutine queue although a permit is free, behind a waiter that has
    been woken and has not run yet; this changes the time at which a
    permit is taken, not the number of permits held nor the pages,
    visited URLs and calls of a run. *)
Definition start_task (s : state) (i : nat) : option state :=
  match created s !! i with
  | None => None
  | Some t =>
      let rest := delete i (created s) in
      if stops s t then
        Some (mkState (visited_urls s) (results s) rest (waiting s)
                      (in_flight s) (permits s) (raised s) (fetched s))
      else
        let visited := {[t_url t]} ∪ visited_urls s in
        let log := t_url t :: fetched s in
        match permits s with
        | S p =>
            Some (mkState visited (results s) rest (waiting s)
                          (in_flight s ++ [t]) p (raised s) log)
        | O =>
            Some (mkState visited (results s) rest (waiting s ++ [t])
                          (in_flight s) O (raised s) log)
        end
  end.

(** The fetch of a coroutine answers: the permit goes back (to the first
    coroutine in the queue, if any), a page is recorded when content and
    markup are both non-empty, and below the depth limit the child calls
    are handed to [asyncio.gather]. *)
Definition finish_task (s : state) (i : nat) : option state :=
  match in_flight s !! i with
  | None => None
  | Some t =>
      let flying := delete i (in_flight s) in
      let '(queue, flying, free) :=
        match waiting s with
        | w :: ws => (ws, flying ++ [w], permits s)
        | [] => ([], flying, S (permits s))
        end in
      let url := t_url t in
      let depth := t_depth t in
      let '(content, html) := fetch_page url in
      if truthy content && truthy html then
        let content := default [] content in
        let html := default [] html in
        let results :=
          <[url := mkPage url content html depth (extract_title html)]>
            (results s) in
        if (depth <? max_depth)%Z then
          match extract_links url html base_domain with
          | Some links =>
              Some (mkState (visited_urls s) results
                            (created s
                               ++ child_tasks (visited_urls s) links depth)
                            queue flying free (raised s) (fetched s))
          | None =>
              Some (mkState (visited_urls s) results (created s) queue
                            flying free true (fetched s))
          end
        else
          Some (mkState (visited_urls s) results (created s) queue flying
                        free (raised s) (fetched s))
      else
        Some (mkState (visited_urls s) (results s) (created s) queue flying
                      free (raised s) (fetched s))
  end.

(** One step of the event loop; nothing runs once an exception has left
    the crawl. *)
Definition exec (e : event) (s : state) : option state :=
  if raised s then None
  else
    match e with
    | Start i => start_task s i
    | Finish i => finish_task s i
    end.

Fixpoint run (schedule : list event) (s : state) : option state :=
  match schedule with
  | [] => Some s
  | e :: rest =>
      match exec e s with
      | Some s' => run rest s'
      | None => None
      end
  end.

(** [crawl_documentation(start_url, max_depth, max_pages)] begins with an
    empty result dictionary, the call for the start URL at depth 0, and
    the five permits of [asyncio.Semaphore(5)]; [visited] is
    [self.visited_urls] as the crawler object holds it. *)
Definition init (visited : gset str) : state :=
  mkState visited ∅ [mkTask start_url 0] [] [] 5 false [].

(** The run is over and [results] is returned. *)
Definition returned (s : state) : bool :=
  negb (raised s)
  && match created s, waiting s, in_flight s with
     | [], [], [] => true
     | _, _, _ => false
     end.

End Crawl.

End Crawler.

(** ** app.py *)

Module App.
Import PyStr.

(** [url.startswith(('http://', 'https://'))]. *)
Definition has_protocol (url : str) : bool :=
  startswith (lit "http://") url || startswith (lit "https://") url.

(** [validate_urls(urls)]; the warning shown for a skipped URL is not
    modelled. *)
Definition validate_urls (urls : list str) : list str :=
  flat_map
    (fun url =>
       let url := strip url in
       if is_empty url then []
       else
         let url :=
           if negb (has_protocol url) then lit "https://" ++ url else url in
         if has_protocol url then [url] else [])
    urls.

End App.


(* ===================================================================== *)
(** * Part II.  Properties                                              *)
(* ===================================================================== *)

(** ** Python strings *)

Module PyStrFacts.
Import PyStr.

Lemma mem_app c a b : mem c (a ++ b) = mem c a || mem c b.
Proof. unfold mem. apply existsb_app. Qed.

Lemma mem_false_Forall c s :
  mem c s = false <-> Forall (fun x => Ascii.eqb x c = false) s.
Proof.
  induction s as [|x t IH]; simpl.
  - split; intros; [constructor | reflexivity].
  - rewrite orb_false_iff, IH, Ascii.eqb_sym. split.
    + intros [Hx Ht]. constructor; assumption.
    + intros H. inversion H; subst. split; assumption.
Qed.

Lemma find_None c s : find c s = None <-> mem c s = false.
Proof.
  induction s as [|x t IH]; simpl; [tauto|].
  rewrite (Ascii.eqb_sym c x).
  destruct (Ascii.eqb x c); simpl; [split; discriminate|].
  destruct (find c t); simpl.
  - split; [discriminate|]. intros H. apply IH in H. discriminate.
  - tauto.
Qed.

(** [find] splits the string at the first occurrence. *)
Lemma find_Some c s i :
  find c s = Some i ->
  s = firstn i s ++ c :: skipn (S i) s /\ mem c (firstn i s) = false.
Proof.
  revert i. induction s as [|x t IH]; simpl; intros i H; [discriminate|].
  destruct (Ascii.eqb x c) eqn:E.
  - injection H as <-. apply Ascii.eqb_eq in E. subst. split; reflexivity.
  - destruct (find c t) as [j|]; simpl in H; [|discriminate].
    injection H as <-. destruct (IH j eq_refl) as [H1 H2].
    simpl. rewrite (Ascii.eqb_sym c x), E. simpl. split; [|exact H2].
    f_equal. exact H1.
Qed.

Lemma find_app c a b :
  mem c a = false -> find c (a ++ c :: b) = Some (length a).
Proof.
  induction a as [|x t IH]; simpl; intros H.
  - rewrite Ascii.eqb_refl. reflexivity.
  - apply orb_false_iff in H as [Hx Ht].
    rewrite (Ascii.eqb_sym x c), Hx, (IH Ht). reflexivity.
Qed.

Lemma mem_firstn_le c s i k :
  mem c (firstn i s) = false -> k <= i -> mem c (firstn k s) = false.
Proof.
  intros H Hk.
  rewrite <- (firstn_skipn k (firstn i s)), mem_app in H.
  apply orb_false_iff in H as [H _].
  rewrite firstn_firstn, Nat.min_l in H by lia. exact H.
Qed.

Lemma lstrip_id p x t : p x = false -> lstrip p (x :: t) = x :: t.
Proof. intros H. simpl. rewrite H. reflexivity. Qed.

Lemma filter_id {A} (p : A -> bool) l :
  Forall (fun x => p x = true) l -> List.filter p l = l.
Proof.
  induction 1 as [|x t Hx Ht IH]; simpl; [reflexivity|].
  rewrite Hx, IH. reflexivity.
Qed.

(** ** [rstrip] *)

Lemma rstrip_nil_iff p s :
  rstrip p s = [] <-> Forall (fun c => p c = true) s.
Proof.
  induction s as [|x t IH]; simpl.
  - split; intros; [constructor | reflexivity].
  - destruct (rstrip p t) eqn:E.
    + destruct (p x) eqn:Ex.
      * split; intros; [constructor; tauto | reflexivity].
      * split; [discriminate|]. intros H. inversion H; congruence.
    + split; [discriminate|]. intros H. inversion H; subst.
      apply IH in H3. discriminate.
Qed.

Lemma rstrip_app p a b :
  rstrip p (a ++ b) =
  match rstrip p b with [] => rstrip p a | _ => a ++ rstrip p b end.
Proof.
  induction a as [|x t IH]; simpl.
  - destruct (rstrip p b); reflexivity.
  - rewrite IH. destruct (rstrip p b) eqn:E; [reflexivity|].
    destruct t; reflexivity.
Qed.

Lemma rstrip_idem p s : rstrip p (rstrip p s) = rstrip p s.
Proof.
  induction s as [|x t IH]; simpl; [reflexivity|].
  destruct (rstrip p t) eqn:E.
  - destruct (p x) eqn:Ex; simpl; [reflexivity|]. rewrite Ex. reflexivity.
  - simpl in *. rewrite IH. reflexivity.
Qed.

Lemma rstrip_prefix p s : exists t, s = rstrip p s ++ t.
Proof.
  induction s as [|x t [r IH]]; simpl.
  - exists []. reflexivity.
  - destruct (rstrip p t) eqn:E.
    + destruct (p x).
      * exists (x :: t). reflexivity.
      * exists t. reflexivity.
    + exists r. simpl. f_equal. exact IH.
Qed.

Lemma rstrip_Forall (P : ascii -> Prop) p s :
  Forall P s -> Forall P (rstrip p s).
Proof.
  intros H. destruct (rstrip_prefix p s) as [t Ht].
  rewrite Ht in H. apply Forall_app in H. tauto.
Qed.

Lemma str_eqb_refl s : str_eqb s s = true.
Proof.
  induction s as [|x t IH]; simpl; [reflexivity|].
  rewrite Ascii.eqb_refl. exact IH.
Qed.

Lemma str_eqb_eq a b : str_eqb a b = true <-> a = b.
Proof.
  revert b. induction a as [|x t IH]; intros [|y b']; simpl;
    try (split; [discriminate | congruence]); [tauto|].
  rewrite andb_true_iff, Ascii.eqb_eq, IH. split.
  - intros [-> ->]. reflexivity.
  - intros H. injection H. tauto.
Qed.

Lemma existsb_str_eqb_In x l : existsb (str_eqb x) l = true <-> In x l.
Proof.
  rewrite existsb_exists. split.
  - intros (y & Hy & E). apply str_eqb_eq in E. subst. exact Hy.
  - intros H. exists x. split; [exact H | apply str_eqb_refl].
Qed.

(** ** [dict.fromkeys] *)

Lemma dedup_aux_In seen l x :
  In x (dedup_aux seen l) <-> In x l /\ ~ In x seen.
Proof.
  revert seen. induction l as [|y t IH]; intros seen; cbn [dedup_aux In].
  - tauto.
  - destruct (existsb (str_eqb y) seen) eqn:E.
    + apply existsb_str_eqb_In in E. rewrite IH. split.
      * tauto.
      * intros [[<-|H] Hn]; [contradiction | tauto].
    + assert (Hy : ~ In y seen).
      { intros H. apply existsb_str_eqb_In in H. congruence. }
      cbn [In]. rewrite IH. cbn [In]. split.
      * intros [<-|[H Hn]]; [tauto|]. split; [tauto|]. intros H'. apply Hn. tauto.
      * intros [[<-|H] Hn]; [tauto|].
        destruct (str_eqb y x) eqn:Eyx.
        -- apply str_eqb_eq in Eyx. tauto.
        -- right. split; [exact H|]. intros [H'|H']; [|contradiction].
           subst. rewrite str_eqb_refl in Eyx. discriminate.
Qed.

Lemma dedup_aux_NoDup seen l : List.NoDup (dedup_aux seen l).
Proof.
  revert seen. induction l as [|y t IH]; intros seen; cbn [dedup_aux].
  - constructor.
  - destruct (existsb (str_eqb y) seen); [apply IH|].
    constructor; [|apply IH]. rewrite dedup_aux_In. cbn [In]. tauto.
Qed.

Lemma dict_fromkeys_In l x : In x (dict_fromkeys l) <-> In x l.
Proof. unfold dict_fromkeys. rewrite dedup_aux_In. cbn. tauto. Qed.

Lemma dict_fromkeys_NoDup l : List.NoDup (dict_fromkeys l).
Proof. apply dedup_aux_NoDup. Qed.

End PyStrFacts.

(** ** utils.py *)

Module UtilsFacts.
Import PyStr PyStrFacts Utils.

(** What [urlsplit] accepts as a scheme, once lower-cased. *)
Definition valid_scheme (sch : str) : Prop :=
  match sch with
  | [] => False
  | c0 :: _ => isascii c0 && isalpha c0 = true
  end
  /\ forallb (fun c => mem c scheme_chars) sch = true
  /\ lower sch = sch.

(** The loop of [_splitnetloc] over the delimiters [cs], from the bound
    [init]. *)
Definition min_delim (url : str) (start : nat) (cs : str) (init : nat) : nat :=
  fold_left
    (fun delim c =>
       match find_from c start url with
       | Some wdelim => Nat.min delim wdelim
       | None => delim
       end) cs init.

(** Characters that survive in the host and path of a split URL: not a
    query or fragment mark, and not one of the removed bytes. *)
Definition plain (c : ascii) : bool :=
  negb (mem c ["?"; "#"; "009"; "013"; "010"]%char).

(** The scheme that [urlsplit] reads off [url]. *)
Definition url_scheme (url : str) : str :=
  fst (split_scheme
         (List.filter (fun c => negb (UNSAFE_URL_BYTE c))
                      (lstrip C0_CONTROL_OR_SPACE url))).

(** A host on which the validations of [urlsplit] pass, and a [urljoin]
    that is not called when no base URL is given. *)
Definition host_checks_pass : str -> bool := fun _ => true.
Definition urljoin_unused : str -> str -> option str := fun _ _ => None.

(** [normalize_url(u)] without a base URL. *)
Definition canon (u : str) : str :=
  normalize_url host_checks_pass host_checks_pass urljoin_unused u None.

(** ** Characters *)

Ltac by_cases_on_char c :=
  destruct c as [[] [] [] [] [] [] [] []]; vm_compute; try reflexivity;
  try congruence; try discriminate; auto.

Lemma lower_char_idem c : lower_char (lower_char c) = lower_char c.
Proof. by_cases_on_char c. Qed.

Lemma lower_idem s : lower (lower s) = lower s.
Proof.
  unfold lower. rewrite map_map. apply map_ext. apply lower_char_idem.
Qed.

Lemma scheme_char_lower c :
  mem c scheme_chars = true -> mem (lower_char c) scheme_chars = true.
Proof. by_cases_on_char c. Qed.

Lemma scheme_char_not_colon c :
  mem c scheme_chars = true -> Ascii.eqb c ":" = false.
Proof. by_cases_on_char c. Qed.

Lemma scheme_char_safe c :
  mem c scheme_chars = true -> UNSAFE_URL_BYTE c = false.
Proof. by_cases_on_char c. Qed.

Lemma alpha_lower c :
  isascii c && isalpha c = true ->
  isascii (lower_char c) && isalpha (lower_char c) = true.
Proof. by_cases_on_char c. Qed.

Lemma alpha_not_C0 c :
  isascii c && isalpha c = true -> C0_CONTROL_OR_SPACE c = false.
Proof. by_cases_on_char c. Qed.

(** ** The scheme step *)

Lemma forallb_scheme_lower s :
  forallb (fun c => mem c scheme_chars) s = true ->
  forallb (fun c => mem c scheme_chars) (lower s) = true.
Proof.
  induction s as [|x t IH]; simpl; [reflexivity|].
  rewrite !andb_true_iff. intros [Hx Ht]. split.
  - apply scheme_char_lower, Hx.
  - apply IH, Ht.
Qed.

Lemma scheme_no_colon s :
  forallb (fun c => mem c scheme_chars) s = true -> mem ":" s = false.
Proof.
  intros H. apply mem_false_Forall.
  induction s as [|x t IH]; [constructor|].
  cbn [forallb] in H. apply andb_true_iff in H as [Hx Ht].
  constructor; [apply scheme_char_not_colon, Hx | apply IH, Ht].
Qed.

Lemma scheme_safe s :
  forallb (fun c => mem c scheme_chars) s = true ->
  Forall (fun c => negb (UNSAFE_URL_BYTE c) = true) s.
Proof.
  induction s as [|x t IH]; simpl; [constructor|].
  rewrite andb_true_iff. intros [Hx Ht]. constructor.
  - rewrite (scheme_char_safe _ Hx). reflexivity.
  - apply IH, Ht.
Qed.

Lemma split_scheme_found url sch rest :
  split_scheme url = (sch, rest) -> sch <> [] ->
  valid_scheme sch /\ exists pre, url = pre ++ ":"%char :: rest.
Proof.
  unfold split_scheme. destruct (find ":" url) as [[|j]|] eqn:Hf;
    try (intros [= <- <-] H; congruence).
  destruct url as [|c0 t]; [discriminate|].
  destruct (isascii c0 && isalpha c0
            && forallb (fun c => mem c scheme_chars)
                       (firstn (S j) (c0 :: t))) eqn:Hc;
    [|intros [= <- <-] H; congruence].
  intros [= <- <-] _.
  apply andb_true_iff in Hc as [Ha Hs].
  split; [split; [|split]|].
  - simpl. apply alpha_lower, Ha.
  - apply (forallb_scheme_lower (firstn (S j) (c0 :: t))), Hs.
  - apply (lower_idem (firstn (S j) (c0 :: t))).
  - exists (firstn (S j) (c0 :: t)). apply (find_Some _ _ _ Hf).
Qed.

Lemma split_scheme_rebuilt sch rest :
  valid_scheme sch -> split_scheme (sch ++ ":"%char :: rest) = (sch, rest).
Proof.
  intros (H0 & Hs & Hl). unfold split_scheme.
  rewrite (find_app _ _ _ (scheme_no_colon _ Hs)).
  destruct sch as [|c0 t]; [contradiction|].
  cbn [length app]. rewrite H0. cbn [andb].
  change (c0 :: t ++ ":"%char :: rest) with ((c0 :: t) ++ ":"%char :: rest).
  replace (firstn (S (length t)) ((c0 :: t) ++ ":"%char :: rest)) with (c0 :: t).
  2:{ change (S (length t)) with (length (c0 :: t)).
      rewrite firstn_app, Nat.sub_diag, firstn_all. simpl.
      rewrite app_nil_r. reflexivity. }
  rewrite Hs, Hl. f_equal.
  cbn [skipn app]. rewrite skipn_app.
  replace (S (length t) - length t) with 1 by lia.
  rewrite skipn_all2 by lia. reflexivity.
Qed.

(** ** [_splitnetloc] *)

Lemma min_delim_le url start cs init :
  min_delim url start cs init <= init
  /\ forall c w, In c cs -> find_from c start url = Some w ->
                 min_delim url start cs init <= w.
Proof.
  revert init. induction cs as [|c cs IH]; intros init; simpl.
  - split; [lia|]. intros ? ? [].
  - unfold min_delim in *. simpl.
    destruct (find_from c start url) as [w0|] eqn:E.
    + destruct (IH (Nat.min init w0)) as [H1 H2]. split; [lia|].
      intros c' w [<-|Hin] Hw.
      * rewrite E in Hw. injection Hw as <-. lia.
      * apply (H2 c' w Hin Hw).
    + destruct (IH init) as [H1 H2]. split; [lia|].
      intros c' w [<-|Hin] Hw; [congruence|]. apply (H2 c' w Hin Hw).
Qed.

Lemma min_delim_ge url start cs init :
  start <= init -> start <= min_delim url start cs init.
Proof.
  revert init. induction cs as [|c cs IH]; intros init Hi; simpl; [exact Hi|].
  unfold min_delim in *. simpl.
  destruct (find_from c start url) as [w|] eqn:E; [|apply IH, Hi].
  apply IH. unfold find_from in E.
  destruct (find c (skipn start url)); [|discriminate].
  injection E as <-. lia.
Qed.

Lemma splitnetloc_spec url start nl rest :
  splitnetloc url start = (nl, rest) -> start <= length url ->
  nl ++ rest = skipn start url
  /\ forall c, In c (lit "/?#") -> mem c nl = false.
Proof.
  unfold splitnetloc. fold (min_delim url start (lit "/?#") (length url)).
  set (d := min_delim url start (lit "/?#") (length url)).
  intros [= <- <-] Hlen.
  destruct (min_delim_le url start (lit "/?#") (length url)) as [Hd Hw].
  pose proof (min_delim_ge url start (lit "/?#") (length url) Hlen) as Hs.
  fold d in Hd, Hw, Hs. split.
  - rewrite <- (firstn_skipn d url) at 3. rewrite skipn_app.
    rewrite length_firstn, Nat.min_l by lia.
    replace (start - d) with 0 by lia. reflexivity.
  - intros c Hc. rewrite skipn_firstn_comm.
    destruct (find c (skipn start url)) as [i|] eqn:E.
    + assert (Hfw : find_from c start url = Some (start + i))
        by (unfold find_from; rewrite E; reflexivity).
      specialize (Hw c _ Hc Hfw).
      apply (mem_firstn_le c _ i); [|lia].
      apply (find_Some _ _ _ E).
    + apply find_None in E.
      rewrite <- (firstn_skipn (d - start) (skipn start url)), mem_app in E.
      apply orb_false_iff in E. tauto.
Qed.

(** ** [urlsplit] and [urlparse] *)

Lemma plain_safe c : plain c = true -> negb (UNSAFE_URL_BYTE c) = true.
Proof. by_cases_on_char c. Qed.

Lemma plain_intro c :
  negb (UNSAFE_URL_BYTE c) = true ->
  Ascii.eqb c "?" = false -> Ascii.eqb c "#" = false -> plain c = true.
Proof. by_cases_on_char c. Qed.

Lemma plain_not_mark c : plain c = true ->
  Ascii.eqb c "?" = false /\ Ascii.eqb c "#" = false.
Proof. by_cases_on_char c. Qed.

Lemma filter_Forall {A} (p : A -> bool) l :
  Forall (fun x => p x = true) (List.filter p l).
Proof.
  induction l as [|x t IH]; simpl; [constructor|].
  destruct (p x) eqn:E; [constructor|]; assumption.
Qed.

Lemma Forall_suffix {A} (P : A -> Prop) a b : Forall P (a ++ b) -> Forall P b.
Proof. intros H. apply Forall_app in H. tauto. Qed.

Lemma Forall_prefix {A} (P : A -> Prop) a b : Forall P (a ++ b) -> Forall P a.
Proof. intros H. apply Forall_app in H. tauto. Qed.

(** [url.split(c, 1)] guarded by [c in url]: the kept part is a prefix
    without [c]. *)
Lemma cut_spec c url a b :
  (if mem c url then split_once c url else (url, [])) = (a, b) ->
  mem c a = false /\ exists t, url = a ++ t.
Proof.
  destruct (mem c url) eqn:Hm.
  - unfold split_once. destruct (find c url) as [i|] eqn:Hf.
    + intros [= <- <-]. destruct (find_Some _ _ _ Hf) as [H1 H2].
      split; [exact H2|]. eexists. exact H1.
    + apply find_None in Hf. congruence.
  - intros [= <- <-]. split; [exact Hm|]. exists []. symmetry. apply app_nil_r.
Qed.

Lemma cut_id c url :
  mem c url = false ->
  (if mem c url then split_once c url else (url, [])) = (url, []).
Proof. intros ->. reflexivity. Qed.

Lemma splitparams_prefix url a b :
  splitparams url = (a, b) -> exists t, url = a ++ t.
Proof.
  unfold splitparams. destruct (mem "/" url).
  - destruct (rfind "/" url) as [k|].
    + destruct (find_from ";" k url) as [i|].
      * intros [= <- <-]. eexists. symmetry. apply firstn_skipn.
      * intros [= <- <-]. exists []. symmetry. apply app_nil_r.
    + intros [= <- <-]. exists []. symmetry. apply app_nil_r.
  - destruct (find ";" url) as [i|].
    + intros [= <- <-]. eexists. symmetry. apply firstn_skipn.
    + intros [= <- <-]. destruct url as [|x t] using rev_ind.
      * exists []. reflexivity.
      * rewrite removelast_last. eexists. reflexivity.
Qed.

Section UrlParseFacts.

Variable check_bracketed_netloc : str -> bool.
Variable checknetloc_nfkc : str -> bool.

Abbreviation urlsplit := (urlsplit check_bracketed_netloc checknetloc_nfkc).
Abbreviation urlparse := (urlparse check_bracketed_netloc checknetloc_nfkc).

(** The parts of a URL that was split: a scheme, when there is one, is
    lower-case and well formed, and host and path hold only plain
    characters. *)
Lemma urlsplit_parts u r :
  urlsplit u = Some r ->
  s_scheme r = url_scheme u
  /\ (s_scheme r <> [] -> valid_scheme (s_scheme r))
  /\ Forall (fun c => plain c = true) (s_netloc r ++ s_path r).
Proof.
  unfold Utils.urlsplit, url_scheme.
  set (u0 := List.filter _ (lstrip _ u)).
  assert (Hsafe : Forall (fun c => negb (UNSAFE_URL_BYTE c) = true) u0)
    by apply filter_Forall.
  destruct (split_scheme u0) as [sch r1] eqn:Hss. cbn [fst].
  assert (Hr1 : Forall (fun c => negb (UNSAFE_URL_BYTE c) = true) r1).
  { unfold split_scheme in Hss.
    destruct (find ":" u0) as [[|j]|]; try (injection Hss as <- <-; exact Hsafe).
    destruct u0 as [|c0 t]; [injection Hss as <- <-; exact Hsafe|].
    destruct (_ && _); injection Hss as <- <-; [|exact Hsafe].
    rewrite <- (firstn_skipn (S (S j)) (c0 :: t)) in Hsafe.
    apply (Forall_suffix _ _ _ Hsafe). }
  intros H.
  assert (exists nl r2,
    (Forall (fun c => plain c = true) nl
     /\ Forall (fun c => negb (UNSAFE_URL_BYTE c) = true) r2)
    /\ (let '(url, fragment) :=
          if mem "#" r2 then split_once "#" r2 else (r2, []) in
        let '(url, query) :=
          if mem "?" url then split_once "?" url else (url, []) in
        if checknetloc checknetloc_nfkc nl
        then Some (mkSplit sch nl url query fragment) else None) = Some r)
    as (nl & r2 & [Hnl Hr2] & Hfin).
  { destruct (str_eqb (firstn 2 r1) (lit "//")) eqn:Hsl.
    - destruct (splitnetloc r1 2) as [nl r2] eqn:Hsn.
      assert (Hlen : 2 <= length r1).
      { apply str_eqb_eq in Hsl. destruct r1 as [|? [|? ?]]; simpl in *;
          try discriminate; lia. }
      destruct (splitnetloc_spec _ _ _ _ Hsn Hlen) as [Happ Hno].
      assert (Hsk : Forall (fun c => negb (UNSAFE_URL_BYTE c) = true)
                           (nl ++ r2)).
      { rewrite Happ. rewrite <- (firstn_skipn 2 r1) in Hr1.
        apply (Forall_suffix _ _ _ Hr1). }
      exists nl, r2. split; [split|].
      + apply Forall_forall. intros c Hc.
        apply plain_intro.
        * apply Forall_prefix in Hsk.
          apply (proj1 (Forall_forall _ _) Hsk c Hc).
        * assert (Hq := Hno "?"%char). cbn in Hq.
          specialize (Hq (or_intror (or_introl eq_refl))).
          apply mem_false_Forall in Hq.
          apply (proj1 (Forall_forall _ _) Hq c Hc).
        * assert (Hq := Hno "#"%char). cbn in Hq.
          specialize (Hq (or_intror (or_intror (or_introl eq_refl)))).
          apply mem_false_Forall in Hq.
          apply (proj1 (Forall_forall _ _) Hq c Hc).
      + apply (Forall_suffix _ _ _ Hsk).
      + destruct (_ || _); [discriminate|].
        destruct (_ && negb _); [discriminate|].
        exact H.
    - exists [], r1. split; [split; [constructor | exact Hr1]|].
      exact H. }
  clear H.
  destruct (if mem "#" r2 then _ else _) as [r3 frag] eqn:H3.
  destruct (if mem "?" r3 then _ else _) as [r4 qry] eqn:H4.
  destruct (checknetloc checknetloc_nfkc nl); [|discriminate].
  injection Hfin as <-. cbn [s_scheme s_netloc s_path].
  split; [reflexivity|]. split.
  - intros Hne. apply (split_scheme_found _ _ _ Hss Hne).
  - apply Forall_app. split; [exact Hnl|].
    destruct (cut_spec _ _ _ _ H3) as [H3a [t3 H3b]].
    destruct (cut_spec _ _ _ _ H4) as [H4a [t4 H4b]].
    subst r2 r3. rewrite mem_app in H3a. apply orb_false_iff in H3a as [H3a _].
    apply Forall_prefix in Hr2. apply Forall_prefix in Hr2.
    apply mem_false_Forall in H3a, H4a.
    apply Forall_forall. intros c Hc. apply plain_intro.
    + apply (proj1 (Forall_forall _ _) Hr2 c Hc).
    + apply (proj1 (Forall_forall _ _) H4a c Hc).
    + apply (proj1 (Forall_forall _ _) H3a c Hc).
Qed.

(** Splitting a string that was put together from a scheme and plain
    text gives the scheme back, and host and path make up the text. *)
Lemma urlsplit_rebuilt sch w :
  valid_scheme sch -> Forall (fun c => plain c = true) w ->
  match urlsplit (sch ++ lit "://" ++ w) with
  | None => True
  | Some r =>
      s_scheme r = sch /\ s_netloc r ++ s_path r = w
      /\ s_query r = [] /\ s_fragment r = []
  end.
Proof.
  intros Hv Hw. unfold Utils.urlsplit.
  assert (H0 : lstrip C0_CONTROL_OR_SPACE (sch ++ lit "://" ++ w)
               = sch ++ lit "://" ++ w).
  { destruct Hv as (Hc & _). destruct sch as [|c0 t]; [contradiction|].
    apply lstrip_id, alpha_not_C0, Hc. }
  rewrite H0. rewrite filter_id.
  2:{ apply Forall_app. split; [apply scheme_safe, Hv|].
      apply Forall_app. split.
      - repeat constructor.
      - apply Forall_forall. intros c Hc. apply plain_safe.
        apply (proj1 (Forall_forall _ _) Hw c Hc). }
  change (sch ++ lit "://" ++ w) with (sch ++ ":"%char :: lit "//" ++ w).
  rewrite (split_scheme_rebuilt _ _ Hv).
  change (str_eqb (firstn 2 (lit "//" ++ w)) (lit "//")) with true.
  cbv iota.
  destruct (splitnetloc (lit "//" ++ w) 2) as [nl r2] eqn:Hsn.
  destruct (splitnetloc_spec _ _ _ _ Hsn) as [Happ _]; [simpl; lia|].
  change (skipn 2 (lit "//" ++ w)) with w in Happ.
  destruct (_ || _); [exact I|].
  destruct (_ && negb _); [exact I|].
  assert (Hr2 : Forall (fun c => plain c = true) r2)
    by (rewrite <- Happ in Hw; apply (Forall_suffix _ _ _ Hw)).
  assert (Hh : mem "#" r2 = false /\ mem "?" r2 = false).
  { split; apply mem_false_Forall; apply Forall_forall; intros c Hc;
      apply plain_not_mark; apply (proj1 (Forall_forall _ _) Hr2 c Hc). }
  destruct Hh as [Hh Hq]. rewrite Hh, Hq.
  destruct (checknetloc checknetloc_nfkc nl); [|exact I].
  cbn. auto.
Qed.

Lemma urlsplit_scheme_only sch :
  valid_scheme sch ->
  urlsplit (sch ++ [":"%char]) = Some (mkSplit sch [] [] [] []).
Proof.
  intros Hv. unfold Utils.urlsplit.
  assert (H0 : lstrip C0_CONTROL_OR_SPACE (sch ++ [":"%char])
               = sch ++ [":"%char]).
  { destruct Hv as (Hc & _). destruct sch as [|c0 t]; [contradiction|].
    apply lstrip_id, alpha_not_C0, Hc. }
  rewrite H0. rewrite filter_id.
  2:{ apply Forall_app. split; [apply scheme_safe, Hv|]. repeat constructor. }
  rewrite (split_scheme_rebuilt _ _ Hv). reflexivity.
Qed.

(** The path that [urlparse] keeps is a prefix of the one [urlsplit] found. *)
Lemma urlparse_parts u r :
  urlparse u = Some r ->
  exists r0 t, urlsplit u = Some r0 /\ scheme r = s_scheme r0
               /\ netloc r = s_netloc r0 /\ s_path r0 = path r ++ t.
Proof.
  unfold Utils.urlparse. destruct (urlsplit u) as [r0|]; [|discriminate].
  destruct (if _ && _ then _ else _) as [p1 prm] eqn:Hp.
  intros [= <-]. cbn.
  destruct (_ && _).
  - destruct (splitparams_prefix _ _ _ Hp) as [t Ht]. eauto 6.
  - injection Hp as <- <-. exists r0, []. rewrite app_nil_r. auto.
Qed.

Variable urljoin : str -> str -> option str.

Abbreviation normalize_url :=
  (normalize_url check_bracketed_netloc checknetloc_nfkc urljoin).

Lemma rstrip_scheme_colon sch w :
  rstrip is_slash (sch ++ lit "://" ++ w) =
  match rstrip is_slash w with
  | [] => sch ++ [":"%char]
  | w' => sch ++ lit "://" ++ w'
  end.
Proof.
  change (sch ++ lit "://" ++ w) with (sch ++ [":"%char] ++ lit "//" ++ w).
  rewrite app_assoc, rstrip_app, (rstrip_app _ (lit "//") w).
  destruct (rstrip is_slash w) as [|x t] eqn:E.
  - cbn [rstrip lit list_ascii_of_string is_slash Ascii.eqb].
    rewrite rstrip_app. reflexivity.
  - cbn [lit list_ascii_of_string app]. rewrite <- app_assoc. reflexivity.
Qed.

(** C10, as amended.  Canonicalising a canonical URL changes nothing when
    the URL has a scheme and its canonical form holds no [;]: for every
    string [u] that [urlsplit] reads with a non-empty scheme and whose
    [normalize_url(u)] contains no semicolon,
    [normalize_url(normalize_url(u)) = normalize_url(u)]. *)
Theorem normalize_url_idempotent_with_scheme (u : str) :
  url_scheme u <> [] ->
  mem ";" (normalize_url u None) = false ->
  normalize_url (normalize_url u None) None = normalize_url u None.
Proof.
  intros Hsch Hsemi.
  unfold Utils.normalize_url at 2 3. unfold Utils.normalize_url in Hsemi.
  destruct (urlparse u) as [r|] eqn:Hp.
  2:{ unfold Utils.normalize_url. rewrite Hp. reflexivity. }
  destruct (urlparse_parts _ _ Hp) as (r0 & t & Hs0 & Es & En & Ep).
  destruct (urlsplit_parts _ _ Hs0) as (Hsc & Hv & Hpl).
  rewrite <- Es in Hsc, Hv. rewrite <- En, Ep in Hpl.
  rewrite <- Hsc in Hsch. specialize (Hv Hsch).
  rewrite app_assoc in Hpl. apply Forall_prefix in Hpl.
  set (sch := scheme r) in *. set (w := netloc r ++ path r) in *.
  change (scheme r ++ lit "://" ++ netloc r ++ path r)
    with (sch ++ lit "://" ++ w) in *.
  rewrite rstrip_scheme_colon in *.
  destruct (rstrip is_slash w) as [|x w'] eqn:Ew.
  - (* host and path were all slashes: the canonical form is [scheme:] *)
    unfold Utils.normalize_url, Utils.urlparse.
    rewrite (urlsplit_scheme_only _ Hv).
    cbn [s_scheme s_netloc s_path mem existsb].
    rewrite andb_false_r. cbn [scheme netloc path app].
    rewrite (rstrip_scheme_colon sch []). reflexivity.
  - assert (Hw' : Forall (fun c => plain c = true) (x :: w'))
      by (rewrite <- Ew; apply rstrip_Forall, Hpl).
    pose proof (urlsplit_rebuilt sch (x :: w') Hv Hw') as Hre.
    unfold Utils.normalize_url, Utils.urlparse.
    destruct (urlsplit (sch ++ lit "://" ++ x :: w')) as [r'|]; [|reflexivity].
    destruct Hre as (E1 & E2 & _ & _).
    assert (Hno : mem ";" (s_path r') = false).
    { rewrite <- E2, !mem_app in Hsemi.
      repeat (apply orb_false_iff in Hsemi as [_ Hsemi]). exact Hsemi. }
    rewrite Hno, andb_false_r. cbn [scheme netloc path].
    rewrite E1, E2, rstrip_scheme_colon.
    rewrite <- Ew, rstrip_idem, Ew. reflexivity.
Qed.

End UrlParseFacts.

(** ** [normalize_url] on concrete URLs

    None of the URLs below has a bracketed or non-ASCII host, so the two
    host validations are never reached; [urljoin] is not called without a
    base URL. *)
(** C10 fails for a URL without a scheme: [normalize_url("foo")] is
    ["://foo"], and canonicalising that again gives ["://://foo"]. *)
Lemma normalize_url_not_idempotent_relative :
  canon (lit "foo") = lit "://foo"
  /\ canon (canon (lit "foo")) = lit "://://foo".
Proof. split; vm_compute; reflexivity. Qed.

(** It also fails with a scheme when stripping the slash uncovers
    parameters: ["http://h/a;b/"] gives ["http://h/a;b"], which gives
    ["http://h/a"]. *)
Lemma normalize_url_not_idempotent_params :
  canon (lit "http://h/a;b/") = lit "http://h/a;b"
  /\ canon (canon (lit "http://h/a;b/")) = lit "http://h/a".
Proof. split; vm_compute; reflexivity. Qed.

Lemma normalize_url_idempotent_witness :
  canon (canon (lit "HTTP://A.com/docs/x/?q=1#top"))
  = canon (lit "HTTP://A.com/docs/x/?q=1#top").
Proof.
  apply (normalize_url_idempotent_with_scheme
           host_checks_pass host_checks_pass urljoin_unused).
  - vm_compute. discriminate.
  - vm_compute. reflexivity.
Defined.

(** The example of the specification: a trailing slash, a query and a
    fragment do not change the canonical form. *)
Lemma normalize_url_examples :
  canon (lit "http://a.com/x") = lit "http://a.com/x"
  /\ canon (lit "http://a.com/x/") = lit "http://a.com/x"
  /\ canon (lit "http://a.com/x?q=1") = lit "http://a.com/x"
  /\ canon (lit "http://a.com/x#frag") = lit "http://a.com/x".
Proof. repeat split; vm_compute; reflexivity. Qed.

End UtilsFacts.

(** ** utils.py: what [normalize_url] returns *)

Module UrlFacts.
Import PyStr PyStrFacts Utils UtilsFacts.

(** No character of [s] is one of the delimiters [/], [?], [#] that end a
    host. *)
Definition no_delimiter (s : str) : Prop :=
  forall c, In c (lit "/?#") -> mem c s = false.

(** The text after a host: nothing, or a delimiter and more. *)
Definition at_delimiter (s : str) : Prop :=
  s = [] \/ exists c t, In c (lit "/?#") /\ s = c :: t.

(** Nothing, or a path that begins with a slash. *)
Definition rooted (p : str) : Prop := p = [] \/ exists t, p = "/"%char :: t.

(** The validations of a host in [urlsplit]: they pass when the result
    is [true]. *)
Definition netloc_checks (check_bracketed_netloc checknetloc_nfkc : str -> bool)
    (nl : str) : bool :=
  negb ((mem "[" nl && negb (mem "]" nl)) || (mem "]" nl && negb (mem "[" nl)))
  && negb (mem "[" nl && mem "]" nl && negb (check_bracketed_netloc nl))
  && checknetloc checknetloc_nfkc nl.

Lemma scheme_char_plain c : mem c scheme_chars = true -> plain c = true.
Proof. by_cases_on_char c. Qed.

Lemma valid_scheme_plain sch :
  valid_scheme sch -> Forall (fun c => plain c = true) sch.
Proof.
  intros (_ & H & _). induction sch as [|c t IH]; [constructor|].
  cbn [forallb] in H. apply andb_true_iff in H as [Hc Ht].
  constructor; [apply scheme_char_plain, Hc | apply IH, Ht].
Qed.

Lemma plain_no_mark s :
  Forall (fun c => plain c = true) s ->
  mem "#" s = false /\ mem "?" s = false.
Proof.
  intros H. split; apply mem_false_Forall; apply List.Forall_forall;
    intros c Hc; apply plain_not_mark;
    apply (proj1 (List.Forall_forall _ _) H c Hc).
Qed.

Section UrlFactsSection.

Variable check_bracketed_netloc : str -> bool.
Variable checknetloc_nfkc : str -> bool.
Variable urljoin : str -> str -> option str.

Abbreviation urlsplit := (urlsplit check_bracketed_netloc checknetloc_nfkc).
Abbreviation urlparse := (urlparse check_bracketed_netloc checknetloc_nfkc).
Abbreviation normalize_url :=
  (normalize_url check_bracketed_netloc checknetloc_nfkc urljoin).
Abbreviation extract_domain :=
  (extract_domain check_bracketed_netloc checknetloc_nfkc).
Abbreviation is_valid_url :=
  (is_valid_url check_bracketed_netloc checknetloc_nfkc).
Abbreviation netloc_checks :=
  (netloc_checks check_bracketed_netloc checknetloc_nfkc).

(** The parts that make up the canonical form are free of [#] and [?]. *)
Lemma urlparse_plain u r :
  urlparse u = Some r ->
  Forall (fun c => plain c = true)
         (scheme r ++ lit "://" ++ netloc r ++ path r).
Proof.
  intros Hp.
  destruct (urlparse_parts _ _ _ _ Hp) as (r0 & t & Hs0 & Es & En & Ep).
  destruct (urlsplit_parts _ _ _ _ Hs0) as (_ & Hv & Hpl).
  rewrite <- Es in Hv. rewrite <- En, Ep in Hpl.
  rewrite app_assoc in Hpl. apply Forall_prefix in Hpl.
  apply Forall_app. split.
  - destruct (scheme r) as [|c s] eqn:E; [constructor|].
    apply valid_scheme_plain, Hv. discriminate.
  - apply Forall_app. split; [repeat constructor | exact Hpl].
Qed.

(** X1.  [normalize_url] returns the URL as it is when [urlparse] raises;
    otherwise the result holds neither a fragment nor a query mark and
    does not end with a slash. *)
Theorem normalize_url_strips (u : str) :
  match urlparse u with
  | None => normalize_url u None = u
  | Some _ =>
      mem "#" (normalize_url u None) = false
      /\ mem "?" (normalize_url u None) = false
      /\ rstrip is_slash (normalize_url u None) = normalize_url u None
  end.
Proof.
  unfold Utils.normalize_url.
  destruct (urlparse u) as [r|] eqn:Hp; [|reflexivity].
  pose proof (urlparse_plain u r Hp) as Hpl.
  apply (rstrip_Forall _ is_slash) in Hpl.
  destruct (plain_no_mark _ Hpl) as [H1 H2].
  split; [exact H1|]. split; [exact H2 | apply rstrip_idem].
Qed.

(** *** The host of a canonical URL *)

Lemma min_delim_char url start cs init :
  min_delim url start cs init = init
  \/ exists c, In c cs
               /\ find_from c start url
                  = Some (min_delim url start cs init).
Proof.
  revert init. induction cs as [|c cs IH]; intros init; [left; reflexivity|].
  unfold min_delim in *. cbn [fold_left].
  destruct (find_from c start url) as [w|] eqn:E.
  - destruct (IH (Nat.min init w)) as [H|(c' & Hc' & H)].
    + rewrite H. destruct (Nat.min_spec init w) as [[_ Hm]|[_ Hm]];
        rewrite Hm.
      * left. reflexivity.
      * right. exists c. split; [left; reflexivity | exact E].
    + right. exists c'. split; [right; exact Hc' | exact H].
  - destruct (IH init) as [H|(c' & Hc' & H)].
    + left. exact H.
    + right. exists c'. split; [right; exact Hc' | exact H].
Qed.

Lemma find_from_skipn c start url d :
  find_from c start url = Some d -> exists t, skipn d url = c :: t.
Proof.
  unfold find_from. destruct (find c (skipn start url)) as [i|] eqn:E;
    [|discriminate].
  intros [= <-]. destruct (find_Some _ _ _ E) as [H _].
  exists (skipn (S i) (skipn start url)).
  rewrite Nat.add_comm, <- skipn_skipn. rewrite H at 1.
  rewrite skipn_app, length_firstn.
  assert (Hi : i <= length (skipn start url)).
  { apply (f_equal (@length _)) in H. rewrite length_app, length_firstn in H.
    cbn [length] in H. lia. }
  rewrite Nat.min_l by exact Hi. rewrite Nat.sub_diag.
  rewrite skipn_all2 by (rewrite length_firstn; lia). reflexivity.
Qed.

Lemma splitnetloc_rest url start nl rest :
  splitnetloc url start = (nl, rest) -> at_delimiter rest.
Proof.
  unfold splitnetloc. fold (min_delim url start (lit "/?#") (length url)).
  set (d := min_delim url start (lit "/?#") (length url)).
  intros [= _ <-].
  destruct (min_delim_char url start (lit "/?#") (length url))
    as [H|(c & Hc & H)]; fold d in H.
  - left. rewrite H. apply skipn_all.
  - right. destruct (find_from_skipn _ _ _ _ H) as [t Ht].
    exists c, t. split; assumption.
Qed.

Lemma no_delimiter_head c t :
  In c (lit "/?#") -> ~ no_delimiter (c :: t).
Proof.
  intros Hc H. specialize (H c Hc). unfold mem in H. cbn [existsb] in H.
  rewrite Ascii.eqb_refl in H. discriminate.
Qed.

Lemma no_delimiter_tail c t : no_delimiter (c :: t) -> no_delimiter t.
Proof.
  intros H d Hd. specialize (H d Hd). unfold mem in *. cbn [existsb] in H.
  apply orb_false_iff in H. tauto.
Qed.

(** A host and the text after it are told apart by the first
    delimiter. *)
Lemma split_at_delimiter nl p nl' p' :
  nl ++ p = nl' ++ p' ->
  no_delimiter nl -> no_delimiter nl' ->
  at_delimiter p -> at_delimiter p' ->
  nl = nl' /\ p = p'.
Proof.
  revert nl'. induction nl as [|a t IH]; intros [|a' t'] E Hn Hn' Hp Hp'.
  - split; [reflexivity | exact E].
  - exfalso. cbn [app] in E. destruct Hp as [->|(c & u & Hc & ->)];
      [discriminate|].
    injection E as <- _. apply (no_delimiter_head c t' Hc Hn').
  - exfalso. cbn [app] in E. destruct Hp' as [->|(c & u & Hc & ->)];
      [discriminate|].
    injection E as -> _. apply (no_delimiter_head c t Hc Hn).
  - cbn [app] in E. injection E as <- E.
    destruct (IH t' E (no_delimiter_tail _ _ Hn) (no_delimiter_tail _ _ Hn')
                 Hp Hp') as [-> ->].
    split; reflexivity.
Qed.

(** The text kept by [url.split(c, 1)] when the text begins with a
    delimiter. *)
Lemma cut_head c x t a b :
  (if mem c (x :: t) then split_once c (x :: t) else (x :: t, [])) = (a, b) ->
  (a = [] /\ x = c) \/ (x <> c /\ exists t', a = x :: t').
Proof.
  unfold mem, split_once. cbn [existsb find].
  rewrite (Ascii.eqb_sym c x).
  destruct (Ascii.eqb x c) eqn:E.
  - cbn [orb]. intros [= <- _]. left. apply Ascii.eqb_eq in E. auto.
  - apply Ascii.eqb_neq in E. cbn [orb].
    destruct (existsb (Ascii.eqb c) t) eqn:Em.
    + destruct (find c t) as [i|]; cbn [option_map].
      * intros [= <- _]. right. split; [exact E|]. eexists. reflexivity.
      * intros [= <- _]. right. split; [exact E|]. eexists. reflexivity.
    + intros [= <- _]. right. split; [exact E|]. eexists. reflexivity.
Qed.

Lemma urlsplit_netloc u r :
  urlsplit u = Some r -> s_netloc r <> [] ->
  no_delimiter (s_netloc r) /\ netloc_checks (s_netloc r) = true
  /\ rooted (s_path r).
Proof.
  unfold Utils.urlsplit.
  set (u0 := List.filter _ (lstrip _ u)).
  destruct (split_scheme u0) as [sch r1].
  destruct (str_eqb (firstn 2 r1) (lit "//")) eqn:Hsl.
  2:{ destruct (if mem "#" r1 then _ else _) as [r3 frag].
      destruct (if mem "?" r3 then _ else _) as [r4 qry].
      cbn. intros [= <-] H. cbn in H. congruence. }
  destruct (splitnetloc r1 2) as [nl r2] eqn:Hsn.
  assert (Hlen : 2 <= length r1).
  { apply str_eqb_eq in Hsl. destruct r1 as [|? [|? ?]]; simpl in *;
      try discriminate; lia. }
  destruct (splitnetloc_spec _ _ _ _ Hsn Hlen) as [_ Hno].
  pose proof (splitnetloc_rest _ _ _ _ Hsn) as Hrest.
  destruct ((mem "[" nl && negb (mem "]" nl))
            || (mem "]" nl && negb (mem "[" nl))) eqn:Hb1; [discriminate|].
  destruct (mem "[" nl && mem "]" nl && negb (check_bracketed_netloc nl))
    eqn:Hb2; [discriminate|].
  destruct (if mem "#" r2 then _ else _) as [r3 frag] eqn:H3.
  destruct (if mem "?" r3 then _ else _) as [r4 qry] eqn:H4.
  destruct (checknetloc checknetloc_nfkc nl) eqn:Hck; [|discriminate].
  intros [= <-] _. cbn [s_netloc s_path].
  split; [exact Hno|]. split.
  - unfold UrlFacts.netloc_checks. rewrite Hb1, Hb2, Hck. reflexivity.
  - destruct Hrest as [->|(c & t & Hc & ->)].
    + cbn in H3. injection H3 as <- _. cbn in H4. injection H4 as <- _.
      left. reflexivity.
    + destruct (cut_head _ _ _ _ _ H3) as [[-> ->]|[Hn3 [t3 ->]]].
      * cbn in H4. injection H4 as <- _. left. reflexivity.
      * destruct (cut_head _ _ _ _ _ H4) as [[-> ->]|[Hn4 [t4 ->]]];
          [left; reflexivity|].
        right. exists t4. f_equal.
        destruct Hc as [<-|[<-|[<-|[]]]]; [reflexivity | congruence
                                          | congruence].
Qed.

Lemma urlsplit_canonical sch nl p :
  valid_scheme sch -> nl <> [] -> no_delimiter nl ->
  netloc_checks nl = true ->
  Forall (fun c => plain c = true) (nl ++ p) -> rooted p ->
  urlsplit (sch ++ lit "://" ++ nl ++ p) = Some (mkSplit sch nl p [] []).
Proof.
  intros Hv Hne Hno Hck Hpl Hroot. unfold Utils.urlsplit.
  assert (H0 : lstrip C0_CONTROL_OR_SPACE (sch ++ lit "://" ++ nl ++ p)
               = sch ++ lit "://" ++ nl ++ p).
  { destruct Hv as (Hc & _). destruct sch as [|c0 t]; [contradiction|].
    apply lstrip_id, alpha_not_C0, Hc. }
  rewrite H0. rewrite filter_id.
  2:{ apply Forall_app. split; [apply scheme_safe, Hv|].
      apply Forall_app. split.
      - repeat constructor.
      - apply List.Forall_forall. intros c Hc. apply plain_safe.
        apply (proj1 (List.Forall_forall _ _) Hpl c Hc). }
  change (sch ++ lit "://" ++ nl ++ p)
    with (sch ++ ":"%char :: lit "//" ++ nl ++ p).
  rewrite (split_scheme_rebuilt _ _ Hv).
  change (str_eqb (firstn 2 (lit "//" ++ nl ++ p)) (lit "//")) with true.
  cbv iota.
  destruct (splitnetloc (lit "//" ++ nl ++ p) 2) as [nl' r2] eqn:Hsn.
  destruct (splitnetloc_spec _ _ _ _ Hsn) as [Happ Hno']; [simpl; lia|].
  change (skipn 2 (lit "//" ++ nl ++ p)) with (nl ++ p) in Happ.
  pose proof (splitnetloc_rest _ _ _ _ Hsn) as Hrest.
  assert (Hat : at_delimiter p).
  { destruct Hroot as [->|[t ->]]; [left; reflexivity|].
    right. exists "/"%char, t. split; [left; reflexivity | reflexivity]. }
  destruct (split_at_delimiter nl' r2 nl p Happ Hno' Hno Hrest Hat)
    as [-> ->].
  unfold UrlFacts.netloc_checks in Hck.
  apply andb_true_iff in Hck as [Hck Hck3].
  apply andb_true_iff in Hck as [Hck1 Hck2].
  apply negb_true_iff in Hck1, Hck2. rewrite Hck1, Hck2.
  apply Forall_suffix in Hpl.
  destruct (plain_no_mark _ Hpl) as [Hh Hq]. rewrite Hh, Hq, Hck3.
  reflexivity.
Qed.

Lemma rstrip_keep_host a nl p :
  nl <> [] -> mem "/" nl = false ->
  rstrip is_slash (a ++ nl ++ p) = a ++ nl ++ rstrip is_slash p.
Proof.
  intros Hne Hno.
  destruct (exists_last Hne) as (nl0 & x & ->).
  assert (Hx : is_slash x = false).
  { rewrite mem_app in Hno. apply orb_false_iff in Hno as [_ Hno].
    unfold mem in Hno. cbn [existsb] in Hno. rewrite orb_false_r in Hno.
    unfold is_slash. rewrite Ascii.eqb_sym. exact Hno. }
  rewrite !app_assoc. rewrite rstrip_app.
  destruct (rstrip is_slash p) as [|y r] eqn:E; [|reflexivity].
  rewrite app_nil_r, rstrip_app. cbn [rstrip]. rewrite Hx. reflexivity.
Qed.

Lemma rstrip_rooted p : rooted p -> rooted (rstrip is_slash p).
Proof.
  intros [->|[t ->]]; [left; reflexivity|].
  cbn [rstrip]. destruct (rstrip is_slash t); [left | right; eexists];
    reflexivity.
Qed.

Lemma rooted_prefix p t : rooted (p ++ t) -> rooted p.
Proof.
  destruct p as [|c p']; [left; reflexivity|].
  intros [H|[u H]]; [discriminate|]. injection H as -> _.
  right. eexists. reflexivity.
Qed.

(** X2.  The canonical form of a valid URL (one with a scheme and a host) is a
    valid URL again, and it has the same host. *)
Theorem normalize_url_valid (u : str) :
  is_valid_url u = true ->
  is_valid_url (normalize_url u None) = true
  /\ extract_domain (normalize_url u None) = extract_domain u.
Proof.
  unfold Utils.is_valid_url at 1. unfold Utils.extract_domain at 2.
  destruct (urlparse u) as [r|] eqn:Hp; [|discriminate].
  intros Hval. apply andb_true_iff in Hval as [Hs Hn].
  assert (Hsch : scheme r <> []) by (destruct (scheme r); [discriminate|congruence]).
  assert (Hnl : netloc r <> []) by (destruct (netloc r); [discriminate|congruence]).
  destruct (urlparse_parts _ _ _ _ Hp) as (r0 & t & Hs0 & Es & En & Ep).
  destruct (urlsplit_parts _ _ _ _ Hs0) as (_ & Hv & Hpl).
  rewrite <- Es in Hv. specialize (Hv Hsch).
  assert (Hnl0 : s_netloc r0 <> []) by (rewrite <- En; exact Hnl).
  destruct (urlsplit_netloc _ _ Hs0 Hnl0) as (Hno & Hck & Hroot).
  rewrite Ep in Hpl, Hroot. apply rooted_prefix in Hroot.
  rewrite app_assoc in Hpl. apply Forall_prefix in Hpl.
  rewrite <- En in Hno, Hck, Hpl.
  assert (Hnorm : normalize_url u None
                  = scheme r ++ lit "://" ++ netloc r
                    ++ rstrip is_slash (path r)).
  { unfold Utils.normalize_url. rewrite Hp.
    rewrite (app_assoc (scheme r) (lit "://")).
    rewrite (rstrip_keep_host _ (netloc r) (path r)).
    - rewrite <- app_assoc. reflexivity.
    - exact Hnl.
    - apply Hno. left. reflexivity. }
  assert (Hsplit : urlsplit (normalize_url u None)
                   = Some (mkSplit (scheme r) (netloc r)
                                   (rstrip is_slash (path r)) [] [])).
  { rewrite Hnorm. apply urlsplit_canonical.
    - exact Hv.
    - exact Hnl.
    - exact Hno.
    - exact Hck.
    - apply Forall_app in Hpl as [H1 H2]. apply Forall_app. split.
      + exact H1.
      + apply rstrip_Forall, H2.
    - apply rstrip_rooted, Hroot. }
  unfold Utils.is_valid_url, Utils.extract_domain, Utils.urlparse.
  rewrite Hsplit. cbn [s_scheme s_netloc s_path].
  destruct (existsb _ uses_params && mem ";" _);
    [destruct (splitparams _)|]; cbn [scheme netloc];
    rewrite Hs, Hn; split; reflexivity.
Qed.

End UrlFactsSection.

Lemma normalize_url_valid_witness :
  extract_domain host_checks_pass host_checks_pass
                 (canon (lit "HTTPS://Docs.A.com/guide/?page=2#top"))
  = lit "Docs.A.com".
Proof.
  destruct (normalize_url_valid host_checks_pass host_checks_pass
              urljoin_unused (lit "HTTPS://Docs.A.com/guide/?page=2#top")
              eq_refl) as [_ H].
  exact H.
Defined.

End UrlFacts.

(** ** analyzer.py *)

Module AnalyzerFacts.
Import PyStr PyStrFacts Analyzer.

(** A module whose own content holds one long sentence that names it. *)
Definition long_sentence_module : candidate :=
  mkCandidate (lit "Docs") (lit "title")
              (lit "Docs " ++ repeat "x"%char 600 ++ lit ".")
              (lit "http://a.com/docs").

(** A module whose content lists one long item that no sentence holds in
    full: the enumeration runs over an exclamation mark. *)
Definition long_item_module : candidate :=
  mkCandidate (lit "Kit") (lit "heading_h2")
              (lit "Kit includes " ++ repeat "a"%char 200 ++ lit "! bbbb")
              (lit "http://a.com/kit").

(** The bonus of one condition. *)
Definition bonus (condition : bool) (amount : float) : float :=
  if condition then amount else 0%float.

(** [c["name"].lower()]. *)
Definition lower_name (c : candidate) : str := lower (name c).

(** What the claim calls deduplication by case-insensitive exact name
    match, preserving the first occurrence: a candidate stays exactly when
    no candidate before it has the same lower-cased name.  [before] is
    the list of the candidates already passed. *)
Fixpoint first_occurrences_from (before candidates : list candidate)
    : list candidate :=
  match candidates with
  | [] => []
  | c :: t =>
      (if existsb (fun b => str_eqb (lower_name c) (lower_name b)) before
       then [] else [c])
      ++ first_occurrences_from (before ++ [c]) t
  end.

Definition first_occurrences (candidates : list candidate) : list candidate :=
  first_occurrences_from [] candidates.

(** Two pages titled ["A B C"] and ["a b c"]: no name holds a token of two
    word characters, so the vocabulary is empty whatever the stop words
    are. *)
Definition single_letter_titles : list candidate :=
  [ mkCandidate (lit "A B C") (lit "title") (lit "First page.")
                (lit "http://a.com/1");
    mkCandidate (lit "a b c") (lit "title") (lit "Second page.")
                (lit "http://a.com/2") ].

(** ** Description lengths (C1) *)

Lemma length_lit_app (a : string) (b : str) :
  length (lit a ++ b) = String.length a + length b.
Proof.
  rewrite length_app. f_equal. unfold lit.
  induction a as [|c a IH]; simpl; [reflexivity|]. rewrite IH. reflexivity.
Qed.

(** The heuristic description is the name, [": "] and at most 500
    characters of sentences, or else the template. *)
Lemma generate_description_algorithmic_shape module context :
  (exists body,
      generate_description_algorithmic module context
      = (name module ++ lit ": ") ++ body
      /\ length body <= 500)
  \/ generate_description_algorithmic module context
     = lit "Module related to " ++ name module ++ lit " functionality.".
Proof.
  unfold generate_description_algorithmic.
  destruct (extract_relevant_sentences (name module) (content module)).
  - destruct (extract_relevant_sentences (name module) context).
    + right. reflexivity.
    + left. eexists. split; [reflexivity|]. apply firstn_le_length.
  - left. eexists. split; [reflexivity|]. apply firstn_le_length.
Qed.

Lemma generate_description_algorithmic_length module context :
  length (generate_description_algorithmic module context)
  <= length (name module) + 502.
Proof.
  destruct (generate_description_algorithmic_shape module context)
    as [(body & -> & Hb) | ->].
  - rewrite !length_app. simpl. lia.
  - rewrite length_lit_app, length_app. simpl. lia.
Qed.

Lemma generate_submodule_description_shape submodule content context :
  length (generate_submodule_description submodule content context) <= 200
  \/ generate_submodule_description submodule content context
     = lit "Functionality related to " ++ submodule ++ lit ".".
Proof.
  unfold generate_submodule_description.
  destruct (extract_relevant_sentences submodule content).
  - destruct (extract_relevant_sentences submodule context).
    + right. reflexivity.
    + left. apply firstn_le_length.
  - left. apply firstn_le_length.
Qed.

Lemma dict_set_In d k v k' v' :
  In (k', v') (dict_set d k v) -> (k' = k /\ v' = v) \/ In (k', v') d.
Proof.
  induction d as [|[k0 v0] t IH]; simpl.
  - intros [[= <- <-]|[]]. left. split; reflexivity.
  - destruct (str_eqb k0 k) eqn:E.
    + apply str_eqb_eq in E. subst k0.
      intros [[= <- <-]|H]; [left; split; reflexivity | right; right; exact H].
    + intros [H|H]; [right; left; exact H|].
      destruct (IH H) as [H'|H']; [left; exact H' | right; right; exact H'].
Qed.

(** Every entry of the submodule dictionary carries the description
    generated for its own name. *)
Lemma extract_submodules_entries module context sub desc :
  In (sub, desc) (extract_submodules module context) ->
  desc = generate_submodule_description sub (content module) context.
Proof.
  unfold extract_submodules.
  generalize (firstn MAX_SUBMODULES_PER_MODULE
                     (extract_potential_submodules (content module))).
  intros names.
  assert (Hinv : forall k v, In (k, v) (@nil (str * str)) ->
             v = generate_submodule_description k (content module) context)
    by (intros ? ? []).
  revert Hinv. generalize (@nil (str * str)) as acc.
  induction names as [|n names IH]; intros acc Hinv; simpl.
  - apply Hinv.
  - apply IH. intros k v Hin.
    destruct (is_empty _); [apply Hinv, Hin|].
    apply dict_set_In in Hin as [[-> ->]|Hin]; [reflexivity | apply Hinv, Hin].
Qed.

(** C1, as amended.  For every module that the heuristic path of
    [generate_descriptions] produces, the description is the module name
    followed by [": "] and at most 500 characters of sentence text, or the
    template ["Module related to <name> functionality."], hence at most
    [len(name) + 502] characters long; and every submodule description is
    at most 200 characters long or is the template
    ["Functionality related to <submodule>."]. *)
Theorem heuristic_description_lengths (modules : list candidate)
    (all_content : str) (d : described) :
  In d (generate_descriptions None modules all_content) ->
  ((exists body,
       d_description d = (d_module d ++ lit ": ") ++ body
       /\ length body <= 500)
   \/ d_description d
      = lit "Module related to " ++ d_module d ++ lit " functionality.")
  /\ length (d_description d) <= length (d_module d) + 502
  /\ forall sub desc, In (sub, desc) (d_submodules d) ->
       length desc <= 200
       \/ desc = lit "Functionality related to " ++ sub ++ lit ".".
Proof.
  unfold generate_descriptions. rewrite in_map_iff.
  intros (module & <- & _). cbn [d_description d_module d_submodules].
  split; [apply generate_description_algorithmic_shape|].
  split; [apply generate_description_algorithmic_length|].
  intros sub desc Hin.
  rewrite (extract_submodules_entries _ _ _ _ Hin).
  apply generate_submodule_description_shape.
Qed.

Lemma heuristic_description_lengths_witness :
  Forall (fun d => length (d_description d) <= length (d_module d) + 502)
         (generate_descriptions None [long_sentence_module] []).
Proof.
  apply List.Forall_forall. intros d Hd.
  apply (heuristic_description_lengths [long_sentence_module] [] d Hd).
Defined.

(** C1 fails as stated: the 500 characters are cut from the sentences
    before the name is put in front, so the description of
    [long_sentence_module] has 506 characters. *)
Lemma heuristic_description_exceeds_500 :
  map (fun d => length (d_description d))
      (generate_descriptions None [long_sentence_module] [])
  = [506].
Proof. vm_compute. reflexivity. Qed.

(** The templated submodule description is not cut at all: here it has
    232 characters. *)
Lemma submodule_description_exceeds_200 :
  map (fun kv => (length (fst kv), length (snd kv)))
      (extract_submodules long_item_module [])
  = [(206, 232)].
Proof. vm_compute. reflexivity. Qed.

(** ** Confidence (C4) *)

Lemma calculate_confidence_range (module : candidate) (description : str) :
  PrimFloat.leb 0.5 (calculate_confidence module description) = true
  /\ PrimFloat.leb (calculate_confidence module description) 1.0 = true.
Proof.
  unfold calculate_confidence.
  destruct (800 <? length (content module)),
           (100 <? length description),
           (str_eqb (source module) (lit "title"));
    split; vm_compute; reflexivity.
Qed.

(** C4.  The confidence score is 0.5, plus 0.2 when the module content is
    longer than 800 characters, plus 0.1 when the description is longer
    than 100 characters, plus 0.1 when the candidate's source is
    ["title"], capped at 1.0 (sums are binary64 sums, taken in this
    order); hence the score lies between 0.5 and 1.0. *)
Theorem calculate_confidence_formula (module : candidate)
    (description : str) :
  calculate_confidence module description
  = float_min
      (0.5 + bonus (800 <? length (content module))%nat 0.2
           + bonus (100 <? length description)%nat 0.1
           + bonus (str_eqb (source module) (lit "title")) 0.1)%float
      1.0%float
  /\ PrimFloat.leb 0.5 (calculate_confidence module description) = true
  /\ PrimFloat.leb (calculate_confidence module description) 1.0 = true.
Proof.
  unfold calculate_confidence, bonus.
  destruct (800 <? length (content module)),
           (100 <? length description),
           (str_eqb (source module) (lit "title"));
    repeat split; vm_compute; reflexivity.
Qed.

(** The same holds for every record of [generate_descriptions], whichever
    way its description was produced. *)
Lemma generate_descriptions_confidence llm modules all_content d :
  In d (generate_descriptions llm modules all_content) ->
  PrimFloat.leb 0.5 (d_confidence d) = true
  /\ PrimFloat.leb (d_confidence d) 1.0 = true.
Proof.
  unfold generate_descriptions. rewrite in_map_iff.
  intros (module & <- & _). cbn [d_confidence].
  apply calculate_confidence_range.
Qed.

(** The cap is never reached: with all three bonuses the sum is the
    float just below 0.9. *)
Lemma calculate_confidence_largest :
  (0.5 + 0.2 + 0.1 + 0.1)%float = 0x1.cccccccccccccp-1%float
  /\ PrimFloat.ltb (0.5 + 0.2 + 0.1 + 0.1)%float 0.9%float = true.
Proof. split; vm_compute; reflexivity. Qed.

(** ** Clustering without embeddings (C5) *)

(** The loop of the code keeps the names of the kept candidates only;
    these are the names of all candidates passed. *)
Lemma unique_loop_first_occurrences seen before candidates :
  (forall x, In x seen <-> In x (map lower_name before)) ->
  unique_loop seen candidates = first_occurrences_from before candidates.
Proof.
  revert seen before. induction candidates as [|c t IH]; intros seen before Hs.
  - reflexivity.
  - cbn [unique_loop first_occurrences_from].
    assert (E : existsb (str_eqb (lower (name c))) seen
                = existsb (fun b => str_eqb (lower_name c) (lower_name b))
                          before).
    { apply eq_true_iff_eq. rewrite existsb_str_eqb_In, Hs, existsb_exists.
      rewrite in_map_iff. split.
      - intros (b & Hb & Hin). exists b. split; [exact Hin|].
        rewrite Hb. apply str_eqb_refl.
      - intros (b & Hin & Hb). exists b. apply str_eqb_eq in Hb.
        split; [symmetry; exact Hb | exact Hin]. }
    rewrite E. destruct (existsb _ before) eqn:Eb.
    + cbn [app]. apply IH. intros x. rewrite Hs, map_app, in_app_iff.
      cbn [map In]. split; [tauto|]. intros [H|[<-|[]]]; [exact H|].
      apply existsb_exists in Eb as (b & Hin & Hb). apply str_eqb_eq in Hb.
      apply in_map_iff. exists b. split; [symmetry; exact Hb | exact Hin].
    + cbn [app]. f_equal. apply IH. intros x. cbn [In].
      rewrite Hs, map_app, in_app_iff. cbn [map In]. unfold lower_name. tauto.
Qed.

Section ClusterFacts.

Variable stop_words : list str.

(** C5.  Without an embedder [cluster_modules] never raises.  An empty
    list gives an empty list.  Whatever similarities the TF-IDF step
    computes, when it succeeds the result is the list of first occurrences
    by lower-cased name; when it raises, the exception is caught and the
    result is the candidate list as it was given. *)
Theorem cluster_modules_fallback (candidates : list candidate) :
  cluster_modules stop_words None candidates
  = Some (match candidates with
          | [] => []
          | _ =>
              match tfidf_fit stop_words (map name candidates) with
              | Some _ => first_occurrences candidates
              | None => candidates
              end
          end).
Proof.
  unfold cluster_modules. destruct candidates as [|c t]; [reflexivity|].
  destruct (tfidf_fit stop_words (map name (c :: t))); [|reflexivity].
  f_equal. apply unique_loop_first_occurrences. intros x. simpl. tauto.
Qed.

End ClusterFacts.

Lemma tfidf_fit_single_letters stop_words :
  tfidf_fit stop_words (map name single_letter_titles) = None.
Proof. reflexivity. Qed.

(** When the TF-IDF step raises, the candidates come back as they were
    given, with the duplicate that deduplication would remove. *)
Lemma cluster_modules_failure_keeps_duplicates :
  cluster_modules [] None single_letter_titles = Some single_letter_titles
  /\ length (first_occurrences single_letter_titles) = 1.
Proof. split; vm_compute; reflexivity. Qed.

(** When the step succeeds the duplicate goes. *)
Lemma cluster_modules_success_deduplicates :
  option_map (map name)
    (cluster_modules []  None
       [ mkCandidate (lit "Setup Guide") (lit "title") [] [];
         mkCandidate (lit "Install") (lit "heading_h2") [] [];
         mkCandidate (lit "SETUP guide") (lit "heading_h1") [] [] ])
  = Some [lit "Setup Guide"; lit "Install"].
Proof. vm_compute. reflexivity. Qed.

End AnalyzerFacts.

(** ** utils.py: text helpers *)

Module UtilsTextFacts.
Import PyStr PyStrFacts Analyzer UtilsText.

(** The characters of a cleaned text: word characters, the space and the
    punctuation that [clean_text] keeps. *)
Definition is_clean_char (c : ascii) : bool :=
  is_word_char c || mem c (lit " .,;:!?()-").

(** No two spaces in a row. *)
Fixpoint single_spaced (s : str) : bool :=
  match s with
  | [] => true
  | a :: t =>
      match t with
      | b :: _ => negb (Ascii.eqb a " " && Ascii.eqb b " ")
      | [] => true
      end && single_spaced t
  end.

(** The last character of a string. *)
Fixpoint last_char (s : str) : option ascii :=
  match s with
  | [] => None
  | c :: t => match t with [] => Some c | _ => last_char t end
  end.

(** A string that neither begins nor ends with white space. *)
Definition trimmed (s : str) : bool :=
  match s with c :: _ => negb (isspace c) | [] => true end
  && match last_char s with Some c => negb (isspace c) | None => true end.

Definition ends_sentence (s : str) : bool :=
  match last_char s with
  | Some c => is_sentence_end c
  | None => false
  end.

(** A word of [str.split()]: not empty, no white space. *)
Definition is_word (w : str) : bool :=
  negb (is_empty w) && forallb (fun c => negb (isspace c)) w.

(** [p] holds of every element but the last. *)
Fixpoint all_but_last {A} (p : A -> bool) (l : list A) : bool :=
  match l with
  | [] => true
  | x :: t => match t with [] => true | _ => p x && all_but_last p t end
  end.

(** [sum(len(w) + 1 for w in words)]. *)
Definition size_of (words : list str) : Z :=
  fold_right (fun w n => (Z.of_nat (length w) + 1 + n)%Z) 0%Z words.

(** ** Stripping *)

Lemma lstrip_suffix p s : exists a, s = a ++ lstrip p s.
Proof.
  induction s as [|x t [a IH]]; simpl.
  - exists []. reflexivity.
  - destruct (p x).
    + exists (x :: a). simpl. f_equal. exact IH.
    + exists []. reflexivity.
Qed.

Lemma lstrip_Forall (P : ascii -> Prop) p s :
  Forall P s -> Forall P (lstrip p s).
Proof.
  intros H. destruct (lstrip_suffix p s) as [a Ha].
  rewrite Ha in H. apply Forall_app in H. tauto.
Qed.

Lemma lstrip_head p s :
  match lstrip p s with c :: _ => p c = false | [] => True end.
Proof.
  induction s as [|x t IH]; simpl; [exact I|].
  destruct (p x) eqn:E; [exact IH | exact E].
Qed.

Lemma rstrip_cons_keep p c t :
  p c = false -> rstrip p (c :: t) = c :: rstrip p t.
Proof.
  intros H. simpl. destruct (rstrip p t); [rewrite H|]; reflexivity.
Qed.

Lemma rstrip_cons p x t :
  rstrip p (x :: t)
  = match rstrip p t with
    | [] => if p x then [] else [x]
    | r => x :: r
    end.
Proof. reflexivity. Qed.

Lemma last_char_cons c t :
  t <> [] -> last_char (c :: t) = last_char t.
Proof. destruct t; [congruence | reflexivity]. Qed.

Lemma last_char_None s : last_char s = None -> s = [].
Proof.
  induction s as [|x t IH]; [reflexivity|].
  destruct t as [|y r]; [discriminate|].
  rewrite last_char_cons by discriminate.
  intros H. apply IH in H. discriminate.
Qed.

Lemma last_char_app s c : last_char (s ++ [c]) = Some c.
Proof.
  induction s as [|x t IH]; [reflexivity|].
  change ((x :: t) ++ [c]) with (x :: (t ++ [c])).
  rewrite last_char_cons; [exact IH | destruct t; discriminate].
Qed.

Lemma rstrip_last p s :
  match last_char (rstrip p s) with
  | Some c => p c = false
  | None => True
  end.
Proof.
  induction s as [|x t IH]; [exact I|].
  rewrite rstrip_cons. destruct (rstrip p t) as [|y r] eqn:E.
  - destruct (p x) eqn:Ex; [exact I | exact Ex].
  - rewrite last_char_cons by discriminate. exact IH.
Qed.

Lemma rstrip_id p s :
  match last_char s with Some c => p c = false | None => True end ->
  rstrip p s = s.
Proof.
  induction s as [|x t IH]; [reflexivity|].
  destruct t as [|y r].
  - cbn. intros H. rewrite H. reflexivity.
  - rewrite last_char_cons by discriminate. intros H.
    rewrite rstrip_cons, (IH H). reflexivity.
Qed.

Lemma negb_false_eq b : negb b = true <-> b = false.
Proof. destruct b; simpl; split; congruence. Qed.

Lemma strip_trimmed s : trimmed (strip s) = true.
Proof.
  unfold strip, trimmed. apply andb_true_iff. split.
  - pose proof (lstrip_head isspace s) as H.
    destruct (lstrip isspace s) as [|c t]; [reflexivity|].
    rewrite (rstrip_cons_keep _ _ _ H). apply negb_false_eq, H.
  - pose proof (rstrip_last isspace (lstrip isspace s)) as H.
    destruct (last_char _); [apply negb_false_eq, H | reflexivity].
Qed.

Lemma trimmed_strip s : trimmed s = true -> strip s = s.
Proof.
  unfold trimmed. intros H. apply andb_true_iff in H as [Hh Hl].
  unfold strip.
  assert (E : lstrip isspace s = s).
  { destruct s as [|c t]; [reflexivity|].
    apply lstrip_id, negb_false_eq, Hh. }
  rewrite E. apply rstrip_id.
  destruct (last_char s); [apply negb_false_eq, Hl | exact I].
Qed.

Lemma strip_idem s : strip (strip s) = strip s.
Proof. apply trimmed_strip, strip_trimmed. Qed.

Lemma strip_Forall (P : ascii -> Prop) s : Forall P s -> Forall P (strip s).
Proof. intros H. apply rstrip_Forall, lstrip_Forall, H. Qed.

Lemma strip_length s : length (strip s) <= length s.
Proof.
  unfold strip.
  destruct (lstrip_suffix isspace s) as [a Ha].
  destruct (rstrip_prefix isspace (lstrip isspace s)) as [b Hb].
  rewrite Ha at 2. rewrite Hb at 2. rewrite !length_app. lia.
Qed.

Lemma forallb_Forall_iff {A} (p : A -> bool) l :
  forallb p l = true <-> Forall (fun x => p x = true) l.
Proof.
  induction l as [|x t IH]; simpl.
  - split; intros; [constructor | reflexivity].
  - rewrite andb_true_iff, IH. split.
    + intros [H1 H2]. constructor; assumption.
    + intros H. inversion H; subst. split; assumption.
Qed.

(** ** [clean_text] *)

Lemma clean_space c :
  is_clean_char c = true -> isspace c = true -> c = " "%char.
Proof.
  destruct c as [[] [] [] [] [] [] [] []]; vm_compute; congruence.
Qed.

Lemma kept_clean c :
  is_kept c = true -> isspace c = false -> is_clean_char c = true.
Proof.
  destruct c as [[] [] [] [] [] [] [] []]; vm_compute; congruence.
Qed.

Lemma clean_kept c : is_clean_char c = true -> is_kept c = true.
Proof.
  destruct c as [[] [] [] [] [] [] [] []]; vm_compute; congruence.
Qed.

Lemma space_eqb c : Ascii.eqb c " " = true -> isspace c = true.
Proof. intros H. apply Ascii.eqb_eq in H. subst. reflexivity. Qed.

(** After the first substitution the only white space is the space. *)
Lemma collapse_spaces_chars s b :
  Forall (fun c => isspace c = true -> c = " "%char) (collapse_spaces s b).
Proof.
  revert b. induction s as [|c t IH]; intros b; simpl; [constructor|].
  destruct (isspace c) eqn:E.
  - destruct b; [apply IH|]. constructor; [reflexivity | apply IH].
  - constructor; [congruence | apply IH].
Qed.

Lemma collapse_spaces_length s b :
  length (collapse_spaces s b) <= length s.
Proof.
  revert b. induction s as [|c t IH]; intros b; simpl; [lia|].
  destruct (isspace c); [destruct b|]; simpl;
    [specialize (IH true) | specialize (IH true) | specialize (IH false)];
    lia.
Qed.

Lemma blank_special_clean s :
  Forall (fun c => isspace c = true -> c = " "%char) s ->
  forallb is_clean_char (blank_special s) = true.
Proof.
  induction 1 as [|c t Hc Ht IH]; simpl; [reflexivity|].
  rewrite IH, andb_true_r.
  destruct (is_kept c) eqn:Ek; [|reflexivity].
  destruct (isspace c) eqn:Es.
  - rewrite (Hc eq_refl). reflexivity.
  - apply kept_clean; assumption.
Qed.

Lemma clean_text_eq text :
  clean_text text = strip (blank_special (collapse_spaces text false)).
Proof. destruct text; reflexivity. Qed.

Lemma clean_text_chars text : forallb is_clean_char (clean_text text) = true.
Proof.
  rewrite clean_text_eq.
  apply forallb_Forall_iff, strip_Forall, forallb_Forall_iff.
  apply blank_special_clean, collapse_spaces_chars.
Qed.

Lemma clean_text_length text : length (clean_text text) <= length text.
Proof.
  rewrite clean_text_eq.
  etransitivity; [apply strip_length|].
  unfold blank_special. rewrite length_map. apply collapse_spaces_length.
Qed.

(** X3.  [clean_text] returns only word characters, spaces and the punctuation
    [.,;:!?()-]; the result neither begins nor ends with a space and is
    not longer than the text. *)
Theorem clean_text_spec (text : str) :
  forallb is_clean_char (clean_text text) = true
  /\ trimmed (clean_text text) = true
  /\ length (clean_text text) <= length text.
Proof.
  split; [apply clean_text_chars|].
  split; [rewrite clean_text_eq; apply strip_trimmed
         | apply clean_text_length].
Qed.

(** *** The second pass *)

Lemma blank_special_id s :
  forallb is_clean_char s = true -> blank_special s = s.
Proof.
  induction s as [|c t IH]; simpl; [reflexivity|].
  intros H. apply andb_true_iff in H as [Hc Ht].
  rewrite (clean_kept c Hc), (IH Ht). reflexivity.
Qed.

Lemma collapse_spaces_clean s b :
  forallb is_clean_char s = true ->
  forallb is_clean_char (collapse_spaces s b) = true.
Proof.
  revert b. induction s as [|c t IH]; intros b; simpl; [reflexivity|].
  intros H. apply andb_true_iff in H as [Hc Ht].
  destruct (isspace c); [destruct b|]; simpl; rewrite ?Hc, ?IH; auto.
Qed.

Lemma collapse_spaces_cons c t b :
  collapse_spaces (c :: t) b
  = if isspace c then
      if b then collapse_spaces t true else " "%char :: collapse_spaces t true
    else c :: collapse_spaces t false.
Proof. reflexivity. Qed.

Lemma collapse_spaces_nonempty s b :
  match last_char s with Some c => isspace c = false | None => False end ->
  collapse_spaces s b <> [].
Proof.
  revert b. induction s as [|x t IH]; intros b; [intros []|].
  destruct t as [|y r].
  - cbn. intros H. rewrite H. discriminate.
  - rewrite last_char_cons by discriminate. intros H.
    rewrite collapse_spaces_cons.
    destruct (isspace x); [destruct b|]; try discriminate.
    apply (IH true H).
Qed.

Lemma collapse_spaces_last s b :
  match last_char s with Some c => isspace c = false | None => True end ->
  match last_char (collapse_spaces s b) with
  | Some c => isspace c = false
  | None => True
  end.
Proof.
  revert b. induction s as [|x t IH]; intros b; [intros _; exact I|].
  destruct t as [|y r].
  - cbn. intros H. rewrite H. cbn. exact H.
  - rewrite last_char_cons by discriminate. intros H.
    assert (Hne : forall b', collapse_spaces (y :: r) b' <> []).
    { intros b'. apply collapse_spaces_nonempty.
      destruct (last_char (y :: r)) eqn:El; [exact H|].
      apply last_char_None in El. discriminate. }
    rewrite collapse_spaces_cons.
    destruct (isspace x); [destruct b|];
      rewrite ?last_char_cons by apply Hne; apply IH, H.
Qed.

Lemma collapse_spaces_trimmed s :
  trimmed s = true -> trimmed (collapse_spaces s false) = true.
Proof.
  unfold trimmed. intros H. apply andb_true_iff in H as [Hh Hl].
  apply andb_true_iff. split.
  - destruct s as [|c t]; [reflexivity|]. rewrite collapse_spaces_cons.
    apply negb_false_eq in Hh. rewrite Hh. apply negb_false_eq, Hh.
  - pose proof (collapse_spaces_last s false) as H.
    destruct (last_char s) as [c|].
    + apply negb_false_eq in Hl. specialize (H Hl).
      destruct (last_char _); [apply negb_false_eq, H | reflexivity].
    + specialize (H I).
      destruct (last_char _); [apply negb_false_eq, H | reflexivity].
Qed.

(** After a run of white space the collapsed text goes on with another
    character. *)
Lemma collapse_spaces_single s b :
  single_spaced (collapse_spaces s b) = true
  /\ (b = true ->
      match collapse_spaces s b with
      | c :: _ => isspace c = false
      | [] => True
      end).
Proof.
  revert b. induction s as [|c t IH]; intros b;
    [split; [reflexivity | intros _; exact I]|].
  rewrite collapse_spaces_cons. destruct (isspace c) eqn:Ec.
  - destruct (IH true) as [H1 H2]. specialize (H2 eq_refl).
    destruct b; [split; [exact H1 | intros _; exact H2]|].
    split; [|discriminate]. cbn [single_spaced]. rewrite H1, andb_true_r.
    destruct (collapse_spaces t true) as [|d r]; [reflexivity|].
    destruct (Ascii.eqb d " ") eqn:Ed; [|reflexivity].
    apply space_eqb in Ed. congruence.
  - destruct (IH false) as [H1 _]. split; [|intros _; exact Ec].
    cbn [single_spaced]. rewrite H1, andb_true_r.
    destruct (Ascii.eqb c " ") eqn:Ed; [|destruct (collapse_spaces t false);
                                         reflexivity].
    apply space_eqb in Ed. congruence.
Qed.

Lemma collapse_spaces_id s b :
  forallb is_clean_char s = true -> single_spaced s = true ->
  (b = true -> match s with c :: _ => isspace c = false | [] => True end) ->
  collapse_spaces s b = s.
Proof.
  revert b. induction s as [|c t IH]; intros b Hc Hs Hb; [reflexivity|].
  cbn [forallb] in Hc. apply andb_true_iff in Hc as [Hc Ht].
  cbn [single_spaced] in Hs. apply andb_true_iff in Hs as [Hs Hst].
  rewrite collapse_spaces_cons. destruct (isspace c) eqn:Ec.
  - destruct b; [specialize (Hb eq_refl); cbn in Hb; congruence|].
    rewrite (clean_space c Hc Ec) in *. f_equal.
    apply (IH true Ht Hst). intros _.
    destruct t as [|d r]; [exact I|].
    cbn [forallb] in Ht. apply andb_true_iff in Ht as [Hd _].
    destruct (isspace d) eqn:Ed; [|reflexivity].
    rewrite (clean_space d Hd Ed) in Hs. discriminate.
  - f_equal. apply (IH false Ht Hst). discriminate.
Qed.

(** On a clean, trimmed text [clean_text] only collapses the runs of
    spaces. *)
Lemma clean_text_clean s :
  forallb is_clean_char s = true -> trimmed s = true ->
  clean_text s = collapse_spaces s false.
Proof.
  intros Hc Ht. rewrite clean_text_eq.
  rewrite blank_special_id by (apply collapse_spaces_clean, Hc).
  apply trimmed_strip, collapse_spaces_trimmed, Ht.
Qed.

(** X4.  One pass of [clean_text] can leave several spaces in a row, where a
    special character stood between spaces; a second pass removes them,
    and from then on the text is a fixed point: it is single-spaced, and
    cleaning it again changes nothing. *)
Theorem clean_text_second_pass (text : str) :
  single_spaced (clean_text (clean_text text)) = true
  /\ clean_text (clean_text (clean_text text))
     = clean_text (clean_text text).
Proof.
  destruct (clean_text_spec text) as (Hc & Ht & _).
  rewrite (clean_text_clean _ Hc Ht).
  destruct (collapse_spaces_single (clean_text text) false) as [Hs _].
  split; [exact Hs|].
  rewrite clean_text_clean.
  - apply collapse_spaces_id; [apply collapse_spaces_clean, Hc | exact Hs|].
    discriminate.
  - apply collapse_spaces_clean, Hc.
  - apply collapse_spaces_trimmed, Ht.
Qed.

Lemma clean_text_not_idempotent :
  clean_text (lit "a @ b") = lit "a   b"
  /\ clean_text (lit "a   b") = lit "a b".
Proof. split; reflexivity. Qed.

(** ** [split_into_sentences] *)

Lemma split_sentences_aux_nonempty s cur m :
  split_sentences_aux s cur m <> [].
Proof.
  revert cur m. induction s as [|c t IH]; intros cur m; [discriminate|].
  cbn [split_sentences_aux].
  destruct m; destruct (isspace c); try discriminate; apply IH.
Qed.

Lemma last_char_rev c cur : last_char (rev (c :: cur)) = Some c.
Proof. cbn [rev]. apply last_char_app. Qed.

Lemma mode_after_end c : mode_after c = AfterEnd -> is_sentence_end c = true.
Proof. unfold mode_after. destruct (is_sentence_end c); [auto|discriminate]. Qed.

Lemma mode_after_gap c : mode_after c <> InGap.
Proof. unfold mode_after. destruct (is_sentence_end c); discriminate. Qed.

(** Every piece but the last ends with [.], [!] or [?]. *)
Lemma split_sentences_aux_ends s cur m :
  (m = AfterEnd -> ends_sentence (rev cur) = true) ->
  all_but_last ends_sentence (split_sentences_aux s cur m) = true.
Proof.
  revert cur m. induction s as [|c t IH]; intros cur m Hm; [reflexivity|].
  assert (Hnext : all_but_last ends_sentence
                    (split_sentences_aux t (c :: cur) (mode_after c)) = true).
  { apply IH. intros E. apply mode_after_end in E.
    unfold ends_sentence. rewrite last_char_rev. exact E. }
  cbn [split_sentences_aux].
  destruct m.
  - exact Hnext.
  - destruct (isspace c); [|exact Hnext].
    cbn [all_but_last].
    pose proof (split_sentences_aux_nonempty t [] InGap) as Hne.
    destruct (split_sentences_aux t [] InGap) as [|x r] eqn:E;
      [congruence|].
    rewrite (Hm eq_refl). rewrite <- E. apply IH. discriminate.
  - destruct (isspace c); [|exact Hnext]. apply IH. discriminate.
Qed.

Lemma all_but_last_filter {A} (p q : A -> bool) l :
  all_but_last p l = true -> all_but_last p (List.filter q l) = true.
Proof.
  induction l as [|x t IH]; [reflexivity|].
  intros H.
  assert (Ht : all_but_last p t = true).
  { destruct t as [|y r]; [reflexivity|].
    cbn [all_but_last] in H. apply andb_true_iff in H. tauto. }
  cbn [List.filter]. destruct (q x); [|apply IH, Ht].
  specialize (IH Ht). cbn [all_but_last].
  destruct (List.filter q t) as [|y r] eqn:E; [reflexivity|].
  rewrite IH, andb_true_r.
  destruct t as [|z u]; [discriminate|].
  cbn [all_but_last] in H. apply andb_true_iff in H. tauto.
Qed.

Lemma all_but_last_map {A B} (p : A -> bool) (q : B -> bool) (f : A -> B) l :
  (forall x, p x = true -> q (f x) = true) ->
  all_but_last p l = true -> all_but_last q (map f l) = true.
Proof.
  intros Hf. induction l as [|x t IH]; [reflexivity|].
  destruct t as [|y r]; [reflexivity|].
  intros H. cbn [all_but_last] in H. apply andb_true_iff in H as [Hx Ht].
  change (map f (x :: y :: r)) with (f x :: map f (y :: r)).
  cbn [all_but_last]. cbn [map]. cbn [map] in IH.
  rewrite (Hf x Hx). apply IH, Ht.
Qed.

Lemma lstrip_last p s c :
  last_char s = Some c -> p c = false -> last_char (lstrip p s) = Some c.
Proof.
  induction s as [|x t IH]; [discriminate|].
  destruct t as [|y r].
  - cbn. intros [= ->] H. rewrite H. reflexivity.
  - rewrite last_char_cons by discriminate. intros H Hc.
    cbn [lstrip]. destruct (p x); [apply IH; assumption|].
    rewrite last_char_cons by discriminate. exact H.
Qed.

Lemma sentence_end_not_space c : is_sentence_end c = true -> isspace c = false.
Proof.
  destruct c as [[] [] [] [] [] [] [] []]; vm_compute; congruence.
Qed.

Lemma strip_ends_sentence s :
  ends_sentence s = true -> ends_sentence (strip s) = true.
Proof.
  unfold ends_sentence. destruct (last_char s) as [c|] eqn:E; [|discriminate].
  intros Hc. unfold strip.
  pose proof (lstrip_last isspace s c E (sentence_end_not_space c Hc)) as Hl.
  rewrite rstrip_id; rewrite Hl; [exact Hc|].
  apply sentence_end_not_space, Hc.
Qed.

(** X5.  The sentences that [split_into_sentences] returns are not empty and
    carry no white space at either end, and every sentence but the last
    ends with a full stop, an exclamation mark or a question mark. *)
Theorem split_into_sentences_spec (text : str) :
  Forall (fun s => is_empty s = false /\ trimmed s = true)
         (split_into_sentences text)
  /\ all_but_last ends_sentence (split_into_sentences text) = true.
Proof.
  unfold split_into_sentences. split.
  - apply List.Forall_forall. intros s Hs.
    apply in_map_iff in Hs as (s0 & <- & Hs0).
    apply filter_In in Hs0 as [_ Hne].
    split; [apply negb_true_iff, Hne | apply strip_trimmed].
  - apply (all_but_last_map ends_sentence); [apply strip_ends_sentence|].
    apply all_but_last_filter. apply split_sentences_aux_ends. discriminate.
Qed.

(** ** [chunk_content] *)

Lemma split_ws_aux_word w rest cur :
  forallb (fun c => negb (isspace c)) w = true ->
  split_ws_aux (w ++ rest) cur = split_ws_aux rest (rev w ++ cur).
Proof.
  revert cur. induction w as [|c t IH]; intros cur H; [reflexivity|].
  cbn [forallb] in H. apply andb_true_iff in H as [Hc Ht].
  apply negb_false_eq in Hc.
  cbn [app split_ws_aux]. rewrite Hc, (IH _ Ht).
  cbn [rev]. rewrite <- app_assoc. reflexivity.
Qed.

Lemma is_word_spec w :
  is_word w = true ->
  w <> [] /\ forallb (fun c => negb (isspace c)) w = true.
Proof.
  unfold is_word. intros H. apply andb_true_iff in H as [H1 H2].
  split; [|exact H2]. destruct w; [discriminate | discriminate].
Qed.

Lemma rev_nonempty {A} (l : list A) : l <> [] -> rev l <> [].
Proof.
  intros H E. apply H. apply (f_equal (@rev A)) in E.
  rewrite rev_involutive in E. exact E.
Qed.

(** Splitting the words joined by single spaces gives the words back. *)
Lemma split_ws_join ws :
  forallb is_word ws = true -> split_ws (join (lit " ") ws) = ws.
Proof.
  unfold split_ws. induction ws as [|w t IH]; [reflexivity|].
  intros H. cbn [forallb] in H. apply andb_true_iff in H as [Hw Ht].
  destruct (is_word_spec w Hw) as [Hne Hns].
  destruct t as [|w' t'].
  - cbn [join]. rewrite <- (app_nil_r w) at 1.
    rewrite (split_ws_aux_word w [] [] Hns), app_nil_r.
    cbn [split_ws_aux].
    destruct (rev w) eqn:E; [apply rev_nonempty in E; [destruct E|exact Hne]|].
    rewrite <- E, rev_involutive. reflexivity.
  - change (join (lit " ") (w :: w' :: t'))
      with (w ++ lit " " ++ join (lit " ") (w' :: t')).
    rewrite (split_ws_aux_word w _ [] Hns), app_nil_r.
    cbn [lit list_ascii_of_string app split_ws_aux].
    change (isspace " ") with true. cbv iota.
    destruct (rev w) eqn:E; [apply rev_nonempty in E; [destruct E|exact Hne]|].
    rewrite <- E, rev_involutive. f_equal. apply IH, Ht.
Qed.

Lemma forallb_rev {A} (p : A -> bool) l : forallb p (rev l) = forallb p l.
Proof.
  induction l as [|x t IH]; [reflexivity|].
  cbn [rev forallb]. rewrite forallb_app, IH. cbn [forallb].
  rewrite andb_true_r. apply andb_comm.
Qed.

Lemma split_ws_aux_words s cur :
  forallb (fun c => negb (isspace c)) cur = true ->
  forallb is_word (split_ws_aux s cur) = true.
Proof.
  revert cur. induction s as [|c t IH]; intros cur Hcur.
  - cbn [split_ws_aux]. destruct cur as [|x r] eqn:E; [reflexivity|].
    cbn [forallb]. rewrite andb_true_r. rewrite <- E in *.
    unfold is_word. rewrite forallb_rev, Hcur, andb_true_r.
    destruct (rev cur) eqn:Er; [|reflexivity].
    apply rev_nonempty in Er; [destruct Er | subst; discriminate].
  - cbn [split_ws_aux]. destruct (isspace c) eqn:Ec.
    + destruct cur as [|x r] eqn:E; [apply IH; reflexivity|].
      cbn [forallb]. rewrite IH by reflexivity. rewrite andb_true_r.
      rewrite <- E in *.
      unfold is_word. rewrite forallb_rev, Hcur, andb_true_r.
      destruct (rev cur) eqn:Er; [|reflexivity].
      apply rev_nonempty in Er; [destruct Er | subst; discriminate].
    + apply IH. cbn [forallb]. rewrite Ec. exact Hcur.
Qed.

Lemma split_ws_words s : forallb is_word (split_ws s) = true.
Proof. apply split_ws_aux_words. reflexivity. Qed.

Lemma chunk_loop_words n words cur size :
  forallb is_word (cur ++ words) = true ->
  flat_map split_ws (chunk_loop n words cur size) = cur ++ words.
Proof.
  revert cur size. induction words as [|w rest IH]; intros cur size H.
  - cbn [chunk_loop]. rewrite app_nil_r in *.
    destruct cur as [|x r] eqn:E; [reflexivity|].
    cbn [flat_map]. rewrite app_nil_r. apply split_ws_join, H.
  - cbn [chunk_loop].
    assert (H' : forallb is_word ((cur ++ [w]) ++ rest) = true)
      by (rewrite <- app_assoc; exact H).
    destruct (n <=? size + Z.of_nat (length w) + 1)%Z.
    + cbn [flat_map]. rewrite forallb_app in H'.
      apply andb_true_iff in H' as [H1 H2].
      rewrite (split_ws_join _ H1), (IH [] 0%Z H2).
      rewrite <- app_assoc. reflexivity.
    + rewrite (IH _ _ H'), <- app_assoc. reflexivity.
Qed.

(** X6.  The chunks hold the words of the content, all of them and in their
    order: no word is lost, repeated or cut. *)
Theorem chunk_content_words (content : str) (chunk_size : Z) :
  flat_map split_ws (chunk_content content chunk_size) = split_ws content.
Proof.
  unfold chunk_content.
  apply (chunk_loop_words chunk_size (split_ws content) [] 0%Z).
  apply split_ws_words.
Qed.

Lemma size_of_app a b : size_of (a ++ b) = (size_of a + size_of b)%Z.
Proof.
  unfold size_of. induction a as [|w t IH]; cbn [app fold_right]; [lia|].
  rewrite IH. lia.
Qed.

Lemma join_length ws :
  ws <> [] ->
  (Z.of_nat (length (join (lit " ") ws)) + 1 = size_of ws)%Z.
Proof.
  induction ws as [|w t IH]; [congruence|]. intros _.
  destruct t as [|w' t'].
  - cbn. lia.
  - change (join (lit " ") (w :: w' :: t'))
      with (w ++ lit " " ++ join (lit " ") (w' :: t')).
    rewrite !length_app. specialize (IH ltac:(discriminate)).
    unfold size_of in *. cbn [fold_right] in *.
    change (length (lit " ")) with 1. lia.
Qed.

Lemma join_nonempty ws :
  forallb is_word ws = true -> ws <> [] ->
  is_empty (join (lit " ") ws) = false.
Proof.
  destruct ws as [|w t]; [congruence|]. intros H _.
  cbn [forallb] in H. apply andb_true_iff in H as [Hw _].
  destruct (is_word_spec w Hw) as [Hne _].
  destruct w as [|c r]; [congruence|]. destruct t; reflexivity.
Qed.

Lemma chunk_loop_sizes n words cur size :
  forallb is_word (cur ++ words) = true -> size = size_of cur ->
  forallb (fun c => negb (is_empty c)) (chunk_loop n words cur size) = true
  /\ all_but_last (fun c => (n <=? Z.of_nat (length c) + 1)%Z)
                  (chunk_loop n words cur size) = true.
Proof.
  revert cur size. induction words as [|w rest IH]; intros cur size H Hsz.
  - cbn [chunk_loop]. rewrite app_nil_r in H.
    destruct cur as [|x r] eqn:E; [split; reflexivity|].
    split; [|reflexivity]. cbn [forallb].
    rewrite join_nonempty; [reflexivity | exact H | discriminate].
  - cbn [chunk_loop].
    assert (H' : forallb is_word ((cur ++ [w]) ++ rest) = true)
      by (rewrite <- app_assoc; exact H).
    assert (Hsz' : (size + Z.of_nat (length w) + 1)%Z = size_of (cur ++ [w])).
    { rewrite size_of_app, Hsz. cbn. lia. }
    destruct (n <=? size + Z.of_nat (length w) + 1)%Z eqn:E.
    + pose proof H' as H''. rewrite forallb_app in H''.
      apply andb_true_iff in H'' as [H1 H2].
      destruct (IH [] 0%Z H2 eq_refl) as [IH1 IH2].
      assert (Hne : cur ++ [w] <> []) by (destruct cur; discriminate).
      split.
      * cbn [forallb]. rewrite IH1, join_nonempty; auto.
      * cbn [all_but_last]. rewrite IH2, andb_true_r.
        destruct (chunk_loop n rest [] 0); [reflexivity|].
        rewrite join_length by exact Hne. rewrite <- Hsz'. exact E.
    + apply (IH _ _ H' Hsz').
Qed.

Lemma chunk_loop_small n words :
  (n <= 1)%Z -> forallb is_word words = true ->
  chunk_loop n words [] 0 = words.
Proof.
  intros Hn. induction words as [|w rest IH]; [reflexivity|].
  intros H. cbn [forallb] in H. apply andb_true_iff in H as [_ Hr].
  cbn [chunk_loop app].
  assert (E : (n <=? 0 + Z.of_nat (length w) + 1)%Z = true)
    by (apply Z.leb_le; lia).
  rewrite E, (IH Hr). reflexivity.
Qed.

(** X7.  No chunk is empty; every chunk but the last is, with the space that
    follows it, at least [chunk_size] characters long; and with a
    [chunk_size] of 1 or less every word is a chunk of its own. *)
Theorem chunk_content_sizes (content : str) (chunk_size : Z) :
  forallb (fun c => negb (is_empty c)) (chunk_content content chunk_size)
  = true
  /\ all_but_last (fun c => (chunk_size <=? Z.of_nat (length c) + 1)%Z)
                  (chunk_content content chunk_size) = true
  /\ ((chunk_size <= 1)%Z ->
      chunk_content content chunk_size = split_ws content).
Proof.
  unfold chunk_content.
  destruct (chunk_loop_sizes chunk_size (split_ws content) [] 0%Z)
    as [H1 H2]; [apply split_ws_words | reflexivity|].
  split; [exact H1|]. split; [exact H2|].
  intros Hn. apply chunk_loop_small; [exact Hn | apply split_ws_words].
Qed.

End UtilsTextFacts.

(** ** utils.py: [merge_dicts] *)

Module MergeDictsFacts.
Import PyStr PyStrFacts MergeDicts.

(** What a call may do to the objects that exist: a dictionary stays as
    it is, a list or a set can only gain members, and objects are only
    added. *)
Definition grows (s s' : store) : Prop :=
  forall a o, s !! a = Some o ->
    match o with
    | DictObj e => s' !! a = Some (DictObj e)
    | ListObj x => exists y, s' !! a = Some (ListObj (x ++ y))
    | SetObj x => exists y, s' !! a = Some (SetObj (x ∪ y))
    end.

(** A value that the recursion can take: an atom, a list, a set, or a
    dictionary for which [within] holds; a reference must lead to an
    object. *)
Definition value_within (within : nat -> bool) (s : store) (v : value)
    : bool :=
  match v with
  | Atom _ => true
  | Ref b =>
      match s !! b with
      | Some (DictObj _) => within b
      | Some _ => true
      | None => false
      end
  end.

(** The dictionary at [a] holds dictionaries inside dictionaries at most
    [n] levels deep, itself included. *)
Fixpoint nested_within (n : nat) (s : store) (a : nat) : bool :=
  match n with
  | O => false
  | S n' =>
      match s !! a with
      | Some (DictObj e) =>
          forallb (fun kv => value_within (nested_within n' s) s (snd kv)) e
      | _ => false
      end
  end.

(** The keys of [result] after the loop: those it had, then the new keys
    of the items, each once, in their order. *)
Fixpoint new_keys (known : list str) (keys : list str) : list str :=
  match keys with
  | [] => []
  | k :: t =>
      if existsb (str_eqb k) known then new_keys known t
      else k :: new_keys (known ++ [k]) t
  end.

(** Two dictionaries that share the keys ["tags"], ["name"] and ["meta"]:
    [{"tags": [1], "name": 7, "meta": {"lang": 1}}] at address 0 and
    [{"tags": [2], "size": 9, "name": 8, "meta": {"lang": 2, "ver": 3}}]
    at address 2. *)
Definition tags_store : store :=
  [ DictObj [(lit "tags", Ref 1); (lit "name", Atom 7); (lit "meta", Ref 4)];
    ListObj [Atom 1];
    DictObj [(lit "tags", Ref 3); (lit "size", Atom 9); (lit "name", Atom 8);
             (lit "meta", Ref 5)];
    ListObj [Atom 2];
    DictObj [(lit "lang", Atom 1)];
    DictObj [(lit "lang", Atom 2); (lit "ver", Atom 3)] ].

Lemma grows_refl s : grows s s.
Proof.
  intros a [x|x|e] H; [exists [] | exists ∅ |];
    rewrite ?app_nil_r, ?union_empty_r_L; exact H.
Qed.

Lemma grows_trans s1 s2 s3 : grows s1 s2 -> grows s2 s3 -> grows s1 s3.
Proof.
  intros H12 H23 a o Ho. specialize (H12 a o Ho).
  destruct o as [x|x|e].
  - destruct H12 as [y Hy]. destruct (H23 _ _ Hy) as [z Hz].
    exists (y ++ z). rewrite app_assoc. exact Hz.
  - destruct H12 as [y Hy]. destruct (H23 _ _ Hy) as [z Hz].
    exists (y ∪ z). rewrite (assoc_L (∪)). exact Hz.
  - apply (H23 _ _ H12).
Qed.

Lemma grows_extend s a x y :
  s !! a = Some (ListObj x) -> grows s (<[a := ListObj (x ++ y)]> s).
Proof.
  intros Ha b o Ho. destruct (decide (a = b)) as [<-|Hne].
  - rewrite Ha in Ho. injection Ho as <-. exists y.
    apply list_lookup_insert_eq. apply lookup_lt_Some in Ha. exact Ha.
  - pose proof (grows_refl s b o Ho) as H.
    destruct o as [z|z|e]; [destruct H as [w H]; exists w
                           |destruct H as [w H]; exists w|];
      rewrite list_lookup_insert_ne by exact Hne; exact H.
Qed.

Lemma grows_update s a x y :
  s !! a = Some (SetObj x) -> grows s (<[a := SetObj (x ∪ y)]> s).
Proof.
  intros Ha b o Ho. destruct (decide (a = b)) as [<-|Hne].
  - rewrite Ha in Ho. injection Ho as <-. exists y.
    apply list_lookup_insert_eq. apply lookup_lt_Some in Ha. exact Ha.
  - pose proof (grows_refl s b o Ho) as H.
    destruct o as [z|z|e]; [destruct H as [w H]; exists w
                           |destruct H as [w H]; exists w|];
      rewrite list_lookup_insert_ne by exact Hne; exact H.
Qed.

Lemma grows_alloc s o : grows s (fst (alloc s o)).
Proof.
  intros a o' Ho. cbn [alloc fst].
  assert (H : (s ++ [o]) !! a = Some o')
    by (apply lookup_app_l_Some, Ho).
  destruct o' as [x|x|e]; [exists [] | exists ∅ |];
    rewrite ?app_nil_r, ?union_empty_r_L; exact H.
Qed.

Lemma merge_loop_grows merge s result items s' result' :
  (forall s0 a b s1 r, merge s0 a b = Some (s1, r) -> grows s0 s1) ->
  merge_loop merge s result items = Some (s', result') -> grows s s'.
Proof.
  intros Hm. revert s result.
  induction items as [|[key v] rest IH]; intros s result;
    cbn [merge_loop].
  - intros [= <- _]. apply grows_refl.
  - destruct (dict_find result key) as [current|]; [|apply IH].
    destruct current as [z|a]; [apply IH|].
    destruct v as [z|b]; [apply IH|].
    destruct (s !! a) as [[x|x|e]|] eqn:Ea; [| | |apply IH].
    + destruct (s !! b) as [[y|y|e']|]; try apply IH.
      intros H. apply IH in H.
      apply (grows_trans _ _ _ (grows_extend s a x y Ea) H).
    + destruct (s !! b) as [[y|y|e']|]; try apply IH.
      intros H. apply IH in H.
      apply (grows_trans _ _ _ (grows_update s a x y Ea) H).
    + destruct (s !! b) as [[y|y|e']|]; try apply IH.
      destruct (merge s a b) as [[s1 r]|] eqn:Em; [|discriminate].
      intros H. apply IH in H.
      apply (grows_trans _ _ _ (Hm _ _ _ _ _ Em) H).
Qed.

Lemma merge_dicts_grows fuel :
  forall s a b s' r, merge_dicts fuel s a b = Some (s', r) -> grows s s'.
Proof.
  induction fuel as [|fuel IH]; intros s a b s' r; [discriminate|].
  cbn [merge_dicts].
  destruct (s !! a) as [[x|x|e1]|]; try discriminate.
  destruct (s !! b) as [[y|y|e2]|]; try discriminate.
  destruct (merge_loop _ s e1 e2) as [[s1 result]|] eqn:El; [|discriminate].
  intros [= <- _].
  apply (grows_trans _ s1); [|apply (grows_alloc s1)].
  apply (merge_loop_grows _ _ _ _ _ _ IH El).
Qed.

(** ** The keys of the result *)

Lemma dict_assign_keys d key v :
  map fst (dict_assign d key v)
  = if existsb (str_eqb key) (map fst d) then map fst d
    else map fst d ++ [key].
Proof.
  induction d as [|[k v0] t IH]; [reflexivity|].
  cbn [dict_assign map fst existsb].
  destruct (str_eqb k key) eqn:E.
  - apply str_eqb_eq in E. subst k. rewrite str_eqb_refl. reflexivity.
  - assert (E' : str_eqb key k = false).
    { destruct (str_eqb key k) eqn:E'; [|reflexivity].
      apply str_eqb_eq in E'. subst. rewrite str_eqb_refl in E.
      discriminate. }
    rewrite E'. cbn [orb map fst]. rewrite IH.
    destruct (existsb _ _); reflexivity.
Qed.

Lemma dict_find_keys d key :
  existsb (str_eqb key) (map fst d)
  = match dict_find d key with Some _ => true | None => false end.
Proof.
  induction d as [|[k v] t IH]; [reflexivity|].
  cbn [map fst existsb dict_find].
  destruct (str_eqb k key) eqn:E.
  - apply str_eqb_eq in E. subst k. rewrite str_eqb_refl. reflexivity.
  - assert (E' : str_eqb key k = false).
    { destruct (str_eqb key k) eqn:E'; [|reflexivity].
      apply str_eqb_eq in E'. subst. rewrite str_eqb_refl in E.
      discriminate. }
    rewrite E'. exact IH.
Qed.

Lemma merge_loop_keys merge s result items s' result' :
  merge_loop merge s result items = Some (s', result') ->
  map fst result'
  = map fst result ++ new_keys (map fst result) (map fst items).
Proof.
  revert s result. induction items as [|[key v] rest IH]; intros s result;
    cbn [merge_loop map fst new_keys].
  - intros [= _ <-]. rewrite app_nil_r. reflexivity.
  - rewrite dict_find_keys.
    assert (Hassign : forall w,
              dict_find result key <> None ->
              map fst (dict_assign result key w) = map fst result).
    { intros w Hf. rewrite dict_assign_keys, dict_find_keys.
      destruct (dict_find result key); [reflexivity | congruence]. }
    destruct (dict_find result key) as [current|] eqn:Ef.
    + assert (Hne : Some current <> None) by discriminate.
      destruct current as [z|a];
        [intros H; apply IH in H; rewrite Hassign in H by exact Hne;
         exact H|].
      destruct v as [z|b];
        [intros H; apply IH in H; rewrite Hassign in H by exact Hne;
         exact H|].
      destruct (s !! a) as [[x|x|e]|];
        destruct (s !! b) as [[y|y|e']|];
        try (intros H; apply IH in H; rewrite ?Hassign in H by exact Hne;
             exact H).
      destruct (merge s a b) as [[s1 r]|]; [|discriminate].
      intros H. apply IH in H. rewrite Hassign in H by exact Hne. exact H.
    + intros H. apply IH in H. rewrite map_app in H. cbn [map fst] in H.
      rewrite H, <- app_assoc. reflexivity.
Qed.

Lemma str_eqb_neq a b : a <> b -> str_eqb a b = false.
Proof.
  intros H. destruct (str_eqb a b) eqn:E; [|reflexivity].
  apply str_eqb_eq in E. contradiction.
Qed.

Lemma new_keys_filter known keys :
  List.NoDup keys ->
  new_keys known keys
  = List.filter (fun k => negb (existsb (str_eqb k) known)) keys.
Proof.
  intros Hnd. revert known.
  induction Hnd as [|k t Hk Hnd IH]; intros known; [reflexivity|].
  cbn [new_keys List.filter].
  destruct (existsb (str_eqb k) known) eqn:E; cbn [negb]; [apply IH|].
  f_equal. rewrite IH. apply filter_ext_in. intros j Hj.
  rewrite existsb_app. cbn [existsb]. rewrite orb_false_r.
  rewrite str_eqb_neq; [rewrite orb_false_r; reflexivity|].
  intros ->. contradiction.
Qed.

(** ** The values of the result *)

Lemma dict_find_assign_eq d key v :
  dict_find (dict_assign d key v) key = Some v.
Proof.
  induction d as [|[k v0] t IH]; cbn [dict_assign dict_find].
  - rewrite str_eqb_refl. reflexivity.
  - destruct (str_eqb k key) eqn:E; cbn [dict_find]; rewrite E;
      [reflexivity | exact IH].
Qed.

Lemma dict_find_assign_ne d k v key :
  key <> k -> dict_find (dict_assign d k v) key = dict_find d key.
Proof.
  intros Hne. induction d as [|[k0 v0] t IH]; cbn [dict_assign dict_find].
  - rewrite str_eqb_neq by congruence. reflexivity.
  - destruct (str_eqb k0 k) eqn:E; cbn [dict_find].
    + apply str_eqb_eq in E. subst k0.
      rewrite str_eqb_neq by congruence. reflexivity.
    + rewrite IH. reflexivity.
Qed.

Lemma dict_find_app d k v key :
  dict_find (d ++ [(k, v)]) key
  = match dict_find d key with
    | Some w => Some w
    | None => if str_eqb k key then Some v else None
    end.
Proof.
  induction d as [|[k0 v0] t IH]; cbn [app dict_find]; [reflexivity|].
  destruct (str_eqb k0 key); [reflexivity | exact IH].
Qed.

Lemma dict_find_None d key :
  dict_find d key = None <-> ~ In key (map fst d).
Proof.
  induction d as [|[k v] t IH]; cbn [dict_find map fst In]; [tauto|].
  destruct (str_eqb k key) eqn:E.
  - apply str_eqb_eq in E. split; [discriminate | tauto].
  - rewrite IH. split; [|tauto]. intros H [->|Hin]; [|tauto].
    rewrite str_eqb_refl in E. discriminate.
Qed.

Section LoopFacts.

Variable merge : store -> nat -> nat -> option (store * nat).
Hypothesis merge_grows :
  forall s a b s' r, merge s a b = Some (s', r) -> grows s s'.

(** One turn of the loop touches one key. *)
Lemma merge_step s result k v rest s' result' :
  merge_loop merge s result ((k, v) :: rest) = Some (s', result') ->
  exists s1 result1,
    grows s s1
    /\ (forall key, key <> k -> dict_find result1 key = dict_find result key)
    /\ merge_loop merge s1 result1 rest = Some (s', result').
Proof.
  cbn [merge_loop].
  assert (Hassign : forall w,
            merge_loop merge s (dict_assign result k w) rest
            = Some (s', result') ->
            exists s1 result1,
              grows s s1
              /\ (forall key, key <> k ->
                              dict_find result1 key = dict_find result key)
              /\ merge_loop merge s1 result1 rest = Some (s', result')).
  { intros w H. exists s, (dict_assign result k w).
    split; [apply grows_refl|]. split; [|exact H].
    intros key Hne. apply dict_find_assign_ne, Hne. }
  destruct (dict_find result k) as [current|] eqn:Ef.
  - destruct current as [z|a]; [apply Hassign|].
    destruct v as [z|b]; [apply Hassign|].
    destruct (s !! a) as [[x|x|e]|] eqn:Ea; [| | |apply Hassign].
    + destruct (s !! b) as [[y|y|e']|]; try apply Hassign.
      intros H. exists (<[a := ListObj (x ++ y)]> s), result.
      split; [apply grows_extend, Ea|]. split; [reflexivity | exact H].
    + destruct (s !! b) as [[y|y|e']|]; try apply Hassign.
      intros H. exists (<[a := SetObj (x ∪ y)]> s), result.
      split; [apply grows_update, Ea|]. split; [reflexivity | exact H].
    + destruct (s !! b) as [[y|y|e']|]; try apply Hassign.
      destruct (merge s a b) as [[s1 r]|] eqn:Em; [|discriminate].
      intros H. exists s1, (dict_assign result k (Ref r)).
      split; [apply (merge_grows _ _ _ _ _ Em)|]. split; [|exact H].
      intros key Hne. apply dict_find_assign_ne, Hne.
  - intros H. exists s, (result ++ [(k, v)]).
    split; [apply grows_refl|]. split; [|exact H].
    intros key Hne. rewrite dict_find_app.
    rewrite str_eqb_neq by congruence. destruct (dict_find result key);
      reflexivity.
Qed.

(** A key that the items do not have keeps its value. *)
Lemma merge_loop_other s result items s' result' key :
  ~ In key (map fst items) ->
  merge_loop merge s result items = Some (s', result') ->
  dict_find result' key = dict_find result key.
Proof.
  revert s result. induction items as [|[k v] rest IH]; intros s result Hk.
  - intros [= _ <-]. reflexivity.
  - intros H. apply merge_step in H.
    destruct H as (s1 & result1 & _ & Hfind & H).
    cbn [map fst In] in Hk.
    rewrite (IH s1 result1) by tauto.
    apply Hfind. intros ->. tauto.
Qed.

(** The state of the loop when it reaches a key of the items. *)
Lemma merge_loop_split s result items s' result' key v :
  List.NoDup (map fst items) ->
  dict_find items key = Some v ->
  merge_loop merge s result items = Some (s', result') ->
  exists s0 result0 rest,
    grows s s0
    /\ dict_find result0 key = dict_find result key
    /\ ~ In key (map fst rest)
    /\ merge_loop merge s0 result0 ((key, v) :: rest) = Some (s', result').
Proof.
  revert s result.
  induction items as [|[k w] rest IH]; intros s result Hnd Hf H;
    [discriminate|].
  cbn [dict_find] in Hf. cbn [map fst] in Hnd.
  apply List.NoDup_cons_iff in Hnd. destruct Hnd as [Hk Hnd].
  destruct (str_eqb k key) eqn:E.
  - apply str_eqb_eq in E. subst k. injection Hf as ->.
    exists s, result, rest. split; [apply grows_refl|].
    split; [reflexivity|]. split; [exact Hk | exact H].
  - apply merge_step in H. destruct H as (s1 & result1 & Hg & Hfind & H).
    destruct (IH s1 result1 Hnd Hf H)
      as (s0 & result0 & rest0 & Hg0 & Hf0 & Hrest & H0).
    exists s0, result0, rest0.
    split; [apply (grows_trans _ _ _ Hg Hg0)|].
    split; [|split; [exact Hrest | exact H0]].
    rewrite Hf0. apply Hfind. intros ->.
    rewrite str_eqb_refl in E. discriminate.
Qed.

End LoopFacts.

Lemma merge_dicts_unfold fuel s dict1 dict2 s' r :
  merge_dicts fuel s dict1 dict2 = Some (s', r) ->
  exists fuel' entries1 entries2 s1 result,
    fuel = S fuel'
    /\ s !! dict1 = Some (DictObj entries1)
    /\ s !! dict2 = Some (DictObj entries2)
    /\ merge_loop (merge_dicts fuel') s entries1 entries2
       = Some (s1, result)
    /\ s' = s1 ++ [DictObj result] /\ r = length s1.
Proof.
  destruct fuel as [|fuel']; [discriminate|]. cbn [merge_dicts].
  destruct (s !! dict1) as [[x|x|e1]|]; try discriminate.
  destruct (s !! dict2) as [[y|y|e2]|]; try discriminate.
  destruct (merge_loop _ s e1 e2) as [[s1 result]|] eqn:El; [|discriminate].
  unfold alloc. intros [= <- <-].
  exists fuel', e1, e2, s1, result. tauto.
Qed.

Lemma grows_length s s' : grows s s' -> length s <= length s'.
Proof.
  intros Hg. destruct (decide (length s <= length s')) as [Hle|Hgt];
    [exact Hle|].
  exfalso. destruct (lookup_lt_is_Some_2 s (length s')) as [o Ho]; [lia|].
  specialize (Hg _ _ Ho).
  assert (Hsome : is_Some (s' !! length s'))
    by (destruct o; [destruct Hg as [? ->] | destruct Hg as [? ->]
                    | rewrite Hg]; eexists; reflexivity).
  apply lookup_lt_is_Some_1 in Hsome. lia.
Qed.

Lemma merge_dicts_fresh fuel s dict1 dict2 s' r :
  merge_dicts fuel s dict1 dict2 = Some (s', r) ->
  length s <= r /\ exists result, s' !! r = Some (DictObj result).
Proof.
  intros H. apply merge_dicts_unfold in H.
  destruct H as (fuel' & e1 & e2 & s1 & result & -> & _ & _ & Hl & -> & ->).
  split.
  - apply grows_length.
    apply (merge_loop_grows _ _ _ _ _ _ (merge_dicts_grows fuel') Hl).
  - exists result. rewrite lookup_app_r by lia.
    rewrite Nat.sub_diag. reflexivity.
Qed.

Lemma tags_store_keys :
  List.NoDup (map fst [(lit "tags", Ref 3); (lit "size", Atom 9);
                       (lit "name", Atom 8); (lit "meta", Ref 5)]).
Proof.
  repeat (apply List.NoDup_cons;
          [cbn [map fst In]; intros H;
           repeat (destruct H as [H|H]; [discriminate H|]); exact H|]).
  apply List.NoDup_nil.
Qed.

(** X8.  When [merge_dicts(dict1, dict2)] returns, the result is a new
    dictionary.  Its keys are those of [dict1] followed by the keys of
    [dict2] that [dict1] lacks, in the order of [dict2].  No dictionary
    that existed before the call is changed, so [dict1] and [dict2] keep
    their entries, and no list or set loses a member. *)
Theorem merge_dicts_keys (fuel : nat) (s : store) (dict1 dict2 : nat)
    (entries1 entries2 : list (str * value)) (s' : store) (r : nat) :
  s !! dict1 = Some (DictObj entries1) ->
  s !! dict2 = Some (DictObj entries2) ->
  List.NoDup (map fst entries2) ->
  merge_dicts fuel s dict1 dict2 = Some (s', r) ->
  s !! r = None
  /\ grows s s'
  /\ exists result,
       s' !! r = Some (DictObj result)
       /\ map fst result
          = map fst entries1
            ++ List.filter
                 (fun k => negb (existsb (str_eqb k) (map fst entries1)))
                 (map fst entries2).
Proof.
  intros H1 H2 Hnd H. pose proof (merge_dicts_grows _ _ _ _ _ _ H) as Hg.
  destruct (merge_dicts_fresh _ _ _ _ _ _ H) as [Hr _].
  apply merge_dicts_unfold in H.
  destruct H as (fuel' & e1 & e2 & s1 & result & -> & H1' & H2' & Hl
                 & -> & ->).
  rewrite H1 in H1'. injection H1' as <-.
  rewrite H2 in H2'. injection H2' as <-.
  split; [apply lookup_ge_None, Hr|]. split; [exact Hg|].
  exists result. split.
  - rewrite lookup_app_r by lia. rewrite Nat.sub_diag. reflexivity.
  - rewrite (merge_loop_keys _ _ _ _ _ _ Hl).
    rewrite new_keys_filter by exact Hnd. reflexivity.
Qed.

(** The values of a result, when there is one. *)
Lemma merge_dicts_result_values (fuel : nat) (s : store) (dict1 dict2 : nat)
    (entries1 entries2 : list (str * value)) (s' : store) (r : nat) :
  s !! dict1 = Some (DictObj entries1) ->
  s !! dict2 = Some (DictObj entries2) ->
  List.NoDup (map fst entries2) ->
  merge_dicts fuel s dict1 dict2 = Some (s', r) ->
  exists result,
    s' !! r = Some (DictObj result)
    /\ forall key,
         match dict_find entries1 key, dict_find entries2 key with
         | v1, None => dict_find result key = v1
         | None, Some v2 => dict_find result key = Some v2
         | Some (Atom _), Some v2 => dict_find result key = Some v2
         | Some (Ref _), Some (Atom z) => dict_find result key = Some (Atom z)
         | Some (Ref a), Some (Ref b) =>
             match s !! a, s !! b with
             | Some (ListObj _), Some (ListObj _)
             | Some (SetObj _), Some (SetObj _) =>
                 dict_find result key = Some (Ref a)
             | Some (DictObj _), Some (DictObj _) =>
                 exists fuel' s0 s1 r',
                   fuel = S fuel' /\ grows s s0
                   /\ merge_dicts fuel' s0 a b = Some (s1, r')
                   /\ grows s1 s'
                   /\ dict_find result key = Some (Ref r')
             | Some _, Some _ => dict_find result key = Some (Ref b)
             | _, _ => True
             end
         end.
Proof.
  intros H1 H2 Hnd H. apply merge_dicts_unfold in H.
  destruct H as (fuel' & e1 & e2 & s1 & result & -> & H1' & H2' & Hl
                 & -> & ->).
  rewrite H1 in H1'. injection H1' as <-.
  rewrite H2 in H2'. injection H2' as <-.
  exists result. split.
  { rewrite lookup_app_r by lia. rewrite Nat.sub_diag. reflexivity. }
  intros key. destruct (dict_find entries2 key) as [v2|] eqn:E2.
  - destruct (merge_loop_split _ (merge_dicts_grows fuel')
                _ _ _ _ _ _ _ Hnd E2 Hl)
      as (s0 & result0 & rest & Hg0 & Hf0 & Hrest & H0).
    assert (Hdone : forall st w,
              merge_loop (merge_dicts fuel') st
                (dict_assign result0 key w) rest = Some (s1, result) ->
              dict_find result key = Some w).
    { intros st w H.
      rewrite (merge_loop_other _ (merge_dicts_grows fuel')
                 _ _ _ _ _ _ Hrest H).
      apply dict_find_assign_eq. }
    cbn [merge_loop] in H0. rewrite Hf0 in H0.
    destruct (dict_find entries1 key) as [[z|a]|].
    + apply (Hdone _ _ H0).
    + destruct v2 as [z|b]; [apply (Hdone _ _ H0)|].
      destruct (s !! a) as [oa|] eqn:Ea; [|exact I].
      destruct (s !! b) as [ob|] eqn:Eb;
        [|destruct oa as [x|x|e]; exact I].
      pose proof (Hg0 _ _ Ea) as Ha0. pose proof (Hg0 _ _ Eb) as Hb0.
      destruct oa as [x|x|e]; destruct ob as [y|y|e'];
        repeat match goal with
               | H : exists _, _ |- _ => destruct H as [? H]
               end;
        rewrite Ha0, Hb0 in H0;
        try (apply (Hdone _ _ H0));
        try (rewrite (merge_loop_other _ (merge_dicts_grows fuel')
                        _ _ _ _ _ _ Hrest H0); exact Hf0).
      destruct (merge_dicts fuel' s0 a b) as [[s2 r']|] eqn:Em;
        [|discriminate].
      exists fuel', s0, s2, r'.
      split; [reflexivity|]. split; [exact Hg0|]. split; [exact Em|].
      split; [|apply (Hdone _ _ H0)].
      apply (grows_trans _ s1); [|apply (grows_alloc s1)].
      apply (merge_loop_grows _ _ _ _ _ _ (merge_dicts_grows fuel') H0).
    + rewrite (merge_loop_other _ (merge_dicts_grows fuel')
                 _ _ _ _ _ _ Hrest H0).
      rewrite dict_find_app, Hf0, str_eqb_refl.
      destruct v2; reflexivity.
  - apply dict_find_None in E2.
    rewrite (merge_loop_other _ (merge_dicts_grows fuel')
               _ _ _ _ _ _ E2 Hl).
    destruct (dict_find entries1 key) as [[z|a]|]; reflexivity.
Qed.

(** The lists and sets of [dict1] after a call that returns. *)
Lemma merge_dicts_result_in_place (fuel : nat) (s : store)
    (dict1 dict2 : nat) (entries1 entries2 : list (str * value))
    (key : str) (a b : nat) (s' : store) (r : nat) :
  s !! dict1 = Some (DictObj entries1) ->
  s !! dict2 = Some (DictObj entries2) ->
  List.NoDup (map fst entries2) ->
  dict_find entries1 key = Some (Ref a) ->
  dict_find entries2 key = Some (Ref b) ->
  merge_dicts fuel s dict1 dict2 = Some (s', r) ->
  s' !! dict1 = Some (DictObj entries1)
  /\ match s !! a, s !! b with
     | Some (ListObj x), Some (ListObj y) =>
         exists u w, s' !! a = Some (ListObj (x ++ u ++ y ++ w))
     | Some (SetObj x), Some (SetObj y) =>
         exists z, s' !! a = Some (SetObj (x ∪ y ∪ z))
     | _, _ => True
     end.
Proof.
  intros H1 H2 Hnd Hf1 Hf2 H.
  pose proof (merge_dicts_grows _ _ _ _ _ _ H _ _ H1) as Hd1.
  split; [exact Hd1|].
  apply merge_dicts_unfold in H.
  destruct H as (fuel' & e1 & e2 & s1 & result & -> & H1' & H2' & Hl
                 & -> & ->).
  rewrite H1 in H1'. injection H1' as <-.
  rewrite H2 in H2'. injection H2' as <-.
  destruct (merge_loop_split _ (merge_dicts_grows fuel')
              _ _ _ _ _ _ _ Hnd Hf2 Hl)
    as (s0 & result0 & rest & Hg0 & Hf0 & Hrest & H0).
  cbn [merge_loop] in H0. rewrite Hf0, Hf1 in H0.
  destruct (s !! a) as [[x|x|e]|] eqn:Ea; try exact I;
    destruct (s !! b) as [[y|y|e']|] eqn:Eb; try exact I.
  - destruct (Hg0 _ _ Ea) as [u Hu]. destruct (Hg0 _ _ Eb) as [v Hv].
    rewrite Hu, Hv in H0.
    pose proof (merge_loop_grows _ _ _ _ _ _ (merge_dicts_grows fuel') H0)
      as Hg1.
    destruct (Hg1 a (ListObj ((x ++ u) ++ y ++ v))) as [w Hw].
    { apply list_lookup_insert_eq. apply lookup_lt_Some in Hu. exact Hu. }
    exists u, (v ++ w).
    apply lookup_app_l_Some. rewrite Hw. f_equal. f_equal.
    rewrite <- !app_assoc. reflexivity.
  - destruct (Hg0 _ _ Ea) as [u Hu]. destruct (Hg0 _ _ Eb) as [v Hv].
    rewrite Hu, Hv in H0.
    pose proof (merge_loop_grows _ _ _ _ _ _ (merge_dicts_grows fuel') H0)
      as Hg1.
    destruct (Hg1 a (SetObj ((x ∪ u) ∪ (y ∪ v)))) as [w Hw].
    { apply list_lookup_insert_eq. apply lookup_lt_Some in Hu. exact Hu. }
    exists (u ∪ v ∪ w).
    apply lookup_app_l_Some. rewrite Hw. f_equal. f_equal.
    apply set_eq. intros i. rewrite !elem_of_union. tauto.
Qed.

(** ** The call returns *)

Lemma value_within_grows (p q : nat -> bool) s s' v :
  grows s s' ->
  (forall b, p b = true -> q b = true) ->
  value_within p s v = true -> value_within q s' v = true.
Proof.
  intros Hg Hpq. destruct v as [z|b]; [reflexivity|]. cbn [value_within].
  destruct (s !! b) as [o|] eqn:Eb; [|discriminate].
  pose proof (Hg _ _ Eb) as H. destruct o as [x|x|e].
  - destruct H as [y ->]. reflexivity.
  - destruct H as [y ->]. reflexivity.
  - rewrite H. apply Hpq.
Qed.

Lemma nested_within_grows n s s' a :
  grows s s' -> nested_within n s a = true -> nested_within n s' a = true.
Proof.
  intros Hg. revert a. induction n as [|n IH]; intros a; [discriminate|].
  cbn [nested_within].
  destruct (s !! a) as [[x|x|e]|] eqn:Ea; try discriminate.
  rewrite (Hg _ _ Ea). rewrite !forallb_forall. intros H kv Hin.
  apply (value_within_grows (nested_within n s) _ s s' _ Hg IH).
  apply H, Hin.
Qed.

Lemma merge_loop_returns n s result items :
  (forall s0 a b e,
     s0 !! a = Some (DictObj e) -> nested_within n s0 b = true ->
     is_Some (merge_dicts n s0 a b)) ->
  forallb (fun kv => value_within (nested_within n s) s (snd kv)) items
  = true ->
  is_Some (merge_loop (merge_dicts n) s result items).
Proof.
  intros Hm. revert s result.
  induction items as [|[key v] rest IH]; intros s result Hall.
  - eexists. reflexivity.
  - cbn [forallb snd] in Hall. apply andb_true_iff in Hall as [Hv Hrest].
    assert (Hnext : forall s1 result1,
              grows s s1 ->
              is_Some (merge_loop (merge_dicts n) s1 result1 rest)).
    { intros s1 result1 Hg. apply IH.
      rewrite forallb_forall in Hrest |- *. intros kv Hin.
      apply (value_within_grows (nested_within n s) _ s s1 _ Hg).
      - intros b. apply nested_within_grows, Hg.
      - apply Hrest, Hin. }
    cbn [merge_loop].
    destruct (dict_find result key) as [current|];
      [|apply Hnext, grows_refl].
    destruct current as [z|a]; [apply Hnext, grows_refl|].
    destruct v as [z|b]; [apply Hnext, grows_refl|].
    cbn [value_within] in Hv.
    destruct (s !! a) as [[x|x|e]|] eqn:Ea; [| | |apply Hnext, grows_refl].
    + destruct (s !! b) as [[y|y|e']|]; try apply Hnext, grows_refl.
      apply Hnext, grows_extend, Ea.
    + destruct (s !! b) as [[y|y|e']|]; try apply Hnext, grows_refl.
      apply Hnext, grows_update, Ea.
    + destruct (s !! b) as [[y|y|e']|] eqn:Eb; try apply Hnext, grows_refl.
      destruct (Hm s a b e Ea Hv) as [[s1 r] Em]. rewrite Em.
      apply Hnext. apply (merge_dicts_grows _ _ _ _ _ _ Em).
Qed.

(** With dictionaries nested no deeper than the recursion goes, the call
    returns. *)
Lemma merge_dicts_returns fuel :
  forall s dict1 dict2 entries1,
    s !! dict1 = Some (DictObj entries1) ->
    nested_within fuel s dict2 = true ->
    is_Some (merge_dicts fuel s dict1 dict2).
Proof.
  induction fuel as [|fuel IH]; intros s dict1 dict2 entries1 H1 H2;
    [discriminate|].
  cbn [nested_within] in H2. cbn [merge_dicts]. rewrite H1.
  destruct (s !! dict2) as [[y|y|entries2]|]; try discriminate.
  destruct (merge_loop_returns fuel s entries1 entries2 IH H2)
    as [[s' result] El].
  rewrite El. eexists. reflexivity.
Qed.

(** X9.  The values of the result of [merge_dicts(dict1, dict2)].  When
    [dict2] holds dictionaries inside dictionaries no deeper than the
    recursion goes, the call returns a dictionary.  In it a key that only
    one dictionary has keeps its value.  For a key of both: two lists or
    two sets leave the object of [dict1] in place; two dictionaries give a
    new dictionary, the result of the recursive call on them; in every
    other case the value of [dict2] replaces the value of [dict1]. *)
Theorem merge_dicts_values (fuel : nat) (s : store) (dict1 dict2 : nat)
    (entries1 entries2 : list (str * value)) :
  s !! dict1 = Some (DictObj entries1) ->
  s !! dict2 = Some (DictObj entries2) ->
  List.NoDup (map fst entries2) ->
  nested_within fuel s dict2 = true ->
  exists s' r result,
    merge_dicts fuel s dict1 dict2 = Some (s', r)
    /\ s' !! r = Some (DictObj result)
    /\ forall key,
         match dict_find entries1 key, dict_find entries2 key with
         | v1, None => dict_find result key = v1
         | None, Some v2 => dict_find result key = Some v2
         | Some (Atom _), Some v2 => dict_find result key = Some v2
         | Some (Ref _), Some (Atom z) => dict_find result key = Some (Atom z)
         | Some (Ref a), Some (Ref b) =>
             match s !! a, s !! b with
             | Some (ListObj _), Some (ListObj _)
             | Some (SetObj _), Some (SetObj _) =>
                 dict_find result key = Some (Ref a)
             | Some (DictObj _), Some (DictObj _) =>
                 exists fuel' s0 s1 r',
                   fuel = S fuel' /\ grows s s0
                   /\ merge_dicts fuel' s0 a b = Some (s1, r')
                   /\ grows s1 s'
                   /\ dict_find result key = Some (Ref r')
             | Some _, Some _ => dict_find result key = Some (Ref b)
             | _, _ => True
             end
         end.
Proof.
  intros H1 H2 Hnd Hdepth.
  destruct (merge_dicts_returns fuel s dict1 dict2 entries1 H1 Hdepth)
    as [[s' r] E].
  destruct (merge_dicts_result_values fuel s dict1 dict2 entries1 entries2
              s' r H1 H2 Hnd E) as (result & Hr & Hv).
  exists s', r, result. split; [exact E|]. split; [exact Hr | exact Hv].
Qed.

(** X10.  Lists and sets are merged in place.  When [dict2] holds
    dictionaries inside dictionaries no deeper than the recursion goes,
    the call returns, and where [dict1] and [dict2] both hold a list under
    a key, the list object of [dict1] has been extended by the items of
    the list of [dict2]; two sets are united in the set object of [dict1]
    in the same way.  The caller's [dict1], which keeps its entries, sees
    the change. *)
Theorem merge_dicts_in_place (fuel : nat) (s : store)
    (dict1 dict2 : nat) (entries1 entries2 : list (str * value))
    (key : str) (a b : nat) :
  s !! dict1 = Some (DictObj entries1) ->
  s !! dict2 = Some (DictObj entries2) ->
  List.NoDup (map fst entries2) ->
  dict_find entries1 key = Some (Ref a) ->
  dict_find entries2 key = Some (Ref b) ->
  nested_within fuel s dict2 = true ->
  exists s' r,
    merge_dicts fuel s dict1 dict2 = Some (s', r)
    /\ s' !! dict1 = Some (DictObj entries1)
    /\ match s !! a, s !! b with
       | Some (ListObj x), Some (ListObj y) =>
           exists u w, s' !! a = Some (ListObj (x ++ u ++ y ++ w))
       | Some (SetObj x), Some (SetObj y) =>
           exists z, s' !! a = Some (SetObj (x ∪ y ∪ z))
       | _, _ => True
       end.
Proof.
  intros H1 H2 Hnd Hf1 Hf2 Hdepth.
  destruct (merge_dicts_returns fuel s dict1 dict2 entries1 H1 Hdepth)
    as [[s' r] E].
  exists s', r. split; [exact E|].
  apply (merge_dicts_result_in_place fuel s dict1 dict2 entries1 entries2
           key a b s' r H1 H2 Hnd Hf1 Hf2 E).
Qed.

Lemma merge_dicts_keys_witness :
  match merge_dicts 2 tags_store 0 2 with
  | Some (s', r) =>
      exists result,
        s' !! r = Some (DictObj result)
        /\ map fst result
           = [lit "tags"; lit "name"; lit "meta"; lit "size"]
  | None => False
  end.
Proof.
  destruct (merge_dicts 2 tags_store 0 2) as [[s' r]|] eqn:E.
  - destruct (merge_dicts_keys 2 tags_store 0 2 _ _ s' r
                eq_refl eq_refl tags_store_keys E)
      as (_ & _ & result & Hr & Hk).
    exists result. split; [exact Hr | exact Hk].
  - vm_compute in E. discriminate E.
Defined.

Lemma merge_dicts_values_witness :
  exists s' r result,
    merge_dicts 2 tags_store 0 2 = Some (s', r)
    /\ s' !! r = Some (DictObj result)
    /\ dict_find result (lit "name") = Some (Atom 8)
    /\ dict_find result (lit "tags") = Some (Ref 1)
    /\ dict_find result (lit "size") = Some (Atom 9).
Proof.
  destruct (merge_dicts_values 2 tags_store 0 2 _ _
              eq_refl eq_refl tags_store_keys eq_refl)
    as (s' & r & result & E & Hr & Hv).
  exists s', r, result. split; [exact E|]. split; [exact Hr|].
  split; [exact (Hv (lit "name"))|].
  split; [exact (Hv (lit "tags")) | exact (Hv (lit "size"))].
Defined.

Lemma merge_dicts_in_place_witness :
  exists s' r,
    merge_dicts 2 tags_store 0 2 = Some (s', r)
    /\ exists u w,
         s' !! 1 = Some (ListObj ([Atom 1] ++ u ++ [Atom 2] ++ w)).
Proof.
  destruct (merge_dicts_in_place 2 tags_store 0 2 _ _ (lit "tags") 1 3
              eq_refl eq_refl tags_store_keys eq_refl eq_refl eq_refl)
    as (s' & r & E & _ & H).
  exists s', r. split; [exact E | exact H].
Defined.

End MergeDictsFacts.

(** ** analyzer.py: from parsed pages to modules *)

Module PipelineFacts.
Import PyStr PyStrFacts Analyzer AnalyzerFacts UtilsTextFacts Pipeline.

(** The keys of the cluster dictionary: the labels other than [-1], each
    once, in the order of their first occurrence. *)
Fixpoint cluster_keys (seen : list Z) (labels : list Z) : list Z :=
  match labels with
  | [] => []
  | l :: t =>
      if (l =? -1)%Z || existsb (Z.eqb l) seen then cluster_keys seen t
      else l :: cluster_keys (seen ++ [l]) t
  end.

(** The step of the loop over the labels. *)
Definition cluster_step (clusters : list (Z * list candidate))
    (lc : Z * candidate) : list (Z * list candidate) :=
  if (fst lc =? -1)%Z then clusters
  else setdefault_append clusters (fst lc) (snd lc).

(** An embedder that puts the first and the third name into one cluster
    and leaves the second out as noise. *)
Definition two_of_three (names : list str) : option (list Z) :=
  Some [0; -1; 0]%Z.

Definition three_candidates : list candidate :=
  [ mkCandidate (lit "Billing") (lit "heading_h2") (lit "short") [];
    mkCandidate (lit "Reports") (lit "title") [] [];
    mkCandidate (lit "Invoices") (lit "title") (lit "x") [] ].

(** A page with a title, two headings, one of them too short, and a
    section for the other one. *)
Definition guide_page : parsed_page :=
  mkParsed (Some (lit "http://a.com/guide"))
           (Some (lit "The guide includes billing, reports and more."))
           (Some (mkMetadata (Some (lit "User Guide"))
                             (Some [lit "Docs"; lit "Guides"])))
           (Some (mkStructure
                    (Some [(lit "h1", [lit "User guide"]);
                           (lit "h2", [lit "FAQ"])])
                    (Some [mkSection (Some (lit "USER GUIDE"))
                                     (Some (lit "How to start."))]))).

(** ** Title case *)

Lemma alpha_cases c :
  isalpha c = true ->
  Ascii.eqb "," c = false
  /\ Ascii.eqb "," (lower_char c) = false
  /\ Ascii.eqb "," (upper_char c) = false
  /\ isspace c = false
  /\ isspace (lower_char c) = false
  /\ isspace (upper_char c) = false.
Proof.
  destruct c as [[] [] [] [] [] [] [] []]; vm_compute; intros H;
    try discriminate; repeat split.
Qed.

Lemma title_aux_length b s : length (title_aux b s) = length s.
Proof.
  revert b. induction s as [|c t IH]; intros b; [reflexivity|].
  cbn [title_aux]. destruct (isalpha c); cbn [length]; rewrite IH; reflexivity.
Qed.

(** Title case moves letters only: white space stays where it is. *)
Lemma title_aux_head b c t :
  exists c' t', title_aux b (c :: t) = c' :: t' /\ isspace c' = isspace c.
Proof.
  cbn [title_aux]. destruct (isalpha c) eqn:Ea.
  - destruct (alpha_cases c Ea) as (_ & _ & _ & H1 & H2 & H3).
    eexists _, _. split; [reflexivity|].
    destruct b; rewrite ?H1, ?H2, ?H3; reflexivity.
  - eexists _, _. split; reflexivity.
Qed.

Lemma title_aux_last b s :
  match last_char (title_aux b s) with
  | Some c => negb (isspace c)
  | None => true
  end
  = match last_char s with Some c => negb (isspace c) | None => true end.
Proof.
  revert b. induction s as [|c t IH]; intros b; [reflexivity|].
  destruct t as [|d t'].
  - destruct (title_aux_head b c []) as (c' & t' & E & Hc).
    assert (Et : t' = []).
    { pose proof (title_aux_length b [c]) as Hl. rewrite E in Hl.
      destruct t'; [reflexivity | discriminate]. }
    subst t'. rewrite E. cbn [last_char]. rewrite Hc. reflexivity.
  - assert (E : exists x b', title_aux b (c :: d :: t')
                             = x :: title_aux b' (d :: t')).
    { change (title_aux b (c :: d :: t'))
        with (if isalpha c
              then (if b then lower_char c else upper_char c)
                     :: title_aux true (d :: t')
              else c :: title_aux false (d :: t')).
      destruct (isalpha c); eexists _, _; reflexivity. }
    destruct E as (x & b' & E). rewrite E.
    destruct (title_aux_head b' d t') as (d' & t'' & E' & _).
    specialize (IH b'). rewrite E' in IH |- *.
    change (last_char (x :: d' :: t'')) with (last_char (d' :: t'')).
    change (last_char (c :: d :: t')) with (last_char (d :: t')).
    exact IH.
Qed.

Lemma title_trimmed s : trimmed s = true -> trimmed (title s) = true.
Proof.
  unfold trimmed, title. intros H. apply andb_true_iff in H as [Hh Hl].
  apply andb_true_iff. split.
  - destruct s as [|c t]; [reflexivity|].
    destruct (title_aux_head false c t) as (c' & t' & E & Hc).
    rewrite E, Hc. exact Hh.
  - rewrite title_aux_last. exact Hl.
Qed.

Lemma title_aux_comma b s : mem "," (title_aux b s) = mem "," s.
Proof.
  revert b. induction s as [|c t IH]; intros b; [reflexivity|].
  cbn [title_aux]. unfold mem in *. destruct (isalpha c) eqn:Ea.
  - destruct (alpha_cases c Ea) as (H5 & H6 & H7 & _).
    destruct b; cbn [existsb]; rewrite ?H5, ?H6, ?H7, IH; reflexivity.
  - cbn [existsb]. rewrite IH. reflexivity.
Qed.

(** ** The items of an enumeration *)

Lemma mem_rev c s : mem c (rev s) = mem c s.
Proof.
  unfold mem. induction s as [|x t IH]; [reflexivity|].
  cbn [rev existsb]. rewrite existsb_app, IH. cbn [existsb].
  rewrite orb_false_r. apply orb_comm.
Qed.

Lemma split_items_aux_comma s cur pw skip :
  mem "," cur = false ->
  Forall (fun i => mem "," i = false) (split_items_aux s cur pw skip).
Proof.
  revert cur pw skip.
  induction s as [|c t IH]; intros cur pw skip Hcur.
  - constructor; [|constructor]. rewrite mem_rev. exact Hcur.
  - cbn [split_items_aux]. destruct skip as [|k]; [|apply IH, Hcur].
    assert (Hrev : mem "," (rev cur) = false)
      by (rewrite mem_rev; exact Hcur).
    destruct (Ascii.eqb c ",") eqn:Ec;
      [constructor; [exact Hrev | apply IH; reflexivity]|].
    destruct (word_at (lit "and") (c :: t) pw);
      [constructor; [exact Hrev | apply IH; reflexivity]|].
    destruct (word_at (lit "or") (c :: t) pw);
      [constructor; [exact Hrev | apply IH; reflexivity]|].
    apply IH. unfold mem. cbn [existsb].
    rewrite Ascii.eqb_sym, Ec. exact Hcur.
Qed.

Lemma strip_comma s : mem "," s = false -> mem "," (strip s) = false.
Proof.
  intros H. apply mem_false_Forall, strip_Forall, mem_false_Forall, H.
Qed.

(** What holds of every name found behind a pattern. *)
Lemma found_names content x :
  In x (flat_map
          (fun kw =>
             flat_map
               (fun m =>
                  map (fun i => title (strip i))
                      (List.filter (fun i => 3 <? length (strip i))
                                   (split_items m)))
               (findall kw content 0))
          patterns) ->
  3 < length x /\ mem "," x = false /\ trimmed x = true.
Proof.
  intros H. apply in_flat_map in H as (kw & _ & H).
  apply in_flat_map in H as (m & _ & H).
  apply in_map_iff in H as (i & <- & H).
  apply filter_In in H as [Hi Hlen].
  split; [|split; [|apply title_trimmed, strip_trimmed]];
    unfold title; rewrite ?title_aux_length, ?title_aux_comma.
  { apply Nat.ltb_lt, Hlen. }
  apply strip_comma.
  pose proof (split_items_aux_comma m [] false 0 eq_refl) as Hall.
  apply (proj1 (List.Forall_forall _ _) Hall i Hi).
Qed.

Lemma extract_potential_submodules_names content x :
  In x (extract_potential_submodules content) ->
  3 < length x /\ mem "," x = false /\ trimmed x = true.
Proof.
  unfold extract_potential_submodules. rewrite dict_fromkeys_In.
  apply found_names.
Qed.

(** X11.  The names that [extract_potential_submodules] returns are
    pairwise different, longer than three characters and free of commas,
    and none begins or ends with white space. *)
Theorem extract_potential_submodules_spec (content : str) :
  List.NoDup (extract_potential_submodules content)
  /\ Forall (fun x => 3 < length x /\ mem "," x = false /\ trimmed x = true)
            (extract_potential_submodules content).
Proof.
  split; [apply dict_fromkeys_NoDup|].
  apply List.Forall_forall. apply extract_potential_submodules_names.
Qed.

(** ** The submodule dictionary *)

Lemma startswith_nil_r p : startswith p [] = is_empty p.
Proof. destruct p; reflexivity. Qed.

Lemma common_words_nil a : common_words a [] = 0.
Proof.
  unfold common_words. induction (dict_fromkeys a) as [|w t IH];
    [reflexivity | exact IH].
Qed.

(** A sentence that is relevant to a topic is not empty. *)
Lemma extract_relevant_sentences_nonempty topic text s :
  topic <> [] -> In s (extract_relevant_sentences topic text) -> s <> [].
Proof.
  intros Ht Hin Hs. subst s. unfold extract_relevant_sentences in Hin.
  assert (Hin' : In [] (List.filter
            (fun s =>
               is_substring (lower topic) (lower s)
               || (2 <=? common_words (split_ws (lower topic))
                                      (split_ws (lower s))))
            (split_sentences text))).
  { rewrite <- (firstn_skipn 5 (List.filter _ _)). apply in_or_app.
    left. exact Hin. }
  apply filter_In in Hin' as [_ H].
  destruct topic as [|c t]; [congruence|].
  change (split_ws (lower [])) with (@nil str) in H.
  rewrite common_words_nil in H. discriminate.
Qed.

Lemma join_head_nonempty sep s rest :
  s <> [] -> join sep (s :: rest) <> [].
Proof.
  destruct s as [|c t]; [congruence|]. intros _.
  destruct rest; discriminate.
Qed.

Lemma generate_submodule_description_nonempty submodule content context :
  submodule <> [] ->
  is_empty (generate_submodule_description submodule content context) = false.
Proof.
  intros Hne. unfold generate_submodule_description.
  assert (Hs : forall text s rest,
            extract_relevant_sentences submodule text = s :: rest ->
            is_empty (firstn 200 (join (lit " ") (firstn 2 (s :: rest))))
            = false).
  { intros text s rest E.
    assert (Hsn : s <> []).
    { apply (extract_relevant_sentences_nonempty submodule text s Hne).
      rewrite E. left. reflexivity. }
    pose proof (join_head_nonempty (lit " ") s (firstn 1 rest) Hsn) as Hj.
    change (firstn 2 (s :: rest)) with (s :: firstn 1 rest).
    destruct (join (lit " ") (s :: firstn 1 rest)) eqn:Ej;
      [exfalso; apply Hj, Ej | reflexivity]. }
  destruct (extract_relevant_sentences submodule content) as [|s rest] eqn:E1.
  - destruct (extract_relevant_sentences submodule context)
      as [|s rest] eqn:E2; [reflexivity|].
    apply (Hs _ _ _ E2).
  - apply (Hs _ _ _ E1).
Qed.

Lemma dict_set_fresh d k v :
  ~ In k (map fst d) -> dict_set d k v = d ++ [(k, v)].
Proof.
  induction d as [|[k0 v0] t IH]; [reflexivity|].
  cbn [map fst In dict_set app]. intros H.
  destruct (str_eqb k0 k) eqn:E.
  - apply str_eqb_eq in E. tauto.
  - rewrite IH by tauto. reflexivity.
Qed.

Lemma submodules_loop (desc : str -> str) names acc :
  List.NoDup (map fst acc ++ names) ->
  Forall (fun n => is_empty (desc n) = false) names ->
  fold_left
    (fun submodules name =>
       if is_empty (desc name) then submodules
       else dict_set submodules name (desc name))
    names acc
  = acc ++ map (fun n => (n, desc n)) names.
Proof.
  revert acc. induction names as [|n t IH]; intros acc Hnd Hne.
  - rewrite app_nil_r. reflexivity.
  - inversion Hne as [|? ? Hn Ht]; subst. cbn [fold_left map].
    rewrite Hn.
    assert (Hnin : ~ In n (map fst acc)).
    { apply List.NoDup_remove_2 in Hnd. intros H.
      apply Hnd, in_or_app. left. exact H. }
    rewrite dict_set_fresh by exact Hnin. rewrite IH.
    + rewrite <- app_assoc. reflexivity.
    + rewrite map_app. cbn [map fst]. rewrite <- app_assoc. exact Hnd.
    + exact Ht.
Qed.

Lemma extract_submodules_eq module context :
  extract_submodules module context
  = map (fun n =>
           (n, generate_submodule_description n (content module) context))
        (firstn MAX_SUBMODULES_PER_MODULE
                (extract_potential_submodules (content module))).
Proof.
  unfold extract_submodules.
  rewrite (submodules_loop
             (fun n => generate_submodule_description n (content module)
                                                      context)).
  - reflexivity.
  - cbn [map app].
    pose proof (dict_fromkeys_NoDup
                  (flat_map
                     (fun kw =>
                        flat_map
                          (fun m =>
                             map (fun i => title (strip i))
                                 (List.filter (fun i => 3 <? length (strip i))
                                              (split_items m)))
                          (findall kw (content module) 0))
                     patterns)) as Hnd.
    fold (extract_potential_submodules (content module)) in Hnd.
    rewrite <- (firstn_skipn MAX_SUBMODULES_PER_MODULE
                             (extract_potential_submodules (content module)))
      in Hnd.
    apply List.NoDup_app_remove_r in Hnd. exact Hnd.
  - apply List.Forall_forall. intros n Hn.
    apply generate_submodule_description_nonempty.
    assert (Hin : In n (extract_potential_submodules (content module))).
    { rewrite <- (firstn_skipn MAX_SUBMODULES_PER_MODULE
                               (extract_potential_submodules (content module))).
      apply in_or_app. left. exact Hn. }
    apply extract_potential_submodules_names in Hin as [Hlen _].
    destruct n; [cbn in Hlen; lia | discriminate].
Qed.

(** X12.  The submodule dictionary has one entry for each of the first ten
    names found in the content of the module, in their order, with the
    description generated for that name; no description is empty, so the
    test [if desc] never drops a name. *)
Theorem extract_submodules_spec (module : candidate) (context : str) :
  map fst (extract_submodules module context)
  = firstn 10 (extract_potential_submodules (content module))
  /\ length (extract_submodules module context) <= 10
  /\ Forall (fun kv =>
               snd kv
               = generate_submodule_description (fst kv) (content module)
                                                context
               /\ is_empty (snd kv) = false /\ 3 < length (fst kv))
            (extract_submodules module context).
Proof.
  rewrite extract_submodules_eq. split; [|split].
  - rewrite map_map. cbn [fst]. apply map_id.
  - rewrite length_map. apply firstn_le_length.
  - apply List.Forall_forall. intros kv Hkv.
    apply in_map_iff in Hkv as (n & <- & Hn). cbn [fst snd].
    assert (Hin : In n (extract_potential_submodules (content module))).
    { rewrite <- (firstn_skipn MAX_SUBMODULES_PER_MODULE
                               (extract_potential_submodules (content module))).
      apply in_or_app. left. exact Hn. }
    apply extract_potential_submodules_names in Hin as [Hlen _].
    split; [reflexivity|]. split; [|exact Hlen].
    apply generate_submodule_description_nonempty.
    destruct n; [cbn in Hlen; lia | discriminate].
Qed.

(** ** The main module of a cluster *)

Lemma key_lt_trans a b c :
  key_lt a b = true -> key_lt b c = true -> key_lt a c = true.
Proof.
  unfold key_lt. rewrite !orb_true_iff, !andb_true_iff.
  rewrite !Nat.ltb_lt, !Nat.eqb_eq. lia.
Qed.

Lemma key_lt_total a b c :
  key_lt a b = false -> key_lt c b = true -> key_lt a c = false.
Proof.
  unfold key_lt. rewrite !orb_false_iff, !andb_false_iff.
  rewrite orb_true_iff, andb_true_iff.
  rewrite !Nat.ltb_lt, !Nat.ltb_ge, !Nat.eqb_eq, !Nat.eqb_neq. lia.
Qed.

Lemma key_lt_irrefl a : key_lt a a = false.
Proof.
  unfold key_lt. rewrite Nat.ltb_irrefl, Nat.ltb_irrefl, andb_false_r.
  reflexivity.
Qed.

Lemma choose_loop rest best seen :
  In best seen -> (forall x, In x seen -> key_lt x best = false) ->
  let c := fold_left (fun best x => if key_lt x best then x else best)
                     rest best in
  In c (seen ++ rest)
  /\ forall x, In x (seen ++ rest) -> key_lt x c = false.
Proof.
  revert best seen. induction rest as [|y t IH]; intros best seen Hin Hmin.
  - cbn. rewrite app_nil_r. split; assumption.
  - cbn [fold_left].
    replace (seen ++ y :: t) with ((seen ++ [y]) ++ t)
      by (rewrite <- app_assoc; reflexivity).
    destruct (key_lt y best) eqn:E; apply IH.
    + apply in_or_app. right. left. reflexivity.
    + intros x Hx. apply in_app_or in Hx as [Hx|[<-|[]]].
      * apply (key_lt_total x best y (Hmin x Hx) E).
      * apply key_lt_irrefl.
    + apply in_or_app. left. exact Hin.
    + intros x Hx. apply in_app_or in Hx as [Hx|[<-|[]]];
        [apply Hmin, Hx | exact E].
Qed.

Lemma choose_main_module_some candidates :
  candidates <> [] ->
  exists c, choose_main_module candidates = Some c
            /\ In c candidates
            /\ forall x, In x candidates -> key_lt x c = false.
Proof.
  destruct candidates as [|c0 t]; [congruence|]. intros _.
  eexists. split; [reflexivity|].
  apply (choose_loop t c0 [c0]).
  - left. reflexivity.
  - intros x [<-|[]]. apply key_lt_irrefl.
Qed.

Lemma priority_title c : priority (source c) = 0 <-> source c = lit "title".
Proof.
  unfold priority. destruct (str_eqb (source c) (lit "title")) eqn:E.
  - apply str_eqb_eq in E. tauto.
  - split; [|intros H; rewrite H, str_eqb_refl in E; discriminate].
    repeat match goal with
           | |- context [if ?b then _ else _] => destruct b
           end; discriminate.
Qed.

(** X13.  [choose_main_module] fails on an empty cluster only; otherwise it
    returns a candidate of the cluster that no other candidate precedes in
    the order of priority and content length.  A candidate that comes from
    a page title is chosen whenever the cluster has one. *)
Theorem choose_main_module_spec (candidates : list candidate) :
  match choose_main_module candidates with
  | None => candidates = []
  | Some c =>
      In c candidates
      /\ (forall x, In x candidates -> key_lt x c = false)
      /\ (forall x, In x candidates -> source x = lit "title" ->
                    source c = lit "title")
  end.
Proof.
  destruct candidates as [|c0 t] eqn:E; [reflexivity|].
  destruct (choose_main_module_some (c0 :: t)) as (c & Hc & Hin & Hmin);
    [discriminate|].
  rewrite Hc. split; [exact Hin|]. split; [exact Hmin|].
  intros x Hx Ht. apply priority_title. apply priority_title in Ht.
  specialize (Hmin x Hx). unfold key_lt in Hmin.
  apply orb_false_iff in Hmin as [H1 _]. apply Nat.ltb_ge in H1. lia.
Qed.

(** ** Clustering with an embedder *)

Lemma setdefault_append_keys clusters label c :
  map fst (setdefault_append clusters label c)
  = if existsb (Z.eqb label) (map fst clusters) then map fst clusters
    else map fst clusters ++ [label].
Proof.
  induction clusters as [|[l cs] t IH]; [reflexivity|].
  cbn [setdefault_append map fst existsb].
  rewrite (Z.eqb_sym label l).
  destruct (l =? label)%Z; [reflexivity|].
  cbn [map fst orb]. rewrite IH.
  destruct (existsb _ _); reflexivity.
Qed.

Lemma setdefault_append_members clusters label c l cs :
  In (l, cs) (setdefault_append clusters label c) ->
  In (l, cs) clusters
  \/ (l = label
      /\ (cs = [c] \/ exists cs0, In (l, cs0) clusters /\ cs = cs0 ++ [c])).
Proof.
  induction clusters as [|[l0 cs0] t IH]; cbn [setdefault_append].
  - intros [[= <- <-]|[]]. right. split; [reflexivity|]. left. reflexivity.
  - destruct (l0 =? label)%Z eqn:E.
    + apply Z.eqb_eq in E. subst l0.
      intros [[= <- <-]|H]; [|left; right; exact H].
      right. split; [reflexivity|]. right. exists cs0.
      split; [left; reflexivity | reflexivity].
    + intros [H|H]; [left; left; exact H|].
      destruct (IH H) as [H'|(-> & [->|(cs1 & Hin & ->)])].
      * left. right. exact H'.
      * right. split; [reflexivity|]. left. reflexivity.
      * right. split; [reflexivity|]. right. exists cs1.
        split; [right; exact Hin | reflexivity].
Qed.

Lemma cluster_loop_keys pairs clusters :
  map fst (fold_left cluster_step pairs clusters)
  = map fst clusters ++ cluster_keys (map fst clusters) (map fst pairs).
Proof.
  revert clusters. induction pairs as [|[l c] t IH]; intros clusters.
  - cbn. rewrite app_nil_r. reflexivity.
  - cbn [fold_left map fst cluster_keys]. rewrite IH.
    unfold cluster_step. cbn [fst snd].
    destruct (l =? -1)%Z; [reflexivity|]. cbn [orb].
    rewrite setdefault_append_keys.
    destruct (existsb (Z.eqb l) (map fst clusters)); [reflexivity|].
    rewrite <- app_assoc. reflexivity.
Qed.

Lemma cluster_loop_members (Q : Z -> candidate -> Prop) pairs clusters :
  (forall l cs, In (l, cs) clusters ->
                cs <> [] /\ forall x, In x cs -> Q l x) ->
  (forall l x, In (l, x) pairs -> l <> (-1)%Z -> Q l x) ->
  forall l cs, In (l, cs) (fold_left cluster_step pairs clusters) ->
               cs <> [] /\ forall x, In x cs -> Q l x.
Proof.
  revert clusters. induction pairs as [|[l0 c0] t IH];
    intros clusters Hcl Hp; [exact Hcl|].
  cbn [fold_left]. apply IH.
  - intros l cs Hin. unfold cluster_step in Hin. cbn [fst snd] in Hin.
    destruct (l0 =? -1)%Z eqn:E; [apply Hcl, Hin|].
    apply Z.eqb_neq in E.
    assert (Hq : Q l0 c0) by (apply Hp; [left; reflexivity | exact E]).
    apply setdefault_append_members in Hin
      as [Hin|(-> & [->|(cs1 & Hin & ->)])].
    + apply Hcl, Hin.
    + split; [discriminate|]. intros x [<-|[]]. exact Hq.
    + destruct (Hcl _ _ Hin) as [_ Hall].
      split; [destruct cs1; discriminate|].
      intros x Hx. apply in_app_or in Hx as [Hx|[<-|[]]];
        [apply Hall, Hx | exact Hq].
  - intros l x Hin. apply Hp. right. exact Hin.
Qed.

Lemma all_some_map {A B} (f : A -> option B) (R : A -> B -> Prop) l :
  (forall x, In x l -> exists y, f x = Some y /\ R x y) ->
  exists res, all_some (map f l) = Some res /\ Forall2 R l res.
Proof.
  induction l as [|x t IH]; intros H.
  - exists []. split; [reflexivity | constructor].
  - destruct (H x (or_introl eq_refl)) as (y & Hy & Hr).
    destruct IH as (res & Hres & Hall);
      [intros z Hz; apply H; right; exact Hz|].
    exists (y :: res). cbn [map all_some]. rewrite Hy, Hres.
    split; [reflexivity | constructor; assumption].
Qed.

Lemma map_fst_combine {A B} (a : list A) (b : list B) :
  length a = length b -> map fst (combine a b) = a.
Proof.
  revert b. induction a as [|x t IH]; intros [|y u]; cbn; try discriminate;
    [reflexivity|].
  intros [= H]. rewrite (IH u H). reflexivity.
Qed.

Section ClusterEmbedder.

Variable stop_words : list str.

(** X14.  With an embedder that answers one label for every name,
    [cluster_modules] does not raise: no cluster is empty, so
    [choose_main_module] finds a candidate in each.  The result has one
    module for every label other than [-1], and each module is a candidate
    that carries such a label; a candidate that is only labelled [-1]
    (noise) is dropped. *)
Theorem cluster_modules_embedder
    (encode_and_fit : list str -> option (list Z))
    (candidates : list candidate) (labels : list Z) :
  encode_and_fit (map name candidates) = Some labels ->
  length labels = length candidates ->
  exists modules,
    cluster_modules stop_words (Some encode_and_fit) candidates
    = Some modules
    /\ length modules = length (cluster_keys [] labels)
    /\ Forall (fun m => exists l, l <> (-1)%Z
                                  /\ In (l, m) (combine labels candidates))
              modules.
Proof.
  intros Henc Hlen. unfold cluster_modules.
  destruct candidates as [|c0 t] eqn:Ec.
  { destruct labels; [|discriminate]. exists []. repeat split. constructor. }
  rewrite <- Ec in *. clear Ec c0 t. rewrite Henc.
  change (fold_left _ (combine labels candidates) [])
    with (fold_left cluster_step (combine labels candidates) []).
  set (clusters := fold_left cluster_step (combine labels candidates) []).
  pose proof (cluster_loop_keys (combine labels candidates) []) as Hkeys.
  fold clusters in Hkeys. cbn [map app] in Hkeys.
  rewrite (map_fst_combine _ _ Hlen) in Hkeys.
  pose proof (cluster_loop_members
                (fun l x => l <> (-1)%Z
                            /\ In (l, x) (combine labels candidates))
                (combine labels candidates) []) as Hmem.
  fold clusters in Hmem.
  assert (Hmem' : forall l cs, In (l, cs) clusters ->
            cs <> []
            /\ forall x, In x cs ->
                 l <> (-1)%Z /\ In (l, x) (combine labels candidates)).
  { apply Hmem; [intros ? ? []|]. intros l x Hin Hl. split; assumption. }
  destruct (all_some_map
              (fun v => choose_main_module (snd v))
              (fun v m => exists l, l <> (-1)%Z
                          /\ In (l, m) (combine labels candidates))
              clusters) as (res & Hres & Hall).
  { intros [l cs] Hin. destruct (Hmem' l cs Hin) as [Hne Hq].
    destruct (choose_main_module_some cs Hne) as (c & Hc & Hcin & _).
    exists c. split; [exact Hc|]. exists l. apply Hq, Hcin. }
  exists res. split; [exact Hres|]. split.
  - rewrite <- Hkeys, length_map. symmetry.
    eapply Forall2_length, Hall.
  - clear - Hall. induction Hall; constructor; assumption.
Qed.

End ClusterEmbedder.

Lemma cluster_modules_embedder_witness :
  exists modules,
    cluster_modules [] (Some two_of_three) three_candidates = Some modules
    /\ length modules = 1.
Proof.
  destruct (cluster_modules_embedder [] two_of_three three_candidates
                                     [0; -1; 0]%Z eq_refl eq_refl)
    as (modules & H1 & H2 & _).
  exists modules. split; [exact H1 | exact H2].
Defined.

(** ** The candidates of the pages *)

Lemma long_enough_length x : long_enough x = true -> 3 < length x.
Proof.
  unfold long_enough. intros H. apply andb_true_iff in H as [_ H].
  apply Nat.ltb_lt, H.
Qed.

Lemma page_candidates_names page c :
  In c (page_candidates page) ->
  3 < length (name c) /\ url c = get_str (pg_url page).
Proof.
  unfold page_candidates. intros H.
  apply in_app_or in H as [H|H]; [|apply in_app_or in H as [H|H]].
  - destruct (long_enough (page_title page)) eqn:E; [|destruct H].
    destruct H as [<-|[]]. split; [apply long_enough_length, E | reflexivity].
  - apply in_flat_map in H as (level & _ & H).
    apply in_flat_map in H as (heading & _ & H).
    destruct (long_enough heading) eqn:E; [|destruct H].
    destruct H as [<-|[]]. split; [apply long_enough_length, E | reflexivity].
  - apply in_flat_map in H as ([i crumb] & _ & H). cbn [fst snd] in H.
    destruct (long_enough crumb) eqn:E; [|destruct H].
    destruct H as [<-|[]]. split; [apply long_enough_length, E | reflexivity].
Qed.

Lemma extract_candidate_modules_names pages c :
  In c (extract_candidate_modules pages) ->
  3 < length (name c)
  /\ exists page, In page pages /\ url c = get_str (pg_url page).
Proof.
  unfold extract_candidate_modules. intros H.
  apply in_flat_map in H as (page & Hp & H).
  destruct (page_candidates_names page c H) as [H1 H2].
  split; [exact H1|]. exists page. split; assumption.
Qed.

(** ** Deduplication *)

Lemma unique_loop_In seen candidates c :
  In c (unique_loop seen candidates) ->
  In c candidates /\ ~ In (lower (name c)) seen.
Proof.
  revert seen. induction candidates as [|x t IH]; intros seen; [intros []|].
  cbn [unique_loop]. destruct (existsb _ seen) eqn:E.
  - intros H. destruct (IH _ H) as [H1 H2]. split; [right; exact H1 | exact H2].
  - intros [<-|H].
    + split; [left; reflexivity|]. intros Hin.
      apply existsb_str_eqb_In in Hin. congruence.
    + destruct (IH _ H) as [H1 H2]. split; [right; exact H1|].
      intros Hin. apply H2. right. exact Hin.
Qed.

Lemma unique_loop_NoDup seen candidates :
  List.NoDup (map (fun c => lower (name c)) (unique_loop seen candidates)).
Proof.
  revert seen. induction candidates as [|x t IH]; intros seen; [constructor|].
  cbn [unique_loop]. destruct (existsb _ seen); [apply IH|].
  cbn [map]. constructor; [|apply IH].
  intros Hin. apply in_map_iff in Hin as (c & Hc & Hin).
  apply unique_loop_In in Hin as [_ Hn]. apply Hn. left. symmetry. exact Hc.
Qed.

Lemma unique_loop_complete seen candidates c :
  In c candidates ->
  In (lower (name c)) seen
  \/ exists m, In m (unique_loop seen candidates)
               /\ lower (name m) = lower (name c).
Proof.
  revert seen. induction candidates as [|x t IH]; intros seen; [intros []|].
  cbn [unique_loop]. intros [<-|Hin].
  - destruct (existsb _ seen) eqn:E.
    + left. apply existsb_str_eqb_In, E.
    + right. exists x. split; [left; reflexivity | reflexivity].
  - destruct (existsb _ seen) eqn:E.
    + apply IH, Hin.
    + destruct (IH (lower (name x) :: seen) Hin) as [[Heq|H]|(m & Hm & Heq)].
      * right. exists x. split; [left; reflexivity | exact Heq].
      * left. exact H.
      * right. exists m. split; [right; exact Hm | exact Heq].
Qed.

Section AnalyzeFacts.

Variable stop_words : list str.

(** X15.  Without language model and embedder, [analyze_documentation] always
    returns.  Every module it reports is named after a title, heading or
    breadcrumb of more than three characters, carries the heuristic
    description, the submodules and the confidence of that candidate; when
    the TF-IDF step succeeds, no two modules have the same name up to
    case, and every candidate name is the name of a module up to case. *)
Theorem analyze_documentation_heuristic (pages : list parsed_page) :
  exists modules,
    analyze_documentation stop_words None None pages = Some modules
    /\ Forall
         (fun m =>
            3 < length (r_module m)
            /\ exists c,
                 In c (extract_candidate_modules pages)
                 /\ r_module m = name c
                 /\ r_description m
                    = generate_description_algorithmic
                        c (combine_content pages)
                 /\ r_submodules m
                    = extract_submodules c (combine_content pages)
                 /\ r_confidence_score m
                    = calculate_confidence c (r_description m))
         modules
    /\ (tfidf_fit stop_words (map name (extract_candidate_modules pages))
        <> None ->
        List.NoDup (map (fun m => lower (r_module m)) modules)
        /\ forall c, In c (extract_candidate_modules pages) ->
             exists m, In m modules
                       /\ lower (r_module m) = lower (name c)).
Proof.
  unfold analyze_documentation, cluster_modules.
  set (cands := extract_candidate_modules pages).
  set (ctx := combine_content pages).
  assert (Hrec : forall clustered,
    (forall c, In c clustered -> In c cands) ->
    Forall
      (fun m =>
         3 < length (r_module m)
         /\ exists c,
              In c cands /\ r_module m = name c
              /\ r_description m = generate_description_algorithmic c ctx
              /\ r_submodules m = extract_submodules c ctx
              /\ r_confidence_score m
                 = calculate_confidence c (r_description m))
      (format_output (generate_descriptions None clustered ctx))).
  { intros clustered Hsub. apply List.Forall_forall. intros m Hm.
    unfold format_output, generate_descriptions in Hm.
    rewrite map_map in Hm. apply in_map_iff in Hm as (c & <- & Hc).
    cbn. split.
    - apply (extract_candidate_modules_names pages c (Hsub c Hc)).
    - exists c. split; [apply Hsub, Hc|]. repeat split. }
  assert (Hnames : forall clustered,
    map (fun m => lower (r_module m))
        (format_output (generate_descriptions None clustered ctx))
    = map (fun c => lower (name c)) clustered).
  { intros clustered. unfold format_output, generate_descriptions.
    rewrite !map_map. reflexivity. }
  destruct cands as [|c0 t] eqn:Ec.
  - exists []. split; [reflexivity|]. split; [constructor|].
    intros _. split; [constructor | intros c []].
  - rewrite <- Ec in *.
    destruct (tfidf_fit stop_words (map name cands)) as [voc|] eqn:Et.
    + eexists. split; [reflexivity|]. split.
      * apply Hrec. intros c Hc. apply (unique_loop_In [] cands c Hc).
      * intros _. split.
        -- rewrite Hnames. apply unique_loop_NoDup.
        -- intros c Hc.
           destruct (unique_loop_complete [] cands c Hc)
             as [[]|(m & Hm & Heq)].
           exists (mkModule (name m)
                            (generate_description_algorithmic m ctx)
                            (extract_submodules m ctx)
                            (calculate_confidence
                               m (generate_description_algorithmic m ctx))).
           split; [|exact Heq].
           unfold format_output, generate_descriptions. rewrite map_map.
           apply in_map_iff. exists m. split; [reflexivity | exact Hm].
    + eexists. split; [reflexivity|]. split.
      * apply Hrec. auto.
      * intros H. congruence.
Qed.

End AnalyzeFacts.

(** The analysis of [guide_page]: the title and the first-level heading
    differ only in case, and one module is reported for both. *)
Lemma analyze_documentation_guide :
  option_map (map (fun m => (r_module m, r_description m)))
             (analyze_documentation [] None None [guide_page])
  = Some [ (lit "User Guide",
            lit ("User Guide: User Guide The guide includes billing, "
                 ++ "reports and more."));
           (lit "Docs", lit "Module related to Docs functionality.");
           (lit "Guides", lit "Module related to Guides functionality.") ].
Proof. vm_compute. reflexivity. Qed.

End PipelineFacts.

(** ** The json library *)

Module JsonFacts.
Import PyStr PyStrFacts Json.

(** ** Values that [json.dumps] writes and [json.loads] reads back *)

(** The keys of a dictionary are pairwise different. *)
Fixpoint distinct (keys : list str) : bool :=
  match keys with
  | [] => true
  | k :: t => negb (existsb (str_eqb k) t) && distinct t
  end.

(** A number literal: a digit or a minus sign, then number characters. *)
Definition number_literal (l : str) : bool :=
  match l with
  | [] => false
  | c :: _ => (is_digit c || Ascii.eqb c "-") && forallb is_number_char l
  end.

(** A value of Python data: finite numbers, and dictionaries with
    distinct keys. *)
Fixpoint well_formed (v : json) : bool :=
  match v with
  | JNull | JBool _ | JStr _ => true
  | JNum l => number_literal l
  | JArr items => forallb well_formed items
  | JObj members =>
      distinct (map fst members)
      && forallb (fun kv => well_formed (snd kv)) members
  end.

(** The first character of a written value is not white space and closes
    no container. *)
Definition value_head (s : str) : bool :=
  match s with
  | c :: _ =>
      negb (is_json_space c) && negb (Ascii.eqb c "]")
      && negb (Ascii.eqb c "}")
  | [] => false
  end.

(** The text after a number must not go on with a number character. *)
Definition ends_number (rest : str) : bool :=
  match rest with
  | c :: _ => negb (is_number_char c)
  | [] => true
  end.

(** A further entry of an array, and a further member of an object, as
    [dumps_at] writes them at a nesting level. *)
Definition item_text (level : nat) (y : json) : str :=
  lit "," ++ newline_indent level ++ dumps_at level y.

Definition member_text (level : nat) (ky : str * json) : str :=
  lit "," ++ newline_indent level ++ quote (fst ky) ++ lit ": "
  ++ dumps_at level (snd ky).

(** ** Induction on JSON values *)

Section JsonInd.

Variable P : json -> Prop.
Hypothesis HNull : P JNull.
Hypothesis HBool : forall b, P (JBool b).
Hypothesis HNum : forall l, P (JNum l).
Hypothesis HStr : forall s, P (JStr s).
Hypothesis HArr : forall items, List.Forall P items -> P (JArr items).
Hypothesis HObj :
  forall members, List.Forall (fun kv => P (snd kv)) members ->
                  P (JObj members).

Fixpoint json_ind (v : json) : P v :=
  match v with
  | JNull => HNull
  | JBool b => HBool b
  | JNum l => HNum l
  | JStr s => HStr s
  | JArr items =>
      HArr items
        ((fix all (l : list json) : List.Forall P l :=
            match l with
            | [] => @List.Forall_nil _ P
            | x :: l' => @List.Forall_cons _ _ x l' (json_ind x) (all l')
            end) items)
  | JObj members =>
      HObj members
        ((fix all (l : list (str * json))
            : List.Forall (fun kv => P (snd kv)) l :=
            match l with
            | [] => @List.Forall_nil _ _
            | kv :: l' =>
                @List.Forall_cons _ _ kv l' (json_ind (snd kv)) (all l')
            end) members)
  end.

End JsonInd.

(** ** Strings *)

Lemma scan_string_escape_char c t r rest :
  scan_string t = Some (r, rest) ->
  scan_string (escape_char c ++ t) = Some (c :: r, rest).
Proof.
  intros H.
  transitivity (match scan_string t with
                | Some (r0, rest0) => Some (c :: r0, rest0)
                | None => None
                end); [|rewrite H; reflexivity].
  destruct c as [[] [] [] [] [] [] [] []]; reflexivity.
Qed.

Lemma scan_string_quote s rest :
  scan_string (flat_map escape_char s ++ dquote :: rest) = Some (s, rest).
Proof.
  induction s as [|c s IH]; [reflexivity|].
  cbn [flat_map]. rewrite <- app_assoc.
  apply scan_string_escape_char, IH.
Qed.

(** ** White space and the head of a written value *)

Lemma skip_ws_spaces n s : skip_ws (repeat " "%char n ++ s) = skip_ws s.
Proof. induction n as [|n IH]; [reflexivity | exact IH]. Qed.

Lemma skip_ws_newline_indent level s :
  skip_ws (newline_indent level ++ s) = skip_ws s.
Proof. unfold newline_indent. cbn [app skip_ws]. apply skip_ws_spaces. Qed.

Lemma number_head_chars c :
  is_digit c || Ascii.eqb c "-" = true ->
  Ascii.eqb c dquote = false /\ Ascii.eqb c "[" = false
  /\ Ascii.eqb c "{" = false
  /\ negb (is_json_space c) && negb (Ascii.eqb c "]")
     && negb (Ascii.eqb c "}") = true.
Proof.
  destruct c as [[] [] [] [] [] [] [] []]; vm_compute; intros H;
    try discriminate; auto.
Qed.

Lemma dumps_at_head level v rest :
  well_formed v = true -> value_head (dumps_at level v ++ rest) = true.
Proof.
  destruct v as [|[]|l|s|[|x items]|[|kx members]]; try reflexivity.
  cbn [well_formed dumps_at]. unfold number_literal.
  destruct l as [|c l]; [discriminate|]. intros H.
  apply andb_true_iff in H as [H _]. cbn [app value_head].
  apply number_head_chars, H.
Qed.

Lemma skip_ws_value_head s : value_head s = true -> skip_ws s = s.
Proof.
  destruct s as [|c t]; [discriminate|]. cbn [value_head skip_ws].
  destruct (is_json_space c); [discriminate | reflexivity].
Qed.

Lemma begins_with_value_head s :
  value_head s = true ->
  begins_with "]" s = None /\ begins_with "}" s = None.
Proof.
  destruct s as [|c t]; [discriminate|]. cbn [value_head begins_with].
  destruct (Ascii.eqb c "]"), (Ascii.eqb c "}");
    rewrite ?andb_false_r; try discriminate; auto.
Qed.

Lemma next_token_comma close level s :
  value_head s = true ->
  next_token close (","%char :: newline_indent level ++ s) = Comma s.
Proof.
  intros H. unfold next_token.
  change (skip_ws (","%char :: newline_indent level ++ s))
    with (","%char :: newline_indent level ++ s).
  cbv iota. rewrite Ascii.eqb_refl, skip_ws_newline_indent.
  rewrite (skip_ws_value_head s H). reflexivity.
Qed.

Lemma next_token_close close level rest :
  is_json_space close = false -> Ascii.eqb close "," = false ->
  next_token close (newline_indent level ++ close :: rest) = Close rest.
Proof.
  intros Hs Hc. unfold next_token. rewrite skip_ws_newline_indent.
  cbn [skip_ws]. rewrite Hs, Hc, Ascii.eqb_refl. reflexivity.
Qed.

(** ** Numbers *)

Lemma scan_number_literal l rest :
  forallb is_number_char l = true -> ends_number rest = true ->
  scan_number (l ++ rest) = (l, rest).
Proof.
  intros Hl Hr. induction l as [|c l IH].
  - destruct rest as [|c t]; [reflexivity|]. cbn in *.
    apply negb_true_iff in Hr. rewrite Hr. reflexivity.
  - cbn [forallb] in Hl. apply andb_true_iff in Hl as [Hc Hl].
    cbn [app scan_number]. rewrite Hc, (IH Hl). reflexivity.
Qed.

(** ** Objects *)

Lemma str_eqb_sym a b : str_eqb a b = str_eqb b a.
Proof.
  destruct (str_eqb a b) eqn:E1, (str_eqb b a) eqn:E2; try reflexivity.
  - apply str_eqb_eq in E1. subst. rewrite str_eqb_refl in E2. discriminate.
  - apply str_eqb_eq in E2. subst. rewrite str_eqb_refl in E1. discriminate.
Qed.

Lemma obj_set_fresh acc k v :
  existsb (str_eqb k) (map fst acc) = false ->
  obj_set acc k v = acc ++ [(k, v)].
Proof.
  induction acc as [|[k' v'] acc IH]; [reflexivity|].
  cbn [map fst existsb obj_set app]. intros H.
  apply orb_false_iff in H as [Hk H]. rewrite str_eqb_sym, Hk, (IH H).
  reflexivity.
Qed.

Lemma distinct_middle a k b :
  distinct (a ++ k :: b) = true ->
  existsb (str_eqb k) a = false /\ distinct ((a ++ [k]) ++ b) = true.
Proof.
  rewrite <- app_assoc. cbn [app]. intros H. split; [|exact H].
  induction a as [|x a IH]; [reflexivity|].
  cbn [app distinct] in H. apply andb_true_iff in H as [Hx H].
  cbn [existsb]. rewrite (IH H), orb_false_r.
  apply negb_true_iff in Hx. rewrite existsb_app in Hx.
  apply orb_false_iff in Hx as [_ Hx]. cbn [existsb] in Hx.
  apply orb_false_iff in Hx as [Hx _]. rewrite str_eqb_sym. exact Hx.
Qed.

(** ** Containers *)

Lemma dumps_at_array level x l :
  dumps_at level (JArr (x :: l))
  = "["%char :: newline_indent (S level) ++ dumps_at (S level) x
    ++ flat_map (item_text (S level)) l
    ++ newline_indent level ++ ["]"%char].
Proof. reflexivity. Qed.

Lemma dumps_at_object level kx l :
  dumps_at level (JObj (kx :: l))
  = "{"%char :: newline_indent (S level) ++ quote (fst kx) ++ lit ": "
    ++ dumps_at (S level) (snd kx)
    ++ flat_map (member_text (S level)) l
    ++ newline_indent level ++ ["}"%char].
Proof. reflexivity. Qed.

Lemma scan_value_S fuel c t :
  scan_value (S fuel) (c :: t)
  = if Ascii.eqb c dquote then
      match scan_string t with
      | Some (r, rest) => Some (JStr r, rest)
      | None => None
      end
    else if Ascii.eqb c "[" then
      match begins_with "]" (skip_ws t) with
      | Some rest => Some (JArr [], rest)
      | None => scan_items (scan_value fuel) fuel (skip_ws t) []
      end
    else if Ascii.eqb c "{" then
      match begins_with "}" (skip_ws t) with
      | Some rest => Some (JObj [], rest)
      | None => scan_members (scan_value fuel) fuel (skip_ws t) []
      end
    else if is_digit c || Ascii.eqb c "-" then
      let '(n, rest) := scan_number (c :: t) in Some (JNum n, rest)
    else
      match expect (lit "null") (c :: t), expect (lit "true") (c :: t),
            expect (lit "false") (c :: t) with
      | Some rest, _, _ => Some (JNull, rest)
      | _, Some rest, _ => Some (JBool true, rest)
      | _, _, Some rest => Some (JBool false, rest)
      | _, _, _ => None
      end.
Proof. reflexivity. Qed.

(** The entries of a written array are read back one by one. *)
Lemma scan_items_dumps scan level level' :
  forall l x acc n rest,
    (forall y, In y (x :: l) ->
       well_formed y = true
       /\ forall r, ends_number r = true ->
                    scan (dumps_at level y ++ r) = Some (y, r)) ->
    length l < n ->
    scan_items scan n
      (dumps_at level x ++ flat_map (item_text level) l
       ++ newline_indent level' ++ "]"%char :: rest) acc
    = Some (JArr (rev acc ++ x :: l), rest).
Proof.
  induction l as [|y l IH]; intros x acc n rest Hall Hn;
    (destruct n as [|n]; [lia|]); cbn [scan_items flat_map app].
  - destruct (Hall x (or_introl eq_refl)) as [_ Hx].
    rewrite Hx by reflexivity.
    rewrite next_token_close by reflexivity. reflexivity.
  - destruct (Hall x (or_introl eq_refl)) as [_ Hx].
    destruct (Hall y (or_intror (or_introl eq_refl))) as [Hy _].
    unfold item_text at 1. rewrite <- !app_assoc.
    rewrite Hx by reflexivity.
    change (lit "," ++ newline_indent level ++ dumps_at level y
            ++ flat_map (item_text level) l
            ++ newline_indent level' ++ "]"%char :: rest)
      with (","%char :: newline_indent level
            ++ (dumps_at level y ++ flat_map (item_text level) l
                ++ newline_indent level' ++ "]"%char :: rest)).
    rewrite next_token_comma by (apply dumps_at_head, Hy).
    rewrite IH.
    + cbn [rev]. rewrite <- app_assoc. reflexivity.
    + intros z Hz. apply Hall. right. exact Hz.
    + cbn [length] in Hn. lia.
Qed.

Lemma scan_key_quote k s :
  value_head s = true ->
  scan_key (quote k ++ lit ": " ++ s) = Some (k, s).
Proof.
  intros H. unfold quote, scan_key. cbn [app]. rewrite Ascii.eqb_refl.
  rewrite <- app_assoc. cbn [app]. rewrite scan_string_quote.
  change (skip_ws (lit ": " ++ s)) with (":"%char :: " "%char :: s).
  cbv iota. rewrite Ascii.eqb_refl.
  change (skip_ws (" "%char :: s)) with (skip_ws s).
  rewrite (skip_ws_value_head s H). reflexivity.
Qed.

(** The members of a written object are read back one by one. *)
Lemma scan_members_dumps scan level level' :
  forall l kx acc n rest,
    (forall ky, In ky (kx :: l) ->
       well_formed (snd ky) = true
       /\ forall r, ends_number r = true ->
                    scan (dumps_at level (snd ky) ++ r) = Some (snd ky, r)) ->
    distinct (map fst (acc ++ kx :: l)) = true ->
    length l < n ->
    scan_members scan n
      (quote (fst kx) ++ lit ": " ++ dumps_at level (snd kx)
       ++ flat_map (member_text level) l
       ++ newline_indent level' ++ "}"%char :: rest) acc
    = Some (JObj (acc ++ kx :: l), rest).
Proof.
  induction l as [|ky l IH]; intros kx acc n rest Hall Hd Hn;
    (destruct n as [|n]; [lia|]); cbn [scan_members flat_map app];
    destruct (Hall kx (or_introl eq_refl)) as [Hwx Hx];
    rewrite map_app in Hd; cbn [map] in Hd;
    destruct (distinct_middle _ _ _ Hd) as [Hfresh Hd'];
    rewrite scan_key_quote by (apply dumps_at_head, Hwx).
  - rewrite Hx by reflexivity.
    rewrite next_token_close by reflexivity.
    rewrite (obj_set_fresh acc (fst kx) (snd kx) Hfresh).
    destruct kx. reflexivity.
  - destruct (Hall ky (or_intror (or_introl eq_refl))) as [Hwy _].
    unfold member_text at 1. rewrite <- !app_assoc.
    rewrite Hx by reflexivity.
    change (lit "," ++ newline_indent level ++ quote (fst ky) ++ lit ": "
            ++ dumps_at level (snd ky) ++ flat_map (member_text level) l
            ++ newline_indent level' ++ "}"%char :: rest)
      with (","%char :: newline_indent level
            ++ (quote (fst ky) ++ lit ": " ++ dumps_at level (snd ky)
                ++ flat_map (member_text level) l
                ++ newline_indent level' ++ "}"%char :: rest)).
    rewrite next_token_comma by reflexivity.
    rewrite (obj_set_fresh acc (fst kx) (snd kx) Hfresh).
    rewrite IH.
    + rewrite <- app_assoc. destruct kx. reflexivity.
    + intros z Hz. apply Hall. right. exact Hz.
    + rewrite !map_app. cbn [map]. destruct kx. exact Hd'.
    + cbn [length] in Hn. lia.
Qed.

(** ** The round trip *)

Lemma flat_map_length_In {A} (f : A -> str) (g : A -> nat) l :
  (forall y, g y <= length (f y)) ->
  forall y, In y l -> g y <= length (flat_map f l).
Proof.
  intros Hg y. induction l as [|x l IH]; [intros []|].
  cbn [flat_map]. rewrite length_app. intros [<-|H].
  - specialize (Hg x). lia.
  - specialize (IH H). lia.
Qed.

Lemma flat_map_length_count {A} (f : A -> str) l :
  (forall y, 1 <= length (f y)) -> length l <= length (flat_map f l).
Proof.
  intros Hf. induction l as [|x l IH]; [cbn; lia|].
  cbn [flat_map length]. rewrite length_app. specialize (Hf x). lia.
Qed.

Lemma item_text_length level y :
  1 <= length (item_text level y)
  /\ length (dumps_at level y) <= length (item_text level y).
Proof. unfold item_text. rewrite !length_app. cbn. lia. Qed.

Lemma member_text_length level ky :
  1 <= length (member_text level ky)
  /\ length (dumps_at level (snd ky)) <= length (member_text level ky).
Proof. unfold member_text. rewrite !length_app. cbn. lia. Qed.

(** Reading what was written gives the value back, with fuel for the
    written text. *)
Lemma scan_value_dumps v :
  well_formed v = true ->
  forall level fuel rest,
    length (dumps_at level v) <= fuel -> ends_number rest = true ->
    scan_value fuel (dumps_at level v ++ rest) = Some (v, rest).
Proof.
  induction v as [|b|l|s|items IH|members IH] using json_ind;
    intros Hwf level fuel rest Hfuel Hrest.
  - destruct fuel; [cbn in Hfuel; lia | reflexivity].
  - destruct fuel; [destruct b; cbn in Hfuel; lia | destruct b; reflexivity].
  - cbn [well_formed dumps_at] in *. unfold number_literal in Hwf.
    destruct l as [|c l]; [discriminate|].
    apply andb_true_iff in Hwf as [Hc Hl].
    destruct fuel; [cbn in Hfuel; lia|].
    cbn [app]. rewrite scan_value_S.
    destruct (number_head_chars c Hc) as (-> & -> & -> & _). rewrite Hc.
    change (c :: l ++ rest) with ((c :: l) ++ rest).
    rewrite (scan_number_literal _ _ Hl Hrest). reflexivity.
  - destruct fuel; [cbn in Hfuel; lia|].
    cbn [dumps_at]. unfold quote. cbn [app]. rewrite scan_value_S.
    rewrite Ascii.eqb_refl, <- app_assoc. cbn [app].
    rewrite scan_string_quote. reflexivity.
  - destruct items as [|x l].
    { destruct fuel; [cbn in Hfuel; lia | reflexivity]. }
    rewrite dumps_at_array in *. cbn [well_formed] in Hwf.
    destruct fuel; [cbn in Hfuel; lia|].
    cbn [app length] in *. rewrite !length_app in Hfuel.
    cbn [length] in Hfuel. rewrite scan_value_S.
    change (Ascii.eqb "[" dquote) with false.
    change (Ascii.eqb "[" "[") with true. cbv iota.
    rewrite <- !app_assoc. cbn [app].
    assert (Hx : well_formed x = true)
      by (cbn [forallb] in Hwf; apply andb_true_iff in Hwf; tauto).
    rewrite skip_ws_newline_indent.
    rewrite skip_ws_value_head by (apply dumps_at_head, Hx).
    rewrite (proj1 (begins_with_value_head _ (dumps_at_head _ _ _ Hx))).
    rewrite (scan_items_dumps (scan_value fuel) (S level) level);
      [reflexivity | | ].
    + intros y Hy.
      assert (Hwy : well_formed y = true)
        by (apply (proj1 (forallb_forall _ _) Hwf), Hy).
      split; [exact Hwy|]. intros r Hr.
      apply (proj1 (List.Forall_forall _ _) IH y Hy Hwy); [|exact Hr].
      destruct Hy as [<-|Hy]; [lia|].
      pose proof (flat_map_length_In (item_text (S level))
                    (fun y => length (dumps_at (S level) y)) l
                    (fun y => proj2 (item_text_length (S level) y)) y Hy).
      cbv beta in *. lia.
    + pose proof (flat_map_length_count (item_text (S level)) l
                    (fun y => proj1 (item_text_length (S level) y))).
      lia.
  - destruct members as [|kx l].
    { destruct fuel; [cbn in Hfuel; lia | reflexivity]. }
    rewrite dumps_at_object in *. cbn [well_formed] in Hwf.
    apply andb_true_iff in Hwf as [Hd Hwf].
    destruct fuel; [cbn in Hfuel; lia|].
    cbn [app length] in *. rewrite !length_app in Hfuel.
    cbn [length] in Hfuel. rewrite scan_value_S.
    change (Ascii.eqb "{" dquote) with false.
    change (Ascii.eqb "{" "[") with false.
    change (Ascii.eqb "{" "{") with true. cbv iota.
    rewrite <- !app_assoc. cbn [app].
    assert (Hq : forall r, value_head (quote (fst kx) ++ r) = true)
      by reflexivity.
    rewrite skip_ws_newline_indent.
    rewrite skip_ws_value_head by apply Hq.
    rewrite (proj2 (begins_with_value_head _ (Hq _))).
    rewrite (scan_members_dumps (scan_value fuel) (S level) level);
      [reflexivity | | exact Hd | ].
    + intros ky Hy.
      assert (Hwy : well_formed (snd ky) = true)
        by (apply (proj1 (forallb_forall _ _) Hwf), Hy).
      split; [exact Hwy|]. intros r Hr.
      apply (proj1 (List.Forall_forall _ _) IH ky Hy Hwy); [|exact Hr].
      destruct Hy as [<-|Hy]; [lia|].
      pose proof (flat_map_length_In (member_text (S level))
                    (fun ky => length (dumps_at (S level) (snd ky))) l
                    (fun ky => proj2 (member_text_length (S level) ky)) ky Hy).
      cbv beta in *. lia.
    + pose proof (flat_map_length_count (member_text (S level)) l
                    (fun ky => proj1 (member_text_length (S level) ky))).
      lia.
Qed.

(** [json.loads(json.dumps(v, indent=2, ensure_ascii=False)) == v] for
    every value of Python data. *)
Lemma loads_dumps v : well_formed v = true -> loads (dumps v) = Some v.
Proof.
  intros Hwf. unfold loads, dumps.
  pose proof (dumps_at_head 0 v [] Hwf) as Hh. rewrite app_nil_r in Hh.
  rewrite (skip_ws_value_head _ Hh).
  pose proof (scan_value_dumps v Hwf 0 (length (dumps_at 0 v)) []
                (Nat.le_refl _) eq_refl) as H.
  rewrite app_nil_r in H. rewrite H. reflexivity.
Qed.

End JsonFacts.

(** ** output_generator.py *)

Module OutputGeneratorFacts.
Import PyStr PyStrFacts Json JsonFacts OutputGenerator.

(** A module record of Python data: every value can be written by
    [json.dumps] and is read back as it is. *)
Definition python_record (module : list (str * json)) : bool :=
  forallb (fun kv => well_formed (snd kv)) module.

(** The record that [generate_json] writes for one module. *)
Definition written_record (timestamp : str) (include_metadata : bool)
    (module : list (str * json)) : list (str * json) :=
  [ (lit "module", dict_get module (lit "module") (JStr []));
    (lit "Description", dict_get module (lit "Description") (JStr []));
    (lit "Submodules", dict_get module (lit "Submodules") (JObj [])) ]
  ++ (if include_metadata then
        [ (lit "metadata",
           JObj [ (lit "confidence_score",
                   dict_get module (lit "confidence_score")
                            (JNum (lit "0.5")));
                  (lit "source_urls",
                   dict_get module (lit "source_urls") (JArr []));
                  (lit "extraction_timestamp", JStr timestamp) ]) ]
      else []).

(** A record as [format_output] builds it. *)
Definition analysed_module (name description score : string)
    : list (str * json) :=
  [ (lit "module", JStr (lit name));
    (lit "Description", JStr (lit description));
    (lit "Submodules",
     JObj [ (lit "Downloading", JStr (lit "Functionality related to it.")) ]);
    (lit "confidence_score", JNum (lit score)) ].

Lemma dict_get_well_formed module key default :
  python_record module = true -> well_formed default = true ->
  well_formed (dict_get module key default) = true.
Proof.
  intros Hm Hd. unfold dict_get.
  induction module as [|[k v] t IH]; [exact Hd|].
  cbn [python_record forallb snd] in Hm.
  apply andb_true_iff in Hm as [Hv Ht]. cbn [dict_lookup].
  destruct (str_eqb k key); [exact Hv | apply IH, Ht].
Qed.

Lemma generate_json_output_records timestamp modules include_metadata :
  generate_json_output timestamp modules include_metadata
  = JArr (map (fun module =>
                 JObj (written_record timestamp include_metadata module))
              modules).
Proof.
  unfold generate_json_output, written_record. f_equal.
  apply map_ext. intros module. destruct include_metadata; reflexivity.
Qed.

Lemma generate_json_output_well_formed timestamp modules include_metadata :
  forallb python_record modules = true ->
  well_formed (generate_json_output timestamp modules include_metadata)
  = true.
Proof.
  intros H. rewrite generate_json_output_records. cbn [well_formed].
  induction modules as [|m t IH]; [reflexivity|].
  cbn [forallb] in H. apply andb_true_iff in H as [Hm Ht].
  cbn [map forallb]. rewrite (IH Ht), andb_true_r.
  unfold written_record.
  destruct include_metadata; cbn [well_formed app map fst snd forallb];
    rewrite !dict_get_well_formed by (exact Hm || reflexivity); reflexivity.
Qed.

(** C2, as amended.  For every list of module records of Python data,
    parsing the text that [generate_json] returns gives one record per
    module, in order, with the module name, the description and the
    submodule mapping of the input ([module.get] with its defaults).  The
    confidence score is not a key of the record: it is left out without
    [include_metadata], and with it the score stands under
    ["metadata"]["confidence_score"]. *)
Theorem generate_json_round_trip (timestamp : str)
    (modules : list (list (str * json))) (include_metadata : bool) :
  forallb python_record modules = true ->
  exists parsed,
    loads (generate_json timestamp modules include_metadata)
    = Some (JArr (map JObj parsed))
    /\ Forall2
         (fun module record =>
            dict_lookup record (lit "module")
            = Some (dict_get module (lit "module") (JStr []))
            /\ dict_lookup record (lit "Description")
               = Some (dict_get module (lit "Description") (JStr []))
            /\ dict_lookup record (lit "Submodules")
               = Some (dict_get module (lit "Submodules") (JObj []))
            /\ dict_lookup record (lit "confidence_score") = None
            /\ match dict_lookup record (lit "metadata") with
               | Some metadata =>
                   include_metadata = true
                   /\ exists members,
                        metadata = JObj members
                        /\ dict_lookup members (lit "confidence_score")
                           = Some (dict_get module (lit "confidence_score")
                                            (JNum (lit "0.5")))
               | None => include_metadata = false
               end)
         modules parsed.
Proof.
  intros Hwf.
  exists (map (written_record timestamp include_metadata) modules). split.
  - unfold generate_json.
    rewrite (loads_dumps _ (generate_json_output_well_formed _ _ _ Hwf)).
    rewrite generate_json_output_records, map_map. reflexivity.
  - clear Hwf. induction modules as [|m t IH]; [constructor|].
    cbn [map]. constructor; [|exact IH].
    unfold written_record.
    destruct include_metadata; repeat split; try reflexivity.
    eexists. split; reflexivity.
Qed.

Lemma generate_json_round_trip_witness :
  exists parsed,
    loads (generate_json (lit "2024-01-01T00:00:00")
             [ analysed_module "Getting Started" "Getting Started: Hi." "0.7";
               analysed_module "Installation" "Installation: see below."
                               "0.7999999999999999" ]
             true)
    = Some (JArr (map JObj parsed))
    /\ length parsed = 2.
Proof.
  destruct (generate_json_round_trip (lit "2024-01-01T00:00:00")
              [ analysed_module "Getting Started" "Getting Started: Hi." "0.7";
                analysed_module "Installation" "Installation: see below."
                                "0.7999999999999999" ]
              true eq_refl) as (parsed & Hl & Hf).
  exists parsed. split; [exact Hl|].
  apply Forall2_length in Hf. symmetry. exact Hf.
Defined.

(** C2 fails as stated: called as [generate_json(modules)], the text
    holds no confidence score, the parsed record has no such key, and two
    inputs that differ in the score give the same text. *)
Lemma generate_json_drops_confidence :
  loads (generate_json (lit "2024-01-01T00:00:00")
           [analysed_module "Installation" "Installation: see below." "0.9"]
           false)
  = Some (JArr
            [ JObj [ (lit "module", JStr (lit "Installation"));
                     (lit "Description",
                      JStr (lit "Installation: see below."));
                     (lit "Submodules",
                      JObj [ (lit "Downloading",
                              JStr (lit "Functionality related to it.")) ])
                   ] ])
  /\ dict_lookup
       (analysed_module "Installation" "Installation: see below." "0.9")
       (lit "confidence_score")
     = Some (JNum (lit "0.9"))
  /\ generate_json (lit "2024-01-01T00:00:00")
       [analysed_module "Installation" "Installation: see below." "0.9"]
       false
     = generate_json (lit "2024-01-01T00:00:00")
         [analysed_module "Installation" "Installation: see below." "0.5"]
         false.
Proof. repeat split; vm_compute; reflexivity. Qed.

End OutputGeneratorFacts.

(** ** crawler.py *)

Module CrawlerFacts.
Import PyStr Utils Crawler.

(** ** A small web site to run the crawler on

    A page is written as the list of its [href] values; its markup is a
    tag followed by them, and the markup parser reads them back.  The
    server answers a URL by its canonical form, so it does not tell
    ["http://a.com/"] from ["http://a.com"].  Links are written as
    absolute URLs, which [urljoin] returns as they are.  The cache is
    off. *)

Definition page_markup (hrefs : list str) : str :=
  lit "<a> " ++ join (lit " ") hrefs.

Definition markup_hrefs (html : str) : option (list str) :=
  Some (tl (split_ws html)).

Fixpoint site_lookup (site : list (str * list str)) (url : str)
    : option (list str) :=
  match site with
  | [] => None
  | (u, hrefs) :: rest =>
      if str_eqb u url then Some hrefs else site_lookup rest url
  end.

Definition serve (site : list (str * list str)) (url : str) : http_response :=
  match site_lookup site (UtilsFacts.canon url) with
  | Some hrefs => Response 200 (Some (page_markup hrefs))
  | None => Response 404 None
  end.

Definition page_text (html : str) : option str :=
  Some (lit "Some documentation text.").

Definition page_title (html : str) : str := lit "Untitled".

Definition no_cache (url : str) : option cached_entry := None.

Definition absolute_join (base href : str) : option str := Some href.

(** Two iteration orders of a set of links: as inserted, and reversed. *)
Definition insertion_order (l : list str) : list str := dict_fromkeys l.

Definition crawl (site : list (str * list str))
    (set_order : list str -> list str) (start_url : str)
    (max_depth max_pages : Z) (schedule : list event) : option state :=
  run UtilsFacts.host_checks_pass UtilsFacts.host_checks_pass absolute_join
      false no_cache (serve site) page_text markup_hrefs page_title
      set_order start_url max_depth max_pages schedule (init start_url ∅).

(** One step of such a crawl. *)
Definition crawl_exec (site : list (str * list str))
    (set_order : list str -> list str) (start_url : str)
    (max_depth max_pages : Z) (e : event) (s : state) : option state :=
  exec UtilsFacts.host_checks_pass UtilsFacts.host_checks_pass absolute_join
       false no_cache (serve site) page_text markup_hrefs page_title
       set_order start_url max_depth max_pages e s.

(** The run goes through: every event of the schedule was enabled. *)
Definition goes_through {A} (o : option A) : bool :=
  match o with Some _ => true | None => false end.

Definition site_fetch_ok (site : list (str * list str)) (url : str) : bool :=
  fetch_ok false no_cache (serve site) page_text url.

(** A home page that links to itself, to a page that does not exist, to
    an anchor and to another host. *)
Definition home_site : list (str * list str) :=
  [ (lit "http://a.com",
     [lit "http://a.com/"; lit "#top"; lit "http://a.com/missing";
      lit "http://other.org/x"]) ].

Definition home_schedule : list event :=
  [Start 0; Finish 0; Start 0; Start 0; Finish 0; Finish 0].

(** After the two child calls have started, the fetch of
    ["http://a.com/missing"] (HTTP 404) is in flight at index 1. *)
Definition home_schedule_in_flight : list event :=
  [Start 0; Finish 0; Start 0; Start 0].

(** A page with the links [http://a.com/p0] ... for the given digits, each
    to a page without links. *)
Definition numbered (digits : string) : list str :=
  map (fun d => lit "http://a.com/p" ++ [d]) (lit digits).

Definition hub_site (digits : string) : list (str * list str) :=
  (lit "http://a.com", numbered digits)
    :: map (fun u => (u, [])) (numbered digits).

(** The start call runs and its fetch answers; the ten child calls run
    to their fetch, one after the other, and then the ten fetches
    answer. *)
Definition burst_schedule : list event :=
  [Start 0; Finish 0] ++ repeat (Start 0) 10 ++ repeat (Finish 0) 10.

(** The burst up to the point where the ten child calls have started. *)
Definition burst_started : list event :=
  [Start 0; Finish 0] ++ repeat (Start 0) 10.

Section CrawlFacts.

Variable check_bracketed_netloc : str -> bool.
Variable checknetloc_nfkc : str -> bool.
Variable urljoin : str -> str -> option str.
Variable CACHE_ENABLED : bool.
Variable cache_get : str -> option cached_entry.
Variable http_get : str -> http_response.
Variable extract_meaningful_content : str -> option str.
Variable find_all_a_href : str -> option (list str).
Variable extract_title : str -> str.
Variable set_order : list str -> list str.
Variable start_url : str.
Variable max_depth : Z.
Variable max_pages : Z.

Abbreviation fetch_page :=
  (fetch_page CACHE_ENABLED cache_get http_get extract_meaningful_content).
Abbreviation collect_links :=
  (collect_links check_bracketed_netloc checknetloc_nfkc urljoin).

Abbreviation extract_links :=
  (extract_links check_bracketed_netloc checknetloc_nfkc urljoin
                 find_all_a_href set_order).
Abbreviation base_domain :=
  (base_domain check_bracketed_netloc checknetloc_nfkc start_url).
Abbreviation stops := (stops max_depth max_pages).
Abbreviation start_task := (start_task max_depth max_pages).
Abbreviation finish_task :=
  (finish_task check_bracketed_netloc checknetloc_nfkc urljoin CACHE_ENABLED
               cache_get http_get extract_meaningful_content find_all_a_href
               extract_title set_order start_url max_depth).
Abbreviation exec :=
  (exec check_bracketed_netloc checknetloc_nfkc urljoin CACHE_ENABLED
        cache_get http_get extract_meaningful_content find_all_a_href
        extract_title set_order start_url max_depth max_pages).
Abbreviation run :=
  (run check_bracketed_netloc checknetloc_nfkc urljoin CACHE_ENABLED
       cache_get http_get extract_meaningful_content find_all_a_href
       extract_title set_order start_url max_depth max_pages).
Abbreviation init := (init start_url).

Abbreviation fetch_ok :=
  (fetch_ok CACHE_ENABLED cache_get http_get extract_meaningful_content).
Abbreviation normalize :=
  (normalize check_bracketed_netloc checknetloc_nfkc urljoin).
Abbreviation is_internal_link :=
  (is_internal_link check_bracketed_netloc checknetloc_nfkc).

(** Depths: calls start at depth 0 and go one level down; a call that
    passed the guard is within the limit. *)
Record depth_inv (s : state) : Prop := {
  created_depth : forall t, t ∈ created s -> (0 <= t_depth t)%Z;
  pending_depth :
    forall t, t ∈ pending s -> (0 <= t_depth t <= max_depth)%Z;
  results_depth :
    forall url r, results s !! url = Some r ->
                  (0 <= p_depth r <= max_depth)%Z }.

(** URLs: a recorded page was fetched with success under its own URL;
    the pending calls have distinct, visited URLs without a page yet;
    every URL passed to [fetch_page] is visited and was passed once. *)
Record url_inv (s : state) : Prop := {
  results_ok :
    forall url r, results s !! url = Some r ->
                  p_url r = url /\ fetch_ok url = true;
  results_fetched :
    forall url, is_Some (results s !! url) -> url ∈ fetched s;
  pending_nodup : NoDup (t_url <$> pending s);
  pending_fresh :
    forall t, t ∈ pending s ->
              (t_url t ∈ fetched s) /\ results s !! t_url t = None;
  fetched_visited : forall url, url ∈ fetched s -> url ∈ visited_urls s;
  fetched_nodup : NoDup (fetched s) }.

(** Counting: a call passes the guard only while fewer than [max_pages]
    pages are recorded, and every recorded page hands at most ten calls
    to the loop.  [slack] counts what can still become a page. *)
Definition slack (s : state) : Z :=
  Z.of_nat (size (results s)) + Z.of_nat (length (pending s))
  + (if (Z.of_nat (size (results s)) <? max_pages)%Z
     then Z.of_nat (length (created s)) else 0).

Definition count_inv (s : state) : Prop :=
  ((max_pages <= 0)%Z -> size (results s) = 0 /\ pending s = [])
  /\ ((1 <= max_pages)%Z ->
      (slack s
       <= 1 + 10 * Z.min (Z.of_nat (size (results s))) (max_pages - 1))%Z).

(** The semaphore: the five permits are either free or held by a fetch
    in flight, and a coroutine waits only when no permit is free. *)
Definition semaphore_inv (s : state) : Prop :=
  permits s + length (in_flight s) = 5
  /\ (0 < permits s -> waiting s = []).

(** A URL handed to [crawl_recursive]: the start URL as the caller wrote
    it, or a link in the form that [normalize_url] gives. *)
Definition seed_or_canonical (url : str) : Prop :=
  url = start_url \/ exists u, url = normalize u.

Definition canonical_inv (s : state) : Prop :=
  (forall t, t ∈ created s ++ pending s -> seed_or_canonical (t_url t))
  /\ (forall url, url ∈ fetched s -> seed_or_canonical url).

(** The fetches made so far, and the calls that can still lead to one. *)
Definition work (s : state) : Z :=
  Z.of_nat (length (fetched s))
  + (if (Z.of_nat (size (results s)) <? max_pages)%Z
     then Z.of_nat (length (created s)) else 0).

Definition work_inv (s : state) : Prop :=
  ((max_pages <= 0)%Z -> fetched s = [])
  /\ ((1 <= max_pages)%Z ->
      (work s
       <= 1 + 10 * Z.min (Z.of_nat (size (results s))) (max_pages - 1))%Z).

(** The largest number of pages that a run records. *)
Definition page_bound : Z := Z.max 0 (10 * max_pages - 9).

(** A measure that every step of the event loop lowers. *)
Definition potential (s : state) : Z :=
  2 * Z.of_nat (length (created s)) + Z.of_nat (length (pending s))
  + 21 * (page_bound - Z.of_nat (size (results s))).

(** The state of a crawl whose first call is turned away at the guard. *)
Definition idle (visited : gset str) (s : state) : Prop :=
  results s = ∅ /\ fetched s = [] /\ visited_urls s = visited
  /\ pending s = []
  /\ forall t, t ∈ created s -> t = mkTask start_url 0.

(** The state of a crawl whose start page cannot be fetched. *)
Definition seed_only (s : state) : Prop :=
  results s = ∅
  /\ (forall t, t ∈ created s ++ pending s -> t_url t = start_url)
  /\ length (fetched s) + length (created s) <= 1.

(** A page record holds what the fetch of its URL returned. *)
Definition record_inv (s : state) : Prop :=
  forall url r, results s !! url = Some r ->
    exists content html,
      fetch_page url = (Some content, Some html)
      /\ content <> [] /\ html <> []
      /\ r = mkPage url content html (p_depth r) (extract_title html).

(** Where a call comes from: it is the first call, or its URL is one of
    the first ten links of a recorded page one level up. *)
Definition origin (s : state) (url : str) (depth : Z) : Prop :=
  (url = start_url /\ depth = 0%Z)
  \/ exists parent p links,
       results s !! parent = Some p
       /\ depth = (p_depth p + 1)%Z
       /\ extract_links parent (p_html p) base_domain = Some links
       /\ In url (firstn 10 links).

Definition tree_inv (s : state) : Prop :=
  (forall t, t ∈ created s ++ pending s -> origin s (t_url t) (t_depth t))
  /\ (forall url r, results s !! url = Some r -> origin s url (p_depth r)).

(** ** What one step does *)

Lemma lookup_delete_split {A} (l : list A) i x :
  l !! i = Some x -> l ≡ₚ x :: delete i l.
Proof.
  intros H. rewrite delete_take_drop.
  rewrite <- (take_drop_middle l i x H) at 1.
  symmetry. apply Permutation_middle.
Qed.

Lemma child_tasks_spec visited links depth :
  length (child_tasks visited links depth) <= 10
  /\ forall c, c ∈ child_tasks visited links depth ->
       t_depth c = (depth + 1)%Z
       /\ (t_url c ∉ visited)
       /\ In (t_url c) (firstn 10 links).
Proof.
  unfold child_tasks. split.
  - rewrite length_map.
    etransitivity; [apply filter_length_le|]. apply firstn_le_length.
  - intros c Hc. apply list_elem_of_In, in_map_iff in Hc as (l & <- & Hl).
    apply filter_In in Hl as [Hl Hv]. cbn.
    split; [reflexivity|]. split; [|exact Hl].
    apply negb_true_iff, bool_decide_eq_false in Hv. exact Hv.
Qed.

(** A start either drops the call at the guard or adds its URL to the
    visited set and to the pending coroutines. *)
Lemma start_task_spec s i s' :
  start_task s i = Some s' ->
  exists t,
    created s ≡ₚ t :: created s'
    /\ results s' = results s /\ raised s' = raised s
    /\ ((stops s t = true
         /\ visited_urls s' = visited_urls s /\ fetched s' = fetched s
         /\ waiting s' = waiting s /\ in_flight s' = in_flight s
         /\ permits s' = permits s)
        \/ (stops s t = false
            /\ visited_urls s' = ({[t_url t]} ∪ visited_urls s)
            /\ fetched s' = t_url t :: fetched s
            /\ pending s' ≡ₚ t :: pending s
            /\ ((waiting s' = waiting s
                 /\ in_flight s' = in_flight s ++ [t]
                 /\ permits s = S (permits s'))
                \/ (waiting s' = waiting s ++ [t]
                    /\ in_flight s' = in_flight s
                    /\ permits s = 0 /\ permits s' = 0)))).
Proof.
  unfold Crawler.start_task.
  destruct (created s !! i) as [t|] eqn:Hi; [|discriminate].
  pose proof (lookup_delete_split _ _ _ Hi) as Hperm.
  destruct (stops s t) eqn:Hstop.
  - intros [= <-]. exists t. cbn. rewrite Hstop. split; [exact Hperm|].
    split; [reflexivity|]. split; [reflexivity|]. left. tauto.
  - destruct (permits s) as [|p] eqn:Hp; intros [= <-]; exists t; cbn;
      rewrite Hstop; (split; [exact Hperm|]);
      (split; [reflexivity|]); (split; [reflexivity|]); right;
      (split; [reflexivity|]); (split; [reflexivity|]);
      (split; [reflexivity|]); unfold pending; cbn.
    + split; [|right; auto].
      rewrite <- app_assoc. symmetry. apply Permutation_middle.
    + split; [|left; auto].
      rewrite app_assoc. symmetry.
      rewrite <- Permutation_cons_append. reflexivity.
Qed.

(** A finish takes the coroutine out of the pending ones, leaves the
    visited set alone, and records a page exactly when the fetch brought
    content and markup. *)
Lemma finish_task_spec s i s' :
  finish_task s i = Some s' ->
  exists t,
    in_flight s !! i = Some t
    /\ pending s ≡ₚ t :: pending s'
    /\ visited_urls s' = visited_urls s /\ fetched s' = fetched s
    /\ ((fetch_ok (t_url t) = false
         /\ results s' = results s /\ created s' = created s
         /\ raised s' = raised s)
        \/ (fetch_ok (t_url t) = true
            /\ (exists r, results s' = <[t_url t := r]> (results s)
                          /\ p_url r = t_url t /\ p_depth r = t_depth t)
            /\ exists children,
                 created s' = created s ++ children
                 /\ length children <= 10
                 /\ forall c, c ∈ children ->
                      t_depth c = (t_depth t + 1)%Z
                      /\ (t_depth t < max_depth)%Z)).
Proof.
  unfold Crawler.finish_task.
  destruct (in_flight s !! i) as [t|] eqn:Hi; [|discriminate].
  pose proof (lookup_delete_split _ _ _ Hi) as Hperm.
  assert (Hpend : forall q f p,
    (let '(queue, flying, free) :=
       match waiting s with
       | w :: ws => (ws, delete i (in_flight s) ++ [w], permits s)
       | [] => ([], delete i (in_flight s), S (permits s))
       end in (queue, flying, free)) = (q, f, p) ->
    waiting s ++ in_flight s ≡ₚ t :: q ++ f).
  { intros q f p. destruct (waiting s) as [|w ws]; intros [= <- <- <-].
    - cbn. exact Hperm.
    - etransitivity; [apply (Permutation_app_head _ Hperm)|].
      cbn. etransitivity; [apply perm_skip; symmetry; apply Permutation_middle|].
      etransitivity; [apply perm_swap|]. apply perm_skip.
      rewrite app_assoc. apply Permutation_cons_append. }
  destruct (match waiting s with
            | w :: ws => (ws, delete i (in_flight s) ++ [w], permits s)
            | [] => ([], delete i (in_flight s), S (permits s))
            end) as [[queue flying] free] eqn:Hq.
  specialize (Hpend queue flying free eq_refl).
  destruct (fetch_page (t_url t)) as [content html] eqn:Hf.
  assert (Hfo : fetch_ok (t_url t) = truthy content && truthy html)
    by (unfold fetch_ok; rewrite Hf; reflexivity).
  rewrite <- Hfo.
  destruct (fetch_ok (t_url t)) eqn:Hok.
  - destruct (t_depth t <? max_depth)%Z eqn:Hd.
    + destruct (extract_links _ _ _) as [links|]; intros [= <-]; exists t;
        cbn; (split; [reflexivity|]); (split; [exact Hpend|]);
        (split; [reflexivity|]); (split; [reflexivity|]); right;
        (split; [exact Hok|]); (split; [eexists; eauto|]).
      * eexists. split; [reflexivity|].
        destruct (child_tasks_spec (visited_urls s) links (t_depth t))
          as [Hlen Hall].
        split; [exact Hlen|]. intros c Hc. split; [apply Hall, Hc|lia].
      * exists []. rewrite app_nil_r. split; [reflexivity|].
        split; [cbn; lia|]. intros c Hc. inversion Hc.
    + intros [= <-]. exists t. cbn.
      split; [reflexivity|]. split; [exact Hpend|].
      split; [reflexivity|]. split; [reflexivity|]. right.
      split; [exact Hok|]. split; [eexists; eauto|].
      exists []. rewrite app_nil_r. split; [reflexivity|].
      split; [cbn; lia|]. intros c Hc. inversion Hc.
  - intros [= <-]. exists t. cbn.
    split; [reflexivity|]. split; [exact Hpend|].
    split; [reflexivity|]. split; [reflexivity|]. left. tauto.
Qed.

(** ** Invariants of a run *)

Lemma run_invariant (Inv : state -> Prop) :
  (forall e s s', Inv s -> exec e s = Some s' -> Inv s') ->
  forall schedule s s', Inv s -> run schedule s = Some s' -> Inv s'.
Proof.
  intros Hstep schedule. induction schedule as [|e rest IH]; intros s s' Hs.
  - intros [= <-]. exact Hs.
  - cbn [Crawler.run]. destruct (exec e s) as [s1|] eqn:He; [|discriminate].
    apply IH. apply (Hstep e s s1 Hs He).
Qed.

Lemma exec_cases e s s' :
  exec e s = Some s' ->
  raised s = false
  /\ ((exists i, start_task s i = Some s')
      \/ (exists i, finish_task s i = Some s')).
Proof.
  unfold Crawler.exec. destruct (raised s); [discriminate|].
  destruct e as [i|i]; intros H; (split; [reflexivity|]); eauto.
Qed.

Lemma stops_false s t :
  stops s t = false ->
  (t_depth t <= max_depth)%Z
  /\ (Z.of_nat (size (results s)) < max_pages)%Z
  /\ t_url t ∉ visited_urls s.
Proof.
  unfold Crawler.stops. rewrite !orb_false_iff.
  intros [[H1 H2] H3]. apply Z.ltb_ge in H1. apply Z.leb_gt in H2.
  apply bool_decide_eq_false in H3. auto.
Qed.

Lemma depth_inv_step e s s' :
  depth_inv s -> exec e s = Some s' -> depth_inv s'.
Proof.
  intros [Hc Hp Hr] He.
  apply exec_cases in He as [_ [[i Hs]|[i Hf]]].
  - apply start_task_spec in Hs
      as (t & Hcr & Hres & _ & [(Hst & _ & _ & Hw & Hfl & _)
                               |(Hst & _ & _ & Hpe & _)]).
    + split.
      * intros t' Ht'. apply Hc. rewrite Hcr. right. exact Ht'.
      * unfold pending. rewrite Hw, Hfl. exact Hp.
      * rewrite Hres. exact Hr.
    + split.
      * intros t' Ht'. apply Hc. rewrite Hcr. right. exact Ht'.
      * intros t' Ht'. rewrite Hpe in Ht'.
        apply elem_of_cons in Ht' as [->|Ht']; [|apply Hp, Ht'].
        apply stops_false in Hst as (Hd & _).
        split; [|exact Hd]. apply Hc. rewrite Hcr. left.
      * rewrite Hres. exact Hr.
  - apply finish_task_spec in Hf
      as (t & _ & Hpe & _ & _ & [(_ & Hres & Hcr & _)
                               |(_ & (r & Hres & _ & Hrd) & (ch & Hcr & _ & Hch))]).
    + split.
      * rewrite Hcr. exact Hc.
      * intros t' Ht'. apply Hp. rewrite Hpe. right. exact Ht'.
      * rewrite Hres. exact Hr.
    + assert (Ht : (0 <= t_depth t <= max_depth)%Z)
        by (apply Hp; rewrite Hpe; left).
      split.
      * intros t' Ht'. rewrite Hcr in Ht'.
        apply elem_of_app in Ht' as [Ht'|Ht']; [apply Hc, Ht'|].
        destruct (Hch t' Ht') as [-> _]. lia.
      * intros t' Ht'. apply Hp. rewrite Hpe. right. exact Ht'.
      * intros url r' Hl. rewrite Hres in Hl.
        apply lookup_insert_Some in Hl as [[_ <-]|[_ Hl]];
          [rewrite Hrd; exact Ht | apply (Hr _ _ Hl)].
Qed.

Lemma depth_inv_init visited : depth_inv (init visited).
Proof.
  split; cbn.
  - intros t Ht. apply list_elem_of_singleton in Ht as ->. cbn. lia.
  - intros t Ht. inversion Ht.
  - intros url r Hl. rewrite lookup_empty in Hl. discriminate.
Qed.

Lemma url_inv_step e s s' :
  url_inv s -> exec e s = Some s' -> url_inv s'.
Proof.
  intros [Hok Hrf Hnd Hfr Hfv Hfn] He.
  apply exec_cases in He as [_ [[i Hs]|[i Hf]]].
  - apply start_task_spec in Hs
      as (t & _ & Hres & _ & [(_ & Hv & Hfe & Hw & Hfl & _)
                             |(Hst & Hv & Hfe & Hpe & _)]).
    + split; unfold pending; rewrite ?Hres, ?Hv, ?Hfe, ?Hw, ?Hfl; assumption.
    + apply stops_false in Hst as (_ & _ & Hnv).
      assert (Hnf : t_url t ∉ fetched s) by (intros H; apply Hnv, Hfv, H).
      split; rewrite ?Hres, ?Hv, ?Hfe.
      * exact Hok.
      * intros url Hu. right. apply Hrf, Hu.
      * rewrite Hpe. cbn. apply NoDup_cons. split; [|exact Hnd].
        intros Hin. apply list_elem_of_fmap in Hin as (t' & Heq & Ht').
        apply Hnf. rewrite Heq. apply (Hfr t' Ht').
      * intros t' Ht'. rewrite Hpe in Ht'.
        apply elem_of_cons in Ht' as [->|Ht'].
        -- split; [left|].
           destruct (results s !! t_url t) eqn:E; [|reflexivity].
           exfalso. apply Hnf, Hrf. eauto.
        -- destruct (Hfr t' Ht') as [H1 H2]. split; [right; exact H1|exact H2].
      * intros url Hu. apply elem_of_cons in Hu as [->|Hu];
          [apply elem_of_union_l, elem_of_singleton; reflexivity
          | apply elem_of_union_r, Hfv, Hu].
      * apply NoDup_cons. split; assumption.
  - apply finish_task_spec in Hf
      as (t & _ & Hpe & Hv & Hfe & [(_ & Hres & _ & _)
                                   |(Hfo & (r & Hres & Hru & _) & _)]).
    + assert (Hnd' : NoDup (t_url <$> pending s')).
      { rewrite Hpe in Hnd. cbn in Hnd. apply NoDup_cons in Hnd. tauto. }
      split; rewrite ?Hres, ?Hv, ?Hfe; try assumption.
      intros t' Ht'. apply Hfr. rewrite Hpe. right. exact Ht'.
    + assert (Hnd' : (t_url t ∉ t_url <$> pending s')
                     /\ NoDup (t_url <$> pending s')).
      { rewrite Hpe in Hnd. cbn in Hnd. apply NoDup_cons in Hnd. exact Hnd. }
      destruct Hnd' as [Hnt Hnd'].
      assert (Ht : t ∈ pending s) by (rewrite Hpe; left).
      split; rewrite ?Hres, ?Hv, ?Hfe; try assumption.
      * intros url r' Hl.
        apply lookup_insert_Some in Hl as [[<- <-]|[_ Hl]];
          [split; assumption | apply (Hok _ _ Hl)].
      * intros url Hu. apply lookup_insert_is_Some in Hu as [<-|[_ Hu]];
          [apply (Hfr t Ht) | apply Hrf, Hu].
      * intros t' Ht'.
        assert (Ht'' : t' ∈ pending s) by (rewrite Hpe; right; exact Ht').
        destruct (Hfr t' Ht'') as [H1 H2]. split; [exact H1|].
        rewrite lookup_insert_ne; [exact H2|].
        intros Heq. apply Hnt. rewrite Heq. apply list_elem_of_fmap_2, Ht'.
Qed.

Lemma url_inv_init visited : url_inv (init visited).
Proof.
  split; cbn.
  - intros url r Hl. rewrite lookup_empty in Hl. discriminate.
  - intros url [r Hl]. rewrite lookup_empty in Hl. discriminate.
  - constructor.
  - intros t Ht. inversion Ht.
  - intros url Hu. inversion Hu.
  - constructor.
Qed.

Lemma count_inv_step e s s' :
  url_inv s -> count_inv s -> exec e s = Some s' -> count_inv s'.
Proof.
  intros Hu [Hz Hpos] He. unfold count_inv, slack in *.
  apply exec_cases in He as [_ [[i Hs]|[i Hf]]].
  - apply start_task_spec in Hs
      as (t & Hcr & Hres & _ & [(_ & _ & _ & Hw & Hfl & _)
                               |(Hst & _ & _ & Hpe & _)]).
    + apply Permutation_length in Hcr. cbn in Hcr.
      unfold pending in *. rewrite Hres, Hw, Hfl. split; [exact Hz|].
      intros HM. specialize (Hpos HM). revert Hpos.
      destruct (_ <? max_pages)%Z; lia.
    + apply stops_false in Hst as (_ & HR & _).
      apply Permutation_length in Hcr, Hpe. cbn in Hcr, Hpe.
      rewrite Hres, Hpe. split.
      * intros HM. lia.
      * intros HM. specialize (Hpos HM).
        apply Z.ltb_lt in HR. rewrite HR in *. lia.
  - apply finish_task_spec in Hf
      as (t & _ & Hpe & _ & _ & [(_ & Hres & Hcr & _)
                               |(_ & (r & Hres & _ & _) & (ch & Hcr & Hlen & _))]).
    + pose proof (Permutation_length Hpe) as Hl. cbn in Hl.
      rewrite Hres, Hcr. split.
      * intros HM. destruct (Hz HM) as [_ Hnil].
        rewrite Hnil in Hpe. apply Permutation_nil_cons in Hpe. contradiction.
      * intros HM. specialize (Hpos HM). revert Hpos.
        destruct (_ <? max_pages)%Z; lia.
    + pose proof (Permutation_length Hpe) as Hl. cbn in Hl.
      assert (Ht : t ∈ pending s) by (rewrite Hpe; left).
      assert (Hsz : size (results s') = S (size (results s))).
      { rewrite Hres. apply map_size_insert_None.
        apply (pending_fresh _ Hu t Ht). }
      rewrite Hsz, Hcr, length_app. split.
      * intros HM. destruct (Hz HM) as [_ Hnil].
        rewrite Hnil in Hpe. apply Permutation_nil_cons in Hpe. contradiction.
      * intros HM. specialize (Hpos HM). revert Hpos.
        destruct (Z.of_nat (size (results s)) <? max_pages)%Z eqn:E1;
          destruct (Z.of_nat (S (size (results s))) <? max_pages)%Z eqn:E2;
          try apply Z.ltb_lt in E1; try apply Z.ltb_ge in E1;
          try apply Z.ltb_lt in E2; try apply Z.ltb_ge in E2; lia.
Qed.

Lemma count_inv_init visited : count_inv (init visited).
Proof.
  unfold count_inv, slack, pending, Crawler.init.
  cbn [results created waiting in_flight app length].
  rewrite map_size_empty. split.
  - intros _. split; reflexivity.
  - intros HM. destruct (Z.of_nat 0 <? max_pages)%Z eqn:E; [lia|].
    apply Z.ltb_ge in E. lia.
Qed.

(** All three invariants hold along every run. *)
Lemma run_invariants visited schedule s :
  run schedule (init visited) = Some s ->
  depth_inv s /\ url_inv s /\ count_inv s.
Proof.
  apply (run_invariant (fun s => depth_inv s /\ url_inv s /\ count_inv s)).
  - intros e s0 s1 (Hd & Hu & Hc) He. split; [|split].
    + apply (depth_inv_step e s0 s1 Hd He).
    + apply (url_inv_step e s0 s1 Hu He).
    + apply (count_inv_step e s0 s1 Hu Hc He).
  - split; [apply depth_inv_init|].
    split; [apply url_inv_init | apply count_inv_init].
Qed.

(** ** The semaphore *)

(** The answer of a fetch hands the permit to the head of the queue, or
    frees it when nobody waits. *)
Lemma finish_task_semaphore s i s' :
  finish_task s i = Some s' ->
  exists t,
    in_flight s !! i = Some t
    /\ ((waiting s = [] /\ waiting s' = []
         /\ in_flight s' = delete i (in_flight s)
         /\ permits s' = S (permits s))
        \/ (exists w, waiting s = w :: waiting s'
                      /\ in_flight s' = delete i (in_flight s) ++ [w]
                      /\ permits s' = permits s)).
Proof.
  unfold Crawler.finish_task.
  destruct (in_flight s !! i) as [t|] eqn:Hi; [|discriminate].
  intros H. exists t. split; [reflexivity|].
  destruct (waiting s) as [|w ws]; destruct (fetch_page (t_url t)) as [c h];
    destruct (truthy c && truthy h);
    try destruct (t_depth t <? max_depth)%Z;
    try destruct (extract_links _ _ _);
    injection H as <-; cbn; eauto 10.
Qed.

Lemma semaphore_inv_step e s s' :
  semaphore_inv s -> exec e s = Some s' -> semaphore_inv s'.
Proof.
  intros [Hsum Hq] He. apply exec_cases in He as [_ [[i Hs]|[i Hf]]].
  - apply start_task_spec in Hs
      as (t & _ & _ & _ & [(_ & _ & _ & Hw & Hi & Hp)
                          |(_ & _ & _ & _ & [(Hw & Hi & Hp)|(Hw & Hi & Hp & Hp')])]).
    + unfold semaphore_inv. rewrite Hw, Hi, Hp. split; assumption.
    + unfold semaphore_inv. rewrite Hw, Hi, length_app. cbn [length].
      split; [lia|]. intros _. apply Hq. lia.
    + unfold semaphore_inv. rewrite Hi, Hp'. split; [lia|]. lia.
  - apply finish_task_semaphore in Hf
      as (t & Hi & [(Hw & Hw' & Hfl & Hp)|(w & Hw & Hfl & Hp)]).
    + assert (Hlen : length (in_flight s) = S (length (in_flight s'))).
      { rewrite Hfl, length_delete by eauto.
        apply lookup_lt_Some in Hi. lia. }
      unfold semaphore_inv. split; [lia|]. intros _. exact Hw'.
    + assert (Hlen : length (in_flight s') = length (in_flight s)).
      { rewrite Hfl, length_app, length_delete by eauto. cbn [length].
        apply lookup_lt_Some in Hi. lia. }
      unfold semaphore_inv. rewrite Hp, Hlen. split; [exact Hsum|].
      intros Hpos. specialize (Hq Hpos). rewrite Hq in Hw. discriminate.
Qed.

(** X16.  At any time of any run at most five fetches are in flight: the
    permits that are free and the fetches that hold a permit add up to
    five. *)
Theorem concurrency_cap (visited : gset str) (schedule : list event)
    (s : state) :
  run schedule (init visited) = Some s ->
  length (in_flight s) <= 5
  /\ permits s + length (in_flight s) = 5.
Proof.
  intros Hrun.
  assert (H : semaphore_inv s).
  { revert Hrun. apply (run_invariant semaphore_inv).
    - apply semaphore_inv_step.
    - split; [reflexivity | reflexivity]. }
  destruct H as [H _]. split; [lia | exact H].
Qed.

(** ** Canonical forms of the crawled URLs *)

Lemma collect_links_normalized url domain hrefs links :
  collect_links url domain hrefs = Some links ->
  forall x, In x links -> exists u, x = normalize u.
Proof.
  revert links.
  induction hrefs as [|href rest IH]; intros links;
    cbn [Crawler.collect_links].
  - intros [= <-] x [].
  - destruct (startswith (lit "#") href || startswith (lit "javascript:") href);
      [apply IH|].
    destruct (urljoin url href) as [absolute_url|]; [|discriminate].
    destruct (Crawler.collect_links _ _ _ url domain rest) as [l|];
      [|discriminate].
    destruct (is_internal_link _ _); intros [= <-] x Hx.
    + destruct Hx as [<-|Hx]; [eauto | apply (IH l eq_refl x Hx)].
    + apply (IH l eq_refl x Hx).
Qed.

(** The calls that the answer of a fetch creates are for links that
    [extract_links] returned. *)
Lemma finish_task_children s i s' :
  finish_task s i = Some s' ->
  created s' = created s
  \/ exists url html links depth,
       extract_links url html base_domain = Some links
       /\ created s' = created s ++ child_tasks (visited_urls s) links depth.
Proof.
  unfold Crawler.finish_task.
  destruct (in_flight s !! i) as [t|]; [|discriminate].
  destruct (waiting s) as [|w ws]; destruct (fetch_page (t_url t)) as [c h];
    destruct (truthy c && truthy h);
    try destruct (t_depth t <? max_depth)%Z;
    try destruct (extract_links _ _ _) eqn:He;
    intros [= <-]; cbn; eauto 10.
Qed.

Lemma canonical_inv_step
    (Hset : forall l x, In x (set_order l) -> In x l) e s s' :
  canonical_inv s -> exec e s = Some s' -> canonical_inv s'.
Proof.
  intros [Hc Hf] He. apply exec_cases in He as [_ [[i Hs]|[i Hfin]]].
  - apply start_task_spec in Hs
      as (t & Hcr & _ & _ & [(_ & _ & Hfe & Hw & Hi & _)
                            |(_ & _ & Hfe & Hpe & _)]).
    + split.
      * intros t' Ht'. apply Hc. unfold pending in *. rewrite Hw, Hi in Ht'.
        apply elem_of_app in Ht' as [Ht'|Ht']; apply elem_of_app;
          [left; rewrite Hcr; right; exact Ht' | right; exact Ht'].
      * rewrite Hfe. exact Hf.
    + assert (Ht : seed_or_canonical (t_url t)).
      { apply Hc, elem_of_app. left. rewrite Hcr. left. }
      split.
      * intros t' Ht'. apply elem_of_app in Ht' as [Ht'|Ht'].
        -- apply Hc, elem_of_app. left. rewrite Hcr. right. exact Ht'.
        -- rewrite Hpe in Ht'. apply elem_of_cons in Ht' as [->|Ht'];
             [exact Ht | apply Hc, elem_of_app; right; exact Ht'].
      * intros url Hu. rewrite Hfe in Hu.
        apply elem_of_cons in Hu as [->|Hu]; [exact Ht | apply Hf, Hu].
  - pose proof (finish_task_children s i s' Hfin) as Hch.
    apply finish_task_spec in Hfin as (t & _ & Hpe & _ & Hfe & _).
    split; [|rewrite Hfe; exact Hf].
    assert (Hold : forall t', t' ∈ created s ++ pending s' ->
                              seed_or_canonical (t_url t')).
    { intros t' Ht'. apply Hc.
      apply elem_of_app in Ht' as [Ht'|Ht']; apply elem_of_app;
        [left; exact Ht' | right; rewrite Hpe; right; exact Ht']. }
    destruct Hch as [Hcr|(url & html & links & depth & Hl & Hcr)];
      rewrite Hcr; [exact Hold|].
    intros t' Ht'. rewrite <- app_assoc in Ht'.
    apply elem_of_app in Ht' as [Ht'|Ht'];
      [apply Hold, elem_of_app; left; exact Ht'|].
    apply elem_of_app in Ht' as [Ht'|Ht'];
      [|apply Hold, elem_of_app; right; exact Ht'].
    apply child_tasks_spec in Ht' as (_ & _ & Hin). right.
    unfold Crawler.extract_links in Hl.
    destruct (find_all_a_href html) as [hrefs|]; [|discriminate].
    destruct (collect_links url base_domain hrefs) as [collected|] eqn:Hcl;
      [|discriminate].
    injection Hl as <-.
    apply (collect_links_normalized _ _ _ _ Hcl).
    apply Hset. rewrite <- (firstn_skipn 10 (set_order collected)).
    apply in_or_app. left. exact Hin.
Qed.

(** X17.  Every URL passed to [fetch_page] is the start URL, as written, or a
    link in canonical form; the URLs are pairwise different strings. *)
Theorem fetched_urls_canonical
    (Hset : forall l x, In x (set_order l) -> In x l)
    (visited : gset str) (schedule : list event) (s : state) :
  run schedule (init visited) = Some s ->
  NoDup (fetched s)
  /\ forall url, url ∈ fetched s -> seed_or_canonical url.
Proof.
  intros Hrun. split.
  - destruct (run_invariants _ _ _ Hrun) as (_ & Hu & _).
    apply (fetched_nodup _ Hu).
  - assert (H : canonical_inv s).
    { revert Hrun. apply (run_invariant canonical_inv).
      - apply canonical_inv_step, Hset.
      - split.
        + intros t Ht. cbn in Ht. apply elem_of_cons in Ht as [->|Ht];
            [left; reflexivity | apply elem_of_nil in Ht; destruct Ht].
        + intros url Hu. cbn in Hu. apply elem_of_nil in Hu. destruct Hu. }
    apply H.
Qed.

(** ** The claims about a crawl run *)

(** C8.  In every state of every run of [crawl_documentation], hence in
    the mapping it returns, each page record has a depth between 0 and
    [max_depth]. *)
Theorem crawl_depth_bound (visited : gset str) (schedule : list event)
    (s : state) :
  run schedule (init visited) = Some s ->
  forall url r, results s !! url = Some r ->
                (0 <= p_depth r <= max_depth)%Z.
Proof.
  intros Hrun. destruct (run_invariants _ _ _ Hrun) as (Hd & _ & _).
  apply (results_depth _ Hd).
Qed.

(** C7, as amended.  In every state of every run the result mapping is
    empty when [max_pages <= 0] and has at most [10 * max_pages - 9]
    entries otherwise: the guard is passed only while fewer than
    [max_pages] pages are recorded, and each recorded page starts at most
    ten calls. *)
Theorem crawl_page_count (visited : gset str) (schedule : list event)
    (s : state) :
  run schedule (init visited) = Some s ->
  ((max_pages <= 0)%Z -> size (results s) = 0)
  /\ ((1 <= max_pages)%Z ->
      (Z.of_nat (size (results s)) <= 10 * max_pages - 9)%Z).
Proof.
  intros Hrun. destruct (run_invariants _ _ _ Hrun) as (_ & _ & [Hz Hpos]).
  split.
  - intros HM. apply (Hz HM).
  - intros HM. specialize (Hpos HM). unfold slack in Hpos.
    destruct (_ <? max_pages)%Z; lia.
Qed.

Lemma finish_task_enabled s i t :
  in_flight s !! i = Some t -> exists s', finish_task s i = Some s'.
Proof.
  intros Hi. unfold Crawler.finish_task. rewrite Hi.
  destruct (waiting s); destruct (fetch_page (t_url t)) as [c h];
    destruct (truthy c && truthy h); try (eexists; reflexivity);
    destruct (t_depth t <? max_depth)%Z; try (eexists; reflexivity);
    destruct (extract_links _ _ _); eexists; reflexivity.
Qed.

(** C9.  Along every run: a URL whose fetch fails has no entry in the
    result mapping; every URL passed to [fetch_page] is in the visited
    set, and none is passed twice; and when the fetch of a coroutine
    fails, its step runs to the end without raising and leaves the
    results, the visited set and the other coroutines as they were. *)
Theorem fetch_failure_semantics (visited : gset str)
    (schedule : list event) (s : state) :
  run schedule (init visited) = Some s ->
  (forall url, fetch_ok url = false -> results s !! url = None)
  /\ (forall url, url ∈ fetched s -> url ∈ visited_urls s)
  /\ NoDup (fetched s)
  /\ (forall i t,
        raised s = false -> in_flight s !! i = Some t ->
        fetch_ok (t_url t) = false ->
        exists s',
          exec (Finish i) s = Some s'
          /\ results s' = results s
          /\ visited_urls s' = visited_urls s
          /\ t_url t ∈ visited_urls s'
          /\ created s' = created s
          /\ raised s' = false
          /\ pending s ≡ₚ t :: pending s').
Proof.
  intros Hrun. destruct (run_invariants _ _ _ Hrun) as (_ & Hu & _).
  split; [|split; [|split]].
  - intros url Hfail. destruct (results s !! url) as [r|] eqn:E; [|reflexivity].
    destruct (results_ok _ Hu url r E) as [_ Hok]. congruence.
  - apply (fetched_visited _ Hu).
  - apply (fetched_nodup _ Hu).
  - intros i t Hr Hi Hfail.
    destruct (finish_task_enabled s i t Hi) as [s' Hs']. exists s'.
    unfold Crawler.exec. rewrite Hr. split; [exact Hs'|].
    apply finish_task_spec in Hs'
      as (t' & Hi' & Hpe & Hv & _ & [(_ & Hres & Hcr & Hra)|(Hok & _)]).
    + assert (t' = t) by congruence. subst t'.
      rewrite Hres, Hv, Hcr, Hra, Hr. repeat split; try reflexivity.
      * apply (fetched_visited _ Hu).
        apply (pending_fresh _ Hu). rewrite Hpe. left.
      * exact Hpe.
    + assert (t' = t) by congruence. subst t'. congruence.
Qed.

(** ** The links followed from a page (C6) *)


(** ** The work of a run *)

Lemma work_inv_step e s s' :
  url_inv s -> work_inv s -> exec e s = Some s' -> work_inv s'.
Proof.
  intros Hu [Hz Hpos] He. unfold work_inv, work in *.
  apply exec_cases in He as [_ [[i Hs]|[i Hf]]].
  - apply start_task_spec in Hs
      as (t & Hcr & Hres & _ & [(_ & _ & Hfe & _)
                               |(Hst & _ & Hfe & _)]).
    + apply Permutation_length in Hcr. cbn in Hcr.
      rewrite Hres, Hfe. split; [exact Hz|].
      intros HM. specialize (Hpos HM). revert Hpos.
      destruct (_ <? max_pages)%Z; lia.
    + apply stops_false in Hst as (_ & HR & _).
      apply Permutation_length in Hcr. cbn in Hcr.
      rewrite Hres, Hfe. cbn [length]. split.
      * intros HM. lia.
      * intros HM. specialize (Hpos HM).
        apply Z.ltb_lt in HR. rewrite HR in *. lia.
  - apply finish_task_spec in Hf
      as (t & _ & Hpe & _ & Hfe & [(_ & Hres & Hcr & _)
                                 |(_ & (r & Hres & _ & _) & (ch & Hcr & Hlen & _))]).
    + rewrite Hres, Hcr, Hfe. split; assumption.
    + assert (Ht : t ∈ pending s) by (rewrite Hpe; left).
      assert (Hsz : size (results s') = S (size (results s))).
      { rewrite Hres. apply map_size_insert_None.
        apply (pending_fresh _ Hu t Ht). }
      rewrite Hsz, Hcr, Hfe, length_app. split; [exact Hz|].
      intros HM. specialize (Hpos HM). revert Hpos.
      destruct (Z.of_nat (size (results s)) <? max_pages)%Z eqn:E1;
        destruct (Z.of_nat (S (size (results s))) <? max_pages)%Z eqn:E2;
        try apply Z.ltb_lt in E1; try apply Z.ltb_ge in E1;
        try apply Z.ltb_lt in E2; try apply Z.ltb_ge in E2; lia.
Qed.

(** X18.  The number of fetches of a run: none when [max_pages <= 0], and at
    most [10 * max_pages - 9] otherwise, whether they succeed or fail. *)
Theorem crawl_fetch_bound (visited : gset str) (schedule : list event)
    (s : state) :
  run schedule (init visited) = Some s ->
  ((max_pages <= 0)%Z -> fetched s = [])
  /\ ((1 <= max_pages)%Z ->
      (Z.of_nat (length (fetched s)) <= 10 * max_pages - 9)%Z).
Proof.
  intros Hrun.
  assert (H : url_inv s /\ work_inv s).
  { revert Hrun. apply (run_invariant (fun s => url_inv s /\ work_inv s)).
    - intros e s0 s1 [Hu Hw] He. split.
      + apply (url_inv_step e s0 s1 Hu He).
      + apply (work_inv_step e s0 s1 Hu Hw He).
    - split; [apply url_inv_init|]. unfold work_inv, work, Crawler.init.
      cbn [results created fetched length].
      rewrite map_size_empty. split; [reflexivity|].
      intros HM. destruct (Z.of_nat 0 <? max_pages)%Z eqn:E; [lia|].
      apply Z.ltb_ge in E. lia. }
  destruct H as [_ [Hz Hpos]]. split; [exact Hz|].
  intros HM. specialize (Hpos HM). unfold work in Hpos.
  destruct (_ <? max_pages)%Z; lia.
Qed.

Lemma potential_step e s s' :
  url_inv s -> exec e s = Some s' -> (potential s' + 1 <= potential s)%Z.
Proof.
  intros Hu He. unfold potential.
  apply exec_cases in He as [_ [[i Hs]|[i Hf]]].
  - apply start_task_spec in Hs
      as (t & Hcr & Hres & _ & [(_ & _ & _ & Hw & Hfl & _)
                               |(_ & _ & _ & Hpe & _)]).
    + apply Permutation_length in Hcr. cbn in Hcr.
      unfold pending. rewrite Hres, Hw, Hfl. fold (pending s). lia.
    + apply Permutation_length in Hcr, Hpe. cbn in Hcr, Hpe.
      rewrite Hres, Hpe. lia.
  - apply finish_task_spec in Hf
      as (t & _ & Hpe & _ & _ & [(_ & Hres & Hcr & _)
                               |(_ & (r & Hres & _ & _) & (ch & Hcr & Hlen & _))]).
    + pose proof (Permutation_length Hpe) as Hl. cbn in Hl.
      rewrite Hres, Hcr. lia.
    + pose proof (Permutation_length Hpe) as Hl. cbn in Hl.
      assert (Ht : t ∈ pending s) by (rewrite Hpe; left).
      assert (Hsz : size (results s') = S (size (results s))).
      { rewrite Hres. apply map_size_insert_None.
        apply (pending_fresh _ Hu t Ht). }
      rewrite Hsz, Hcr, length_app. lia.
Qed.

Lemma run_potential schedule :
  forall s s', depth_inv s /\ url_inv s /\ count_inv s ->
    run schedule s = Some s' ->
    (Z.of_nat (length schedule) + potential s' <= potential s)%Z
    /\ count_inv s'.
Proof.
  induction schedule as [|e rest IH]; intros s s' (Hd & Hu & Hc).
  - intros [= <-]. cbn [length]. split; [lia | exact Hc].
  - cbn [Crawler.run]. destruct (exec e s) as [s1|] eqn:He; [|discriminate].
    intros Hrun.
    pose proof (potential_step e s s1 Hu He) as Hstep.
    destruct (IH s1 s') as [Hle Hc']; [|exact Hrun|].
    + split; [apply (depth_inv_step e s s1 Hd He)|].
      split; [apply (url_inv_step e s s1 Hu He)
             | apply (count_inv_step e s s1 Hu Hc He)].
    + split; [|exact Hc']. cbn [length]. lia.
Qed.

(** X19.  Every run is finite: a crawl takes at most
    [2 + 21 * max(0, 10 * max_pages - 9)] steps (starts of a call of
    [crawl_recursive] and answers of a fetch), whatever the site and the
    interleaving are. *)
Theorem crawl_terminates (visited : gset str) (schedule : list event)
    (s : state) :
  run schedule (init visited) = Some s ->
  (Z.of_nat (length schedule) <= 2 + 21 * page_bound)%Z.
Proof.
  intros Hrun.
  destruct (run_potential schedule (init visited) s) as [Hle [Hz Hpos]];
    [|exact Hrun|].
  { split; [apply depth_inv_init|].
    split; [apply url_inv_init | apply count_inv_init]. }
  assert (Hsz : (Z.of_nat (size (results s)) <= page_bound)%Z).
  { unfold page_bound. destruct (Z_le_gt_dec max_pages 0) as [HM|HM].
    - destruct (Hz HM) as [-> _]. lia.
    - assert (HM' : (1 <= max_pages)%Z) by lia.
      specialize (Hpos HM'). unfold slack in Hpos.
      destruct (_ <? max_pages)%Z; lia. }
  unfold potential in Hle. cbn [Crawler.init created] in Hle.
  unfold pending in Hle at 2. cbn in Hle.
  rewrite map_size_empty in Hle. lia.
Qed.

(** X20.  The crawl never blocks: as long as it has neither returned nor
    raised, some call can start or some fetch can answer. *)
Theorem crawl_progress (visited : gset str) (schedule : list event)
    (s : state) :
  run schedule (init visited) = Some s ->
  raised s = false -> returned s = false ->
  exists e s', exec e s = Some s'.
Proof.
  intros Hrun.
  assert (H : semaphore_inv s).
  { revert Hrun. apply (run_invariant semaphore_inv).
    - apply semaphore_inv_step.
    - split; reflexivity. }
  destruct H as [Hsum Hq].
  assert (Hw : waiting s <> [] -> length (in_flight s) = 5).
  { intros Hne. destruct (permits s) as [|p] eqn:Hp; [lia|].
    exfalso. apply Hne, Hq. lia. }
  intros Hr Hret.
  unfold returned in Hret. rewrite Hr in Hret. cbn [negb andb] in Hret.
  destruct (created s) as [|c cs] eqn:Hc.
  - destruct (in_flight s) as [|f fs] eqn:Hf.
    + destruct (waiting s) as [|w ws] eqn:Hwt; [discriminate|].
      assert (Hne : w :: ws <> []) by discriminate.
      specialize (Hw Hne). discriminate.
    + destruct (finish_task_enabled s 0 f) as [s' Hs'];
        [rewrite Hf; reflexivity|].
      exists (Finish 0), s'. unfold Crawler.exec. rewrite Hr. exact Hs'.
  - exists (Start 0). unfold Crawler.exec, Crawler.start_task.
    rewrite Hr, Hc. cbn [lookup list_lookup].
    destruct (stops s c); [eexists; reflexivity|].
    destruct (permits s); eexists; reflexivity.
Qed.

(** ** The guard on the first call *)

Lemma stops_seed visited s :
  start_url ∈ visited \/ (max_depth < 0)%Z \/ (max_pages <= 0)%Z ->
  results s = ∅ -> visited_urls s = visited ->
  stops s (mkTask start_url 0) = true.
Proof.
  intros H Hres Hv. unfold Crawler.stops. rewrite Hres, Hv, map_size_empty.
  cbn [t_depth t_url].
  destruct H as [H|[H|H]].
  - rewrite (bool_decide_eq_true_2 _ H). apply orb_true_r.
  - apply Z.ltb_lt in H. rewrite H. reflexivity.
  - apply Z.leb_le in H. change (Z.of_nat 0) with 0%Z.
    rewrite H, orb_true_r. reflexivity.
Qed.

(** X21.  When the guard turns the first call away (the start URL is already
    in the visited set of the crawler object, [max_depth] is negative, or
    [max_pages] is not positive), the crawl fetches nothing, records
    nothing and leaves the visited set as it was. *)
Theorem crawl_guard_on_seed (visited : gset str) (schedule : list event)
    (s : state) :
  start_url ∈ visited \/ (max_depth < 0)%Z \/ (max_pages <= 0)%Z ->
  run schedule (init visited) = Some s ->
  results s = ∅ /\ fetched s = [] /\ visited_urls s = visited
  /\ pending s = [].
Proof.
  intros Hg Hrun.
  assert (H : idle visited s).
  { revert Hrun. apply (run_invariant (idle visited)).
    - intros e s0 s1 (Hres & Hfe & Hv & Hpe & Hcr) He.
      apply exec_cases in He as [_ [[i Hs]|[i Hf]]].
      + apply start_task_spec in Hs
          as (t & Hperm & Hres' & _ & [(_ & Hv' & Hfe' & Hw & Hfl & _)
                                      |(Hst & _)]).
        * unfold idle, pending in *. rewrite Hres', Hv', Hfe', Hw, Hfl.
          repeat (split; [assumption|]).
          intros t' Ht'. apply Hcr. rewrite Hperm. right. exact Ht'.
        * assert (Ht : t = mkTask start_url 0)
            by (apply Hcr; rewrite Hperm; left).
          rewrite Ht, (stops_seed visited s0 Hg Hres Hv) in Hst.
          discriminate.
      + apply finish_task_spec in Hf as (t & _ & Hperm & _).
        rewrite Hpe in Hperm. apply Permutation_nil_cons in Hperm.
        contradiction.
    - unfold idle. cbn. repeat (split; [reflexivity|]).
      intros t Ht. apply elem_of_cons in Ht as [->|Ht];
        [reflexivity | apply elem_of_nil in Ht; destruct Ht]. }
  destruct H as (H1 & H2 & H3 & H4 & _). auto.
Qed.

(** X22.  When the start page cannot be fetched (or comes back empty), the
    crawl returns an empty mapping after this one fetch. *)
Theorem crawl_seed_failure (visited : gset str) (schedule : list event)
    (s : state) :
  fetch_ok start_url = false ->
  run schedule (init visited) = Some s ->
  results s = ∅ /\ length (fetched s) <= 1.
Proof.
  intros Hfail Hrun.
  assert (H : seed_only s).
  { revert Hrun. apply (run_invariant seed_only).
    - intros e s0 s1 (Hres & Hurl & Hlen) He.
      apply exec_cases in He as [_ [[i Hs]|[i Hf]]].
      + apply start_task_spec in Hs
          as (t & Hcr & Hres' & _ & [(_ & _ & Hfe & Hw & Hfl & _)
                                    |(_ & _ & Hfe & Hpe & _)]).
        * pose proof (Permutation_length Hcr) as Hl. cbn in Hl.
          unfold seed_only, pending in *. rewrite Hres', Hfe, Hw, Hfl.
          split; [exact Hres|]. split; [|lia].
          intros t' Ht'. apply Hurl.
          apply elem_of_app in Ht' as [Ht'|Ht']; apply elem_of_app;
            [left; rewrite Hcr; right; exact Ht' | right; exact Ht'].
        * pose proof (Permutation_length Hcr) as Hl. cbn in Hl.
          unfold seed_only. rewrite Hres', Hfe. cbn [length].
          split; [exact Hres|]. split; [|lia].
          intros t' Ht'. apply Hurl.
          apply elem_of_app in Ht' as [Ht'|Ht']; apply elem_of_app.
          -- left. rewrite Hcr. right. exact Ht'.
          -- rewrite Hpe in Ht'. apply elem_of_cons in Ht' as [->|Ht'];
               [left; rewrite Hcr; left | right; exact Ht'].
      + apply finish_task_spec in Hf
          as (t & _ & Hpe & _ & Hfe & [(_ & Hres' & Hcr & _)|(Hok & _)]).
        * unfold seed_only. rewrite Hres', Hfe, Hcr.
          split; [exact Hres|]. split; [|exact Hlen].
          intros t' Ht'. apply Hurl.
          apply elem_of_app in Ht' as [Ht'|Ht']; apply elem_of_app;
            [left; exact Ht' | right; rewrite Hpe; right; exact Ht'].
        * assert (Ht : t_url t = start_url).
          { apply Hurl, elem_of_app. right. rewrite Hpe. left. }
          rewrite Ht, Hfail in Hok. discriminate.
    - unfold seed_only. cbn. split; [reflexivity|]. split; [|lia].
      intros t Ht. apply elem_of_cons in Ht as [->|Ht];
        [reflexivity | apply elem_of_nil in Ht; destruct Ht]. }
  destruct H as (H1 & _ & H2). split; [exact H1 | lia].
Qed.

(** ** Page records *)

Lemma finish_task_record s i s' :
  finish_task s i = Some s' ->
  exists t,
    in_flight s !! i = Some t
    /\ ((results s' = results s /\ created s' = created s)
        \/ exists content html,
             fetch_page (t_url t) = (Some content, Some html)
             /\ content <> [] /\ html <> []
             /\ results s'
                = <[t_url t := mkPage (t_url t) content html (t_depth t)
                                      (extract_title html)]> (results s)
             /\ (created s' = created s
                 \/ exists links,
                      extract_links (t_url t) html base_domain = Some links
                      /\ created s'
                         = created s
                           ++ child_tasks (visited_urls s) links (t_depth t))).
Proof.
  unfold Crawler.finish_task.
  destruct (in_flight s !! i) as [t|]; [|discriminate].
  intros H. exists t. split; [reflexivity|].
  destruct (waiting s) as [|w ws];
    destruct (fetch_page (t_url t)) as [[[|c0 c]|] [[|h0 h]|]];
    cbn [truthy andb default option_rect from_option] in H;
    try (injection H as <-; left; split; reflexivity);
    right; exists (c0 :: c), (h0 :: h);
    (split; [reflexivity|]); (split; [discriminate|]);
    (split; [discriminate|]);
    destruct (t_depth t <? max_depth)%Z;
    try destruct (extract_links _ _ _) eqn:He;
    injection H as <-; cbn; eauto 10.
Qed.

(** X23.  Every page record is stored under its own URL, which is in the
    visited set, and holds the non-empty content and markup that the fetch
    of that URL returns, with the title extracted from the markup. *)
Theorem crawl_page_records (visited : gset str) (schedule : list event)
    (s : state) :
  run schedule (init visited) = Some s ->
  forall url r, results s !! url = Some r ->
    p_url r = url /\ url ∈ visited_urls s
    /\ fetch_page url = (Some (p_content r), Some (p_html r))
    /\ p_content r <> [] /\ p_html r <> []
    /\ p_title r = extract_title (p_html r).
Proof.
  intros Hrun url r Hl.
  destruct (run_invariants _ _ _ Hrun) as (_ & Hu & _).
  assert (H : record_inv s).
  { revert Hrun. apply (run_invariant record_inv).
    - intros e s0 s1 Hrec He.
      apply exec_cases in He as [_ [[i Hs]|[i Hf]]].
      + apply start_task_spec in Hs as (t & _ & Hres & _).
        unfold record_inv. rewrite Hres. exact Hrec.
      + apply finish_task_record in Hf
          as (t & _ & [[Hres _]|(c & h & Hfp & Hc & Hh & Hres & _)]).
        * unfold record_inv. rewrite Hres. exact Hrec.
        * intros url' r' Hl'. rewrite Hres in Hl'.
          apply lookup_insert_Some in Hl' as [[<- <-]|[_ Hl']];
            [|apply (Hrec _ _ Hl')].
          exists c, h. cbn. auto.
    - intros url' r' Hl'. cbn in Hl'. rewrite lookup_empty in Hl'.
      discriminate. }
  destruct (H url r Hl) as (c & h & Hfp & Hc & Hh & Hr).
  split; [apply (results_ok _ Hu url r Hl)|].
  split; [apply (fetched_visited _ Hu), (results_fetched _ Hu); eauto|].
  rewrite Hr. cbn. auto.
Qed.

Lemma origin_insert s s' url depth key r :
  results s !! key = None -> results s' = <[key := r]> (results s) ->
  origin s url depth -> origin s' url depth.
Proof.
  intros Hfresh Hres [H|(parent & p & links & Hp & Hd & Hl & Hin)];
    [left; exact H|].
  right. exists parent, p, links. split; [|auto].
  rewrite Hres, lookup_insert_ne; [exact Hp|].
  intros ->. rewrite Hfresh in Hp. discriminate.
Qed.

Lemma tree_inv_step e s s' :
  url_inv s -> tree_inv s -> exec e s = Some s' -> tree_inv s'.
Proof.
  intros Hu [Hc Hr] He.
  apply exec_cases in He as [_ [[i Hs]|[i Hf]]].
  - apply start_task_spec in Hs
      as (t & Hcr & Hres & _ & [(_ & _ & _ & Hw & Hfl & _)
                               |(_ & _ & _ & Hpe & _)]).
    + assert (Ho : forall url depth, origin s url depth -> origin s' url depth).
      { unfold origin. rewrite Hres. auto. }
      split.
      * intros t' Ht'. apply Ho, Hc. unfold pending in *.
        rewrite Hw, Hfl in Ht'.
        apply elem_of_app in Ht' as [Ht'|Ht']; apply elem_of_app;
          [left; rewrite Hcr; right; exact Ht' | right; exact Ht'].
      * intros url r Hl. apply Ho, Hr. rewrite <- Hres. exact Hl.
    + assert (Ho : forall url depth, origin s url depth -> origin s' url depth).
      { unfold origin. rewrite Hres. auto. }
      split.
      * intros t' Ht'. apply Ho, Hc.
        apply elem_of_app in Ht' as [Ht'|Ht']; apply elem_of_app.
        -- left. rewrite Hcr. right. exact Ht'.
        -- rewrite Hpe in Ht'. apply elem_of_cons in Ht' as [->|Ht'];
             [left; rewrite Hcr; left | right; exact Ht'].
      * intros url r Hl. apply Ho, Hr. rewrite <- Hres. exact Hl.
  - pose proof (finish_task_record s i s' Hf) as Hrec.
    apply finish_task_spec in Hf as (t & Hi & Hpe & _).
    destruct Hrec as (t0 & Hi0 & Hrec).
    assert (t0 = t) by congruence. subst t0.
    assert (Ht : t ∈ pending s) by (rewrite Hpe; left).
    assert (Hold : forall t', t' ∈ created s ++ pending s' ->
                              origin s (t_url t') (t_depth t')).
    { intros t' Ht'. apply Hc.
      apply elem_of_app in Ht' as [Ht'|Ht']; apply elem_of_app;
        [left; exact Ht' | right; rewrite Hpe; right; exact Ht']. }
    destruct Hrec as [[Hres Hcr]|(c & h & _ & _ & _ & Hres & Hcr)].
    + assert (Ho : forall url depth, origin s url depth -> origin s' url depth).
      { unfold origin. rewrite Hres. auto. }
      split.
      * rewrite Hcr. intros t' Ht'. apply Ho, Hold, Ht'.
      * intros url r Hl. apply Ho, Hr. rewrite <- Hres. exact Hl.
    + assert (Hfresh : results s !! t_url t = None)
        by apply (pending_fresh _ Hu t Ht).
      assert (Ho : forall url depth, origin s url depth -> origin s' url depth).
      { intros url depth. apply (origin_insert s s' url depth _ _ Hfresh Hres). }
      split.
      * intros t' Ht'.
        destruct Hcr as [Hcr|(links & Hl & Hcr)]; rewrite Hcr in Ht';
          [apply Ho, Hold, Ht'|].
        rewrite <- app_assoc in Ht'.
        apply elem_of_app in Ht' as [Ht'|Ht'];
          [apply Ho, Hold, elem_of_app; left; exact Ht'|].
        apply elem_of_app in Ht' as [Ht'|Ht'];
          [|apply Ho, Hold, elem_of_app; right; exact Ht'].
        apply child_tasks_spec in Ht' as (Hd & _ & Hin).
        right. eexists (t_url t), _, links. split.
        -- rewrite Hres. apply lookup_insert_eq.
        -- cbn. auto.
      * intros url r Hl. rewrite Hres in Hl.
        apply lookup_insert_Some in Hl as [[<- <-]|[_ Hl]].
        -- cbn. apply Ho, Hc, elem_of_app. right. exact Ht.
        -- apply Ho, (Hr _ _ Hl).
Qed.

(** X24.  The recorded pages form a tree under the start URL: a page at depth
    0 is the start URL, and every other page was one of the first ten
    links extracted from a recorded page one level above it. *)
Theorem crawl_pages_linked (visited : gset str) (schedule : list event)
    (s : state) :
  run schedule (init visited) = Some s ->
  forall url r, results s !! url = Some r ->
    (url = start_url /\ p_depth r = 0%Z)
    \/ exists parent p links,
         results s !! parent = Some p
         /\ p_depth r = (p_depth p + 1)%Z
         /\ extract_links parent (p_html p) base_domain = Some links
         /\ In url (firstn 10 links).
Proof.
  intros Hrun.
  assert (H : url_inv s /\ tree_inv s).
  { revert Hrun. apply (run_invariant (fun s => url_inv s /\ tree_inv s)).
    - intros e s0 s1 [Hu Ht] He. split.
      + apply (url_inv_step e s0 s1 Hu He).
      + apply (tree_inv_step e s0 s1 Hu Ht He).
    - split; [apply url_inv_init|]. split.
      + intros t Ht. cbn in Ht. apply elem_of_cons in Ht as [->|Ht];
          [left; split; reflexivity | apply elem_of_nil in Ht; destruct Ht].
      + intros url r Hl. cbn in Hl. rewrite lookup_empty in Hl.
        discriminate. }
  destruct H as [_ [_ Hr]]. exact Hr.
Qed.

(** ** The links of a page *)

Lemma collect_links_spec url domain hrefs links :
  collect_links url domain hrefs = Some links ->
  forall x, In x links <->
    exists href absolute_url,
      In href hrefs
      /\ startswith (lit "#") href = false
      /\ startswith (lit "javascript:") href = false
      /\ urljoin url href = Some absolute_url
      /\ x = normalize absolute_url
      /\ is_internal_link x domain = true.
Proof.
  revert links.
  induction hrefs as [|href rest IH]; intros links;
    cbn [Crawler.collect_links].
  - intros [= <-] x. split; [intros [] | intros (? & ? & [] & _)].
  - destruct (startswith (lit "#") href || startswith (lit "javascript:") href)
      eqn:Hskip.
    + intros Hc x. rewrite (IH links Hc x). split.
      * intros (h & a & Hin & H). exists h, a. split; [right; exact Hin|exact H].
      * intros (h & a & [<-|Hin] & H1 & H2 & H).
        -- rewrite H1, H2 in Hskip. discriminate.
        -- exists h, a. auto.
    + apply orb_false_iff in Hskip as [Hs1 Hs2].
      destruct (urljoin url href) as [absolute_url|] eqn:Hj; [|discriminate].
      destruct (Crawler.collect_links _ _ _ url domain rest) as [l|];
        [|discriminate].
      specialize (IH l eq_refl).
      destruct (is_internal_link _ _) eqn:Hint; intros [= <-] x.
      * split.
        -- intros [<-|Hx].
           ++ exists href, absolute_url. split; [left; reflexivity|]. auto.
           ++ apply IH in Hx as (h & a & Hin & H).
              exists h, a. split; [right; exact Hin | exact H].
        -- intros (h & a & [<-|Hin] & H1 & H2 & H3 & H4 & H5).
           ++ left. congruence.
           ++ right. apply IH. exists h, a. auto 7.
      * rewrite (IH x). split.
        -- intros (h & a & Hin & H). exists h, a.
           split; [right; exact Hin | exact H].
        -- intros (h & a & [<-|Hin] & H1 & H2 & H3 & H4 & H5).
           ++ assert (a = absolute_url) by congruence. subst a x.
              rewrite Hint in H5. discriminate.
           ++ exists h, a. auto 7.
Qed.

(** X25.  The links that [extract_links] returns are exactly the canonical
    forms of the joined [href] values of the page that are neither anchors
    nor script links and that are internal to the domain; no link is
    returned twice. *)
Theorem extract_links_spec
    (Hset : forall l, NoDup (set_order l)
                      /\ forall x, In x (set_order l) <-> In x l)
    (url html domain : str) (links : list str) :
  extract_links url html domain = Some links ->
  NoDup links
  /\ exists hrefs,
       find_all_a_href html = Some hrefs
       /\ forall x, In x links <->
            exists href absolute_url,
              In href hrefs
              /\ startswith (lit "#") href = false
              /\ startswith (lit "javascript:") href = false
              /\ urljoin url href = Some absolute_url
              /\ x = normalize absolute_url
              /\ is_internal_link x domain = true.
Proof.
  unfold Crawler.extract_links.
  destruct (find_all_a_href html) as [hrefs|]; [|discriminate].
  destruct (collect_links url domain hrefs) as [collected|] eqn:Hc;
    [|discriminate].
  intros [= <-]. destruct (Hset collected) as [Hnd Hin].
  split; [exact Hnd|]. exists hrefs. split; [reflexivity|].
  intros x. rewrite Hin. apply (collect_links_spec _ _ _ _ Hc).
Qed.

End CrawlFacts.

(** ** Runs on the small web site *)


(** *** The start URL is not canonicalised (C3) *)

(** C3 does not hold of the code.  In the crawl of [home_site] from
    ["http://a.com/"] the start URL is visited as it is written; the home
    link of the page is canonicalised to ["http://a.com"], which is not
    in the visited set, and the same page is fetched and recorded a
    second time, although both URLs have one canonical form. *)
Lemma seed_fetched_twice :
  option_map (fun s => (rev (fetched s), size (results s), returned s))
             (crawl home_site insertion_order (lit "http://a.com/") 3 50
                    home_schedule)
  = Some ([lit "http://a.com/"; lit "http://a.com";
           lit "http://a.com/missing"], 2, true)
  /\ UtilsFacts.canon (lit "http://a.com/")
     = UtilsFacts.canon (lit "http://a.com").
Proof. split; vm_compute; reflexivity. Qed.

(** *** Witnesses on [home_site] *)

Lemma crawl_depth_bound_witness :
  match crawl home_site insertion_order (lit "http://a.com/") 3 50
              home_schedule with
  | Some s =>
      forall url r, results s !! url = Some r -> (0 <= p_depth r <= 3)%Z
  | None => False
  end.
Proof.
  destruct (crawl home_site insertion_order (lit "http://a.com/") 3 50
                  home_schedule) as [s|] eqn:E.
  - apply (crawl_depth_bound _ _ _ _ _ _ _ _ _ _ _ _ _ _ _ _ E).
  - assert (H : goes_through
                  (crawl home_site insertion_order (lit "http://a.com/") 3 50
                         home_schedule) = true)
      by (vm_compute; reflexivity).
    rewrite E in H. discriminate.
Defined.

Lemma fetch_failure_semantics_witness :
  match crawl home_site insertion_order (lit "http://a.com/") 3 50
              home_schedule_in_flight with
  | Some s =>
      (forall url, site_fetch_ok home_site url = false ->
                   results s !! url = None)
      /\ (forall url, url ∈ fetched s -> url ∈ visited_urls s)
      /\ NoDup (fetched s)
  | None => False
  end.
Proof.
  destruct (crawl home_site insertion_order (lit "http://a.com/") 3 50
                  home_schedule_in_flight) as [s|] eqn:E.
  - destruct (fetch_failure_semantics _ _ _ _ _ _ _ _ _ _ _ _ _ _ _ _ E)
      as (H1 & H2 & H3 & _).
    split; [exact H1|]. split; [exact H2 | exact H3].
  - assert (H : goes_through
                  (crawl home_site insertion_order (lit "http://a.com/") 3 50
                         home_schedule_in_flight) = true)
      by (vm_compute; reflexivity).
    rewrite E in H. discriminate.
Defined.

(** The failing fetch on [home_site]: before its answer the URL is in the
    visited set and in flight; after it the results are the same single
    page, nothing has raised, and the other coroutine is still in
    flight. *)
Lemma failed_fetch_example :
  site_fetch_ok home_site (lit "http://a.com/missing") = false
  /\ option_map
       (fun s => (map t_url (in_flight s),
                  bool_decide (lit "http://a.com/missing" ∈ visited_urls s),
                  size (results s)))
       (crawl home_site insertion_order (lit "http://a.com/") 3 50
              home_schedule_in_flight)
     = Some ([lit "http://a.com"; lit "http://a.com/missing"], true, 1)
  /\ option_map
       (fun s => (map t_url (in_flight s),
                  bool_decide (lit "http://a.com/missing" ∈ visited_urls s),
                  size (results s), raised s))
       (crawl home_site insertion_order (lit "http://a.com/") 3 50
              (home_schedule_in_flight ++ [Finish 1]))
     = Some ([lit "http://a.com"], true, 1, false).
Proof. repeat split; vm_compute; reflexivity. Qed.

(** *** The soft page cap (C7) *)

(** C7 fails as stated.  With [max_pages = 2] and a start page of ten
    links, the ten child calls all pass the guard while one page is
    recorded, five of them queue at the semaphore, and all ten pages are
    recorded: eleven entries, where the claim allows [2 + 5]. *)
Lemma soft_cap_overshoot :
  option_map (fun s => (size (results s), returned s))
             (crawl (hub_site "0123456789") insertion_order
                    (lit "http://a.com") 3 2 burst_schedule)
  = Some (11, true)
  /\ option_map (fun s => (length (in_flight s), length (waiting s)))
                (crawl (hub_site "0123456789") insertion_order
                       (lit "http://a.com") 3 2
                       ([Start 0; Finish 0] ++ repeat (Start 0) 10))
     = Some (5, 5).
Proof. split; vm_compute; reflexivity. Qed.

Lemma crawl_page_count_witness :
  match crawl (hub_site "0123456789") insertion_order (lit "http://a.com")
              3 2 burst_schedule with
  | Some s => (Z.of_nat (size (results s)) <= 10 * 2 - 9)%Z
  | None => False
  end.
Proof.
  destruct (crawl (hub_site "0123456789") insertion_order
                  (lit "http://a.com") 3 2 burst_schedule) as [s|] eqn:E.
  - apply (crawl_page_count _ _ _ _ _ _ _ _ _ _ _ _ _ _ _ _ E). lia.
  - assert (H : goes_through
                  (crawl (hub_site "0123456789") insertion_order
                         (lit "http://a.com") 3 2 burst_schedule) = true)
      by (vm_compute; reflexivity).
    rewrite E in H. discriminate.
Defined.

(** *** The order of the followed links (C6) *)



(** ** Further runs on the small web site *)

Lemma insertion_order_is_set_order (l : list str) :
  NoDup (insertion_order l)
  /\ forall x, In x (insertion_order l) <-> In x l.
Proof.
  unfold insertion_order. split.
  - apply NoDup_ListNoDup, PyStrFacts.dict_fromkeys_NoDup.
  - apply PyStrFacts.dict_fromkeys_In.
Qed.

Lemma concurrency_cap_witness :
  match crawl (hub_site "0123456789") insertion_order (lit "http://a.com")
              3 2 burst_started with
  | Some s =>
      length (in_flight s) <= 5
      /\ permits s + length (in_flight s) = 5
  | None => False
  end.
Proof.
  destruct (crawl (hub_site "0123456789") insertion_order
                  (lit "http://a.com") 3 2 burst_started) as [s|] eqn:E.
  - unfold crawl in E. apply concurrency_cap in E. exact E.
  - assert (H : goes_through
                  (crawl (hub_site "0123456789") insertion_order
                         (lit "http://a.com") 3 2 burst_started) = true)
      by (vm_compute; reflexivity).
    rewrite E in H. discriminate.
Defined.

Lemma fetched_urls_canonical_witness :
  match crawl home_site insertion_order (lit "http://a.com/") 3 50
              home_schedule with
  | Some s => NoDup (fetched s)
  | None => False
  end.
Proof.
  destruct (crawl home_site insertion_order (lit "http://a.com/") 3 50
                  home_schedule) as [s|] eqn:E.
  - unfold crawl in E. apply fetched_urls_canonical in E as [H _]; [exact H|].
    intros l x. apply (insertion_order_is_set_order l).
  - assert (H : goes_through
                  (crawl home_site insertion_order (lit "http://a.com/") 3 50
                         home_schedule) = true)
      by (vm_compute; reflexivity).
    rewrite E in H. discriminate.
Defined.

Lemma crawl_fetch_bound_witness :
  match crawl (hub_site "0123456789") insertion_order (lit "http://a.com")
              3 2 burst_schedule with
  | Some s => (Z.of_nat (length (fetched s)) <= 10 * 2 - 9)%Z
  | None => False
  end.
Proof.
  destruct (crawl (hub_site "0123456789") insertion_order
                  (lit "http://a.com") 3 2 burst_schedule) as [s|] eqn:E.
  - unfold crawl in E. apply crawl_fetch_bound in E as [_ H]. apply H. lia.
  - assert (H : goes_through
                  (crawl (hub_site "0123456789") insertion_order
                         (lit "http://a.com") 3 2 burst_schedule) = true)
      by (vm_compute; reflexivity).
    rewrite E in H. discriminate.
Defined.

Lemma crawl_terminates_witness :
  match crawl (hub_site "0123456789") insertion_order (lit "http://a.com")
              3 2 burst_schedule with
  | Some _ => (Z.of_nat (length burst_schedule) <= 2 + 21 * page_bound 2)%Z
  | None => False
  end.
Proof.
  destruct (crawl (hub_site "0123456789") insertion_order
                  (lit "http://a.com") 3 2 burst_schedule) as [s|] eqn:E.
  - unfold crawl in E. apply crawl_terminates in E. exact E.
  - assert (H : goes_through
                  (crawl (hub_site "0123456789") insertion_order
                         (lit "http://a.com") 3 2 burst_schedule) = true)
      by (vm_compute; reflexivity).
    rewrite E in H. discriminate.
Defined.

Lemma crawl_progress_witness :
  match crawl (hub_site "0123456789") insertion_order (lit "http://a.com")
              3 2 burst_started with
  | Some s =>
      exists e s',
        crawl_exec (hub_site "0123456789") insertion_order
                   (lit "http://a.com") 3 2 e s = Some s'
  | None => False
  end.
Proof.
  assert (H : match crawl (hub_site "0123456789") insertion_order
                          (lit "http://a.com") 3 2 burst_started with
              | Some s => negb (raised s) && negb (returned s)
              | None => false
              end = true)
    by (vm_compute; reflexivity).
  destruct (crawl (hub_site "0123456789") insertion_order
                  (lit "http://a.com") 3 2 burst_started) as [s|] eqn:E;
    [|discriminate].
  apply andb_true_iff in H as [Hr Hret].
  apply negb_true_iff in Hr. apply negb_true_iff in Hret.
  unfold crawl in E. unfold crawl_exec.
  apply crawl_progress in E; [exact E | exact Hr | exact Hret].
Defined.

Lemma crawl_guard_on_seed_witness :
  match crawl home_site insertion_order (lit "http://a.com/") (-1) 50
              [Start 0] with
  | Some s => results s = ∅ /\ fetched s = []
  | None => False
  end.
Proof.
  destruct (crawl home_site insertion_order (lit "http://a.com/") (-1) 50
                  [Start 0]) as [s|] eqn:E.
  - unfold crawl in E.
    apply crawl_guard_on_seed in E as (H1 & H2 & _); [auto|].
    right. left. lia.
  - assert (H : goes_through
                  (crawl home_site insertion_order (lit "http://a.com/")
                         (-1) 50 [Start 0]) = true)
      by (vm_compute; reflexivity).
    rewrite E in H. discriminate.
Defined.

Lemma crawl_seed_failure_witness :
  match crawl home_site insertion_order (lit "http://a.com/missing") 3 50
              [Start 0; Finish 0] with
  | Some s => results s = ∅ /\ length (fetched s) <= 1
  | None => False
  end.
Proof.
  destruct (crawl home_site insertion_order (lit "http://a.com/missing") 3 50
                  [Start 0; Finish 0]) as [s|] eqn:E.
  - unfold crawl in E. apply crawl_seed_failure in E; [exact E|].
    vm_compute. reflexivity.
  - assert (H : goes_through
                  (crawl home_site insertion_order
                         (lit "http://a.com/missing") 3 50
                         [Start 0; Finish 0]) = true)
      by (vm_compute; reflexivity).
    rewrite E in H. discriminate.
Defined.

Lemma crawl_page_records_witness :
  match crawl home_site insertion_order (lit "http://a.com/") 3 50
              home_schedule with
  | Some s =>
      forall url r, results s !! url = Some r ->
        p_url r = url /\ url ∈ visited_urls s
        /\ p_content r <> [] /\ p_html r <> []
  | None => False
  end.
Proof.
  destruct (crawl home_site insertion_order (lit "http://a.com/") 3 50
                  home_schedule) as [s|] eqn:E.
  - intros url r Hl. unfold crawl in E.
    destruct (crawl_page_records _ _ _ _ _ _ _ _ _ _ _ _ _ _ _ _ E url r Hl)
      as (H1 & H2 & _ & H3 & H4 & _).
    auto.
  - assert (H : goes_through
                  (crawl home_site insertion_order (lit "http://a.com/") 3 50
                         home_schedule) = true)
      by (vm_compute; reflexivity).
    rewrite E in H. discriminate.
Defined.

Lemma crawl_pages_linked_witness :
  match crawl home_site insertion_order (lit "http://a.com/") 3 50
              home_schedule with
  | Some s =>
      forall url r, results s !! url = Some r ->
        (url = lit "http://a.com/" /\ p_depth r = 0%Z)
        \/ exists parent p,
             results s !! parent = Some p
             /\ p_depth r = (p_depth p + 1)%Z
  | None => False
  end.
Proof.
  destruct (crawl home_site insertion_order (lit "http://a.com/") 3 50
                  home_schedule) as [s|] eqn:E.
  - intros url r Hl. unfold crawl in E.
    destruct (crawl_pages_linked _ _ _ _ _ _ _ _ _ _ _ _ _ _ _ _ E url r Hl)
      as [H|(parent & p & links & H1 & H2 & _)]; [left; exact H|].
    right. exists parent, p. auto.
  - assert (H : goes_through
                  (crawl home_site insertion_order (lit "http://a.com/") 3 50
                         home_schedule) = true)
      by (vm_compute; reflexivity).
    rewrite E in H. discriminate.
Defined.

Lemma extract_links_spec_witness :
  match extract_links UtilsFacts.host_checks_pass UtilsFacts.host_checks_pass
                      absolute_join markup_hrefs insertion_order
                      (lit "http://a.com")
                      (page_markup (numbered "0123456789a")) (lit "a.com")
  with
  | Some links => NoDup links
  | None => False
  end.
Proof.
  destruct (extract_links _ _ _ _ _ _ _ _) as [links|] eqn:E.
  - apply extract_links_spec in E as [H _];
      [exact H | exact insertion_order_is_set_order].
  - vm_compute in E. discriminate.
Defined.

End CrawlerFacts.

(** ** app.py *)

Module AppFacts.
Import PyStr PyStrFacts UtilsTextFacts App.

(** What [validate_urls] makes of one entry that is not blank. *)
Definition with_protocol (url : str) : str :=
  if has_protocol (strip url) then strip url else lit "https://" ++ strip url.

Lemma has_protocol_https url : has_protocol (lit "https://" ++ url) = true.
Proof. reflexivity. Qed.

Lemma has_protocol_nonempty url : has_protocol url = true -> is_empty url = false.
Proof. destruct url; [discriminate | reflexivity]. Qed.

Lemma last_char_app_r a b : b <> [] -> last_char (a ++ b) = last_char b.
Proof.
  intros Hb. induction a as [|x t IH]; [reflexivity|].
  change ((x :: t) ++ b) with (x :: (t ++ b)).
  rewrite last_char_cons; [exact IH|].
  destruct t; [exact Hb | discriminate].
Qed.

Lemma with_protocol_spec url :
  is_empty (strip url) = false ->
  has_protocol (with_protocol url) = true
  /\ trimmed (with_protocol url) = true.
Proof.
  intros Hne. unfold with_protocol.
  destruct (has_protocol (strip url)) eqn:E.
  - split; [exact E | apply strip_trimmed].
  - split; [apply has_protocol_https|].
    pose proof (strip_trimmed url) as Ht. unfold trimmed in *.
    apply andb_true_iff in Ht as [_ Hl].
    rewrite last_char_app_r by (destruct (strip url); discriminate).
    exact Hl.
Qed.

Lemma validate_urls_eq urls :
  validate_urls urls
  = map with_protocol
        (List.filter (fun url => negb (is_empty (strip url))) urls).
Proof.
  unfold validate_urls. induction urls as [|u t IH]; [reflexivity|].
  cbn [flat_map List.filter]. rewrite IH.
  destruct (is_empty (strip u)) eqn:E; [reflexivity|].
  cbn [negb map]. unfold with_protocol.
  destruct (has_protocol (strip u)) eqn:Ep; cbn [negb].
  - rewrite Ep. reflexivity.
  - rewrite has_protocol_https. reflexivity.
Qed.

(** X26.  [validate_urls] keeps every entry that is not blank, stripped and
    with ["https://"] put in front when it has no protocol: the branch
    that skips an invalid URL is never taken.  Every URL it returns begins
    with ["http://"] or ["https://"], and validating the result again
    changes nothing. *)
Theorem validate_urls_spec (urls : list str) :
  validate_urls urls
  = map with_protocol
        (List.filter (fun url => negb (is_empty (strip url))) urls)
  /\ Forall (fun url => has_protocol url = true /\ trimmed url = true)
            (validate_urls urls)
  /\ validate_urls (validate_urls urls) = validate_urls urls.
Proof.
  assert (Hall : Forall (fun url => has_protocol url = true
                                    /\ trimmed url = true)
                        (validate_urls urls)).
  { rewrite validate_urls_eq. apply List.Forall_forall. intros u Hu.
    apply in_map_iff in Hu as (u0 & <- & Hu0).
    apply filter_In in Hu0 as [_ Hne].
    apply with_protocol_spec, negb_true_iff, Hne. }
  split; [apply validate_urls_eq|]. split; [exact Hall|].
  induction Hall as [|u t [Hp Ht] _ IH]; [reflexivity|].
  change (validate_urls (u :: t))
    with ((let url := strip u in
           if is_empty url then []
           else
             let url :=
               if negb (has_protocol url) then lit "https://" ++ url
               else url in
             if has_protocol url then [url] else [])
          ++ validate_urls t).
  rewrite (trimmed_strip u Ht). cbv zeta.
  rewrite (has_protocol_nonempty u Hp), Hp. cbn [negb]. rewrite Hp.
  cbn [app]. f_equal. exact IH.
Qed.

Lemma validate_urls_example :
  validate_urls [lit " docs.a.com/help "; lit "   "; lit "http://b.org";
                 lit "ftp://c.net"]
  = [lit "https://docs.a.com/help"; lit "http://b.org";
     lit "https://ftp://c.net"].
Proof. reflexivity. Qed.

End AppFacts.

